(** * Topographic stress and frictional-failure notebooks: a shallow embedding

    Two notebooks are embedded:
    - [tectonic_stress_2_failure.ipynb]  (module [Failure])
    - [topographic_stress_field_calcs.ipynb]  (module [StressField])

    Numbers.  NumPy's [float64] values are modelled as real numbers [R] with
    exact arithmetic: rounding, overflow, infinities and NaN are outside the
    model.  A quotient [x / 0] is where exact and IEEE arithmetic part ways;
    the statements below that use the sign of a quotient have hypotheses
    under which no divisor is zero, and the others hold whatever value a
    quotient takes.  Where rounding decides a statement (the means of the
    posterior frame), the mean is also given on the primitive binary64
    floats ([Failure.mean64]).

    Exceptions.  A Python exception is [None].  The two places where the
    notebooks raise on ill-formed input are modelled: the sample table of an
    empty prior table or fault model ([Failure.index_array], IndexError) and
    the kernel length at a resolution below one metre
    ([StressField.kernel_len_checked], ZeroDivisionError).

    Library calls.  NumPy and pandas operations are modelled after their
    documented behaviour ([np_*], [pd_*], [series_*]).  The fault-stress
    resolvers ([scv.strike_shear], ...) and the half-space convolutions
    ([hs.do_b_convo], [hs.do_c_convo]) live outside the two notebooks and are
    section variables. *)

From Stdlib Require Import String.
From Stdlib Require Import Reals Lra Lia List ZArith Bool Arith Permutation.
From Stdlib Require Floats.
Import ListNotations.
Open Scope R_scope.
Set Warnings "-notation-for-abbreviation".

(** ** Small error monad: a Python exception is [None] *)

Definition bind {A B : Type} (m : option A) (k : A -> option B) : option B :=
  match m with
  | Some a => k a
  | None => None
  end.

Notation "x <- m ;; k" := (bind m (fun x => k))
  (at level 61, m at next level, right associativity).

Fixpoint mapM {A B : Type} (f : A -> option B) (l : list A) : option (list B) :=
  match l with
  | [] => Some []
  | a :: t => b <- f a ;; bs <- mapM f t ;; Some (b :: bs)
  end.

(** ** NumPy scalars and 1-D arrays *)

Definition Rleb (x y : R) : bool := if Rle_dec x y then true else false.

(** [np.float_] on integers. *)
Definition np_float_ (z : Z) : R := IZR z.

(** [np.int_] on floats: truncation toward zero. *)
Definition np_int_ (x : R) : Z :=
  if Rle_dec 0 x then Int_part x else (- Int_part (- x))%Z.

Definition Rsum (l : list R) : R := fold_right Rplus 0 l.

(** [.mean()] of a column: the sum over the number of entries, in exact
    arithmetic (the float64 result is this number rounded, see
    [Failure.mean64]). *)
Definition mean (l : list R) : R := Rsum l / INR (length l).

(** [enumerate]. *)
Definition enumerate {A : Type} (l : list A) : list (nat * A) :=
  combine (seq 0 (length l)) l.

(** [np.arange(n, dtype='float')]. *)
Definition np_arange_float (n : nat) : list R := map INR (seq 0 n).

(** Position selected by an integer index into an axis of length [n]:
    negative indices count from the end, anything outside [-n, n) raises
    [IndexError]. *)
Definition np_index (n : nat) (i : Z) : option nat :=
  if ((0 <=? i) && (i <? Z.of_nat n))%Z then Some (Z.to_nat i)
  else if ((- Z.of_nat n <=? i) && (i <? 0))%Z then Some (Z.to_nat (i + Z.of_nat n))
  else None.

(** [a[idx]] with an integer index array (fancy indexing). *)
Definition np_take {A : Type} (a : list A) (idx : list Z) : option (list A) :=
  mapM (fun i => p <- np_index (length a) i ;; nth_error a p) idx.

(** [np.tile(a, [n, 1])]: [n] sequential copies of the rows of [a]. *)
Definition np_tile {A : Type} (a : list A) (n : nat) : list A :=
  concat (repeat a n).

(** ** pandas Series indexed by integer labels *)

Definition Series : Type := list (Z * R).

Definition s_index (s : Series) : list Z := map fst s.

(** First entry carrying label [k]. *)
Fixpoint series_lookup (s : Series) (k : Z) : option R :=
  match s with
  | [] => None
  | (k', v) :: t => if (k =? k')%Z then Some v else series_lookup t k
  end.

(** [s[labels]] on a Series with a unique index: one entry per requested
    label, in the order requested; a missing label raises [KeyError]. *)
Definition series_getitem (s : Series) (labels : list Z) : option Series :=
  mapM (fun k => v <- series_lookup s k ;; Some (k, v)) labels.

(** [a / b] for two Series over the same index (both come from the same
    groupby object): positionwise quotient. *)
Definition series_div (a b : Series) : Series :=
  map (fun p => (fst (fst p), snd (fst p) / snd (snd p))) (combine a b).

(** [s[mask]] with a boolean mask computed from the values of [s]. *)
Definition series_mask (test : R -> bool) (s : Series) : Series :=
  filter (fun p => test (snd p)) s.

(** Group keys as [groupby] orders them: ascending, each once. *)
Fixpoint insert_key (k : Z) (l : list Z) : list Z :=
  match l with
  | [] => [k]
  | h :: t =>
      if (k <? h)%Z then k :: l
      else if (k =? h)%Z then l
      else h :: insert_key k t
  end.

Definition sorted_unique (l : list Z) : list Z := fold_right insert_key [] l.

(** Strictly ascending order. *)
Fixpoint ascending (l : list Z) : Prop :=
  match l with
  | [] => True
  | h :: t => (forall x, In x t -> (h < x)%Z) /\ ascending t
  end.

(** A DataFrame written out as a table: column names and labelled rows. *)
Record DataFrame := mkDataFrame {
  columns : list string;
  rows : list (Z * list R)
}.

(** [pd.concat([s1; ...; s6], axis=1)].  When all six indexes are identical
    the rows are assembled positionwise.  Otherwise pandas aligns by label;
    in this notebook that only happens when one index repeats a label, which
    pandas rejects. *)
Definition same_index (a b : list Z) : bool :=
  if list_eq_dec Z.eq_dec a b then true else false.

Fixpoint zip6 (a b c d e f : Series) : list (Z * list R) :=
  match a, b, c, d, e, f with
  | (k, x1) :: a', (_, x2) :: b', (_, x3) :: c', (_, x4) :: d', (_, x5) :: e',
    (_, x6) :: f' => (k, [x1; x2; x3; x4; x5; x6]) :: zip6 a' b' c' d' e' f'
  | _, _, _, _, _, _ => []
  end.

Definition pd_concat6 (a b c d e f : Series) : option (list (Z * list R)) :=
  if same_index (s_index a) (s_index b) && same_index (s_index a) (s_index c)
     && same_index (s_index a) (s_index d) && same_index (s_index a) (s_index e)
     && same_index (s_index a) (s_index f)
  then Some (zip6 a b c d e f)
  else None.

(** ** NumPy 2-D and 3-D arrays: a shape and an element accessor

    Only positions inside the shape are meaningful. *)

Record array2 := mkArray2 {
  shape2 : nat * nat;
  get2 : nat -> nat -> R
}.

Record array3 := mkArray3 {
  shape3 : nat * nat * nat;
  get3 : nat -> nat -> nat -> R
}.

(** Broadcasting of one axis: lengths must agree unless one of them is 1. *)
Definition bcast_dim (a b : nat) : option nat :=
  if Nat.eqb a b then Some a
  else if Nat.eqb a 1 then Some b
  else if Nat.eqb b 1 then Some a
  else None.

(** Position read on an axis of length [dim] when the result is at [i]. *)
Definition bidx (dim i : nat) : nat := if Nat.eqb dim 1 then 0%nat else i.

(** An elementwise binary operator on two arrays, with broadcasting; shapes
    that cannot be broadcast together raise [ValueError]. *)
Definition np_binop2 (op : R -> R -> R) (a b : array2) : option array2 :=
  r <- bcast_dim (fst (shape2 a)) (fst (shape2 b)) ;;
  c <- bcast_dim (snd (shape2 a)) (snd (shape2 b)) ;;
  Some {| shape2 := (r, c);
          get2 := fun i j =>
            op (get2 a (bidx (fst (shape2 a)) i) (bidx (snd (shape2 a)) j))
               (get2 b (bidx (fst (shape2 b)) i) (bidx (snd (shape2 b)) j)) |}.

Definition np_add2 : array2 -> array2 -> option array2 := np_binop2 Rplus.
Definition np_mul2 : array2 -> array2 -> option array2 := np_binop2 Rmult.

Definition dim0 (a : array3) : nat := fst (fst (shape3 a)).
Definition dim1 (a : array3) : nat := snd (fst (shape3 a)).
Definition dim2 (a : array3) : nat := snd (shape3 a).

(** [a + b] on 3-D arrays, with broadcasting. *)
Definition np_add3 (a b : array3) : option array3 :=
  d0 <- bcast_dim (dim0 a) (dim0 b) ;;
  d1 <- bcast_dim (dim1 a) (dim1 b) ;;
  d2 <- bcast_dim (dim2 a) (dim2 b) ;;
  Some {| shape3 := (d0, d1, d2);
          get3 := fun i j k =>
            get3 a (bidx (dim0 a) i) (bidx (dim1 a) j) (bidx (dim2 a) k)
            + get3 b (bidx (dim0 b) i) (bidx (dim1 b) j) (bidx (dim2 b) k) |}.

(** [a * s] with a scalar [s]. *)
Definition np_scale2 (a : array2) (s : R) : array2 :=
  {| shape2 := shape2 a; get2 := fun i j => get2 a i j * s |}.

Definition np_scale3 (a : array3) (s : R) : array3 :=
  {| shape3 := shape3 a; get3 := fun i j k => get3 a i j k * s |}.

(** [np.zeros(shape)]; [np.empty(shape)] is given the same contents, every
    entry of it being overwritten before it is read. *)
Definition np_zeros3 (sh : nat * nat * nat) : array3 :=
  {| shape3 := sh; get3 := fun _ _ _ => 0 |}.

(** [a[:, :, k]]. *)
Definition slice3 (a : array3) (k : nat) : option array2 :=
  if Nat.ltb k (dim2 a)
  then Some {| shape2 := fst (shape3 a); get2 := fun i j => get3 a i j k |}
  else None.

(** [a[:, :, k] = v]: [v] must broadcast to the slice's shape. *)
Definition fits (have want : nat) : bool := Nat.eqb have want || Nat.eqb have 1.

Definition set_slice (a : array3) (k : nat) (v : array2) : option array3 :=
  if Nat.ltb k (dim2 a) && fits (fst (shape2 v)) (dim0 a)
     && fits (snd (shape2 v)) (dim1 a)
  then Some {| shape3 := shape3 a;
               get3 := fun i j k' =>
                 if Nat.eqb k' k
                 then get2 v (bidx (fst (shape2 v)) i) (bidx (snd (shape2 v)) j)
                 else get3 a i j k' |}
  else None.

(** The loop [for i, z in enumerate(z_vec): a[:, :, i] = conv(z)]. *)
Definition fill_slices (conv : R -> array2) (a : array3) (zs : list (nat * R))
  : option array3 :=
  fold_left (fun acc iz => a' <- acc ;; set_slice a' (fst iz) (conv (snd iz)))
            zs (Some a).

(** [np.gradient] along one axis of length [n] with spacing [h]: central
    differences inside, one-sided first differences at the two ends. *)
Definition grad_axis (h : R) (n : nat) (f : nat -> R) (i : nat) : R :=
  if Nat.eqb i 0 then (f 1%nat - f 0%nat) / h
  else if Nat.eqb i (n - 1) then (f (n - 1)%nat - f (n - 2)%nat) / h
  else (f (i + 1)%nat - f (i - 1)%nat) / (2 * h).

(** [np.gradient(a, h)] on a 2-D array: the derivative along axis 0 (rows),
    then along axis 1 (columns).  Each axis needs at least two points. *)
Definition np_gradient (a : array2) (h : R) : option (array2 * array2) :=
  if Nat.leb 2 (fst (shape2 a)) && Nat.leb 2 (snd (shape2 a))
  then Some
    ({| shape2 := shape2 a;
        get2 := fun i j => grad_axis h (fst (shape2 a)) (fun i' => get2 a i' j) i |},
     {| shape2 := shape2 a;
        get2 := fun i j => grad_axis h (snd (shape2 a)) (fun j' => get2 a i j') j |})
  else None.

(** [np.linspace(lo, hi, num=n)]. *)
Definition np_linspace (lo hi : R) (n : nat) : list R :=
  map (fun i => lo + INR i * ((hi - lo) / INR (n - 1))) (seq 0 n).

(** * tectonic_stress_2_failure.ipynb *)

Module Failure.

(** One row of [fault_df] restricted to the columns the notebook copies
    ([df_copy_cols]). *)
Record FaultRow := mkFaultRow {
  z : R;
  f_strike : R;
  f_dip : R;
  f_slip_m : R;
  xx_stress : R;
  yy_stress : R;
  xy_stress : R;
  zz_stress : R;
  xz_stress : R;
  yz_stress : R
}.

(** One row of [r_priors_df]: its index label and the columns used. *)
Record PriorRow := mkPriorRow {
  p_index : Z;
  p_txx : R;
  p_tyy : R;
  p_txy : R;
  p_likelihood : R
}.

(** One row of [index_list] / [index_array]. *)
Record IndexRow := mkIndexRow {
  ix_iter : R;
  ix_phi : R;
  ix_txx : R;
  ix_tyy : R;
  ix_txy : R;
  ix_pt : R
}.

(** A row of [search_df] once the fault columns are filled.  The [mu] column
    the notebook declares is never written and is left out. *)
Record SearchRow := mkSearchRow {
  iter : Z;
  txx : R;
  tyy : R;
  txy : R;
  phi : R;
  pt_index : Z;
  depth : R;
  strike : R;
  dip : R;
  slip_m : R;
  mxx : R;
  myy : R;
  mxy : R;
  mzz : R;
  mxz : R;
  myz : R
}.

(** [search_df] after the stress and misfit columns are added. *)
Record ResolvedRow := mkResolvedRow {
  base : SearchRow;
  tau_s : R;
  tau_d : R;
  sig_n_eff : R;
  tau_mag : R;
  weighted_tau_misfit : R
}.

(** Keyword arguments shared by the three resolvers of
    [stress_comps_vectorized]. *)
Record StressArgs := mkStressArgs {
  a_strike : R;
  a_dip : R;
  a_rho : R;
  a_g : R;
  a_mxx : R;
  a_myy : R;
  a_mxy : R;
  a_mzz : R;
  a_mxz : R;
  a_myz : R;
  a_txx : R;
  a_tyy : R;
  a_txy : R;
  a_depth : R
}.

Definition rho : R := 2700.
Definition g : R := 981 / 100.

Definition stress_args (r : SearchRow) : StressArgs :=
  mkStressArgs (strike r) (dip r) rho g (mxx r) (myy r) (mxy r) (mzz r)
    (mxz r) (myz r) (txx r) (tyy r) (txy r) (depth r).

(** [fault_df[df_copy_cols].values]: one list per row, in the order
    z, strike, dip, slip_m, xx, yy, xy, zz, xz, yz. *)
Definition copy_cols (f : FaultRow) : list R :=
  [z f; f_strike f; f_dip f; f_slip_m f; xx_stress f; yy_stress f;
   xy_stress f; zz_stress f; xz_stress f; yz_stress f].

(** One row of the assignment [search_df[df_fill_cols] = df_reps]: the k-th
    value goes to the k-th name of
    depth, strike, dip, slip_m, mxx, myy, mxy, mzz, mxz, myz. *)
Definition fill_row (ix : IndexRow) (v : list R) : SearchRow :=
  {| iter := np_int_ (ix_iter ix);
     txx := ix_txx ix; tyy := ix_tyy ix; txy := ix_txy ix;
     phi := ix_phi ix;
     pt_index := np_int_ (ix_pt ix);
     depth := nth 0 v 0; strike := nth 1 v 0; dip := nth 2 v 0;
     slip_m := nth 3 v 0;
     mxx := nth 4 v 0; myy := nth 5 v 0; mxy := nth 6 v 0;
     mzz := nth 7 v 0; mxz := nth 8 v 0; myz := nth 9 v 0 |}.

(** The assignment needs as many value rows as the frame has rows. *)
Definition fill_cols (ixs : list IndexRow) (reps : list (list R))
  : option (list SearchRow) :=
  if Nat.eqb (length ixs) (length reps)
  then Some (map (fun p => fill_row (fst p) (snd p)) (combine ixs reps))
  else None.

(** [index_array = np.array(index_list)] and the column reads
    [index_array[:, 0]], [index_array[:, 5]], ...: the array of an empty list
    is one-dimensional, and indexing its second axis raises [IndexError].
    This is where the notebook stops when the prior table or the fault model
    has no row. *)
Definition index_array (l : list IndexRow) : option (list IndexRow) :=
  match l with
  | [] => None
  | _ :: _ => Some l
  end.

(** [search_df.depth *= 1000]. *)
Definition depth_to_m (r : SearchRow) : SearchRow :=
  {| iter := iter r; txx := txx r; tyy := tyy r; txy := txy r; phi := phi r;
     pt_index := pt_index r;
     depth := depth r * 1000;
     strike := strike r; dip := dip r; slip_m := slip_m r;
     mxx := mxx r; myy := myy r; mxy := mxy r;
     mzz := mzz r; mxz := mxz r; myz := myz r |}.

(** [search_df[['mxx', 'myy', 'mxy', 'mzz', 'mxz', 'myz']] *= 1e6]. *)
Definition stress_to_Pa (r : SearchRow) : SearchRow :=
  {| iter := iter r; txx := txx r; tyy := tyy r; txy := txy r; phi := phi r;
     pt_index := pt_index r;
     depth := depth r;
     strike := strike r; dip := dip r; slip_m := slip_m r;
     mxx := mxx r * 1000000; myy := myy r * 1000000; mxy := mxy r * 1000000;
     mzz := mzz r * 1000000; mxz := mxz r * 1000000; myz := myz r * 1000000 |}.

(** [search_df.groupby('iter')]: the keys in ascending order, each once,
    and for each key the rows carrying it, in frame order. *)
Definition group_keys (df : list ResolvedRow) : list Z :=
  sorted_unique (map (fun r => iter (base r)) df).

Definition group_rows (df : list ResolvedRow) (k : Z) : list ResolvedRow :=
  filter (fun r => (iter (base r) =? k)%Z) df.

Definition groupby_iter (df : list ResolvedRow) : list (Z * list ResolvedRow) :=
  map (fun k => (k, group_rows df k)) (group_keys df).

(** The columns of a sample-table row that come from the fault model. *)
Definition fault_attributes (r : SearchRow) : list R :=
  [depth r; strike r; dip r; slip_m r;
   mxx r; myy r; mxy r; mzz r; mxz r; myz r].

(** [iters.<col>.mean()]. *)
Definition group_mean (col : ResolvedRow -> R)
  (groups : list (Z * list ResolvedRow)) : Series :=
  map (fun kg => (fst kg, mean (map col (snd kg)))) groups.

(** [r_priors_df.loc[labels, 'likelihood']]: every row carrying each
    requested label; a label carried by no row raises [KeyError]. *)
Definition loc_likelihood (df : list PriorRow) (labels : list Z) : option Series :=
  parts <- mapM (fun k =>
             match filter (fun p => (p_index p =? k)%Z) df with
             | [] => None
             | hit => Some (map (fun p => (k, p_likelihood p)) hit)
             end) labels ;;
  Some (concat parts).

Section Pipeline.

(** The three resolvers of [stress_comps_vectorized], applied row by row. *)
Variable strike_shear : StressArgs -> R.
Variable dip_shear : StressArgs -> R.
Variable eff_normal_stress : StressArgs -> R -> R.

(** The stream drawn by [np.random.random] after [np.random.seed(70)]. *)
Variable random_seed_70 : nat -> R.

Variable fault_df : list FaultRow.
Variable r_priors_df : list PriorRow.

Definition np_random_random (n : nat) : list R := map random_seed_70 (seq 0 n).

Definition n_trials : nat := length r_priors_df.
Definition n_points : nat := length fault_df.

Definition r_priors : list (R * R * R) :=
  map (fun p => (p_txx p, p_tyy p, p_txy p)) r_priors_df.

Definition r_index : list Z := map p_index r_priors_df.

(** [np.random.random(1e4)] draws this many values. *)
Definition n_draws : nat := Z.to_nat 10000.

Definition phi_priors : option (list R) :=
  np_take (np_random_random n_draws) r_index.

Definition iter_range : list R := map np_float_ r_index.
Definition pt_range : list R := np_arange_float n_points.

Definition index_list (phis : list R) : list IndexRow :=
  flat_map (fun ie =>
    let i := fst ie in
    let iter_ind := snd ie in
    map (fun pi =>
           mkIndexRow iter_ind (nth i phis 0)
             (fst (fst (nth i r_priors (0, 0, 0))))
             (snd (fst (nth i r_priors (0, 0, 0))))
             (snd (nth i r_priors (0, 0, 0)))
             pi)
        pt_range)
    (enumerate iter_range).

Definition df_col_array : list (list R) := map copy_cols fault_df.
Definition df_reps : list (list R) := np_tile df_col_array n_trials.

Definition search_df (phis : list R) : option (list SearchRow) :=
  ixs <- index_array (index_list phis) ;;
  filled <- fill_cols ixs df_reps ;;
  Some (map stress_to_Pa (map depth_to_m filled)).

Definition mean_slip : R := mean (map f_slip_m fault_df).

(** The cells that add [tau_s], [tau_d], [sig_n_eff], [tau_mag] and
    [weighted_tau_misfit]. *)
Definition resolve (r : SearchRow) : ResolvedRow :=
  let ts := strike_shear (stress_args r) in
  let td := dip_shear (stress_args r) in
  let sn := eff_normal_stress (stress_args r) (phi r) in
  let tm := sqrt (ts ^ 2 + td ^ 2) in
  mkResolvedRow r ts td sn tm (tm * slip_m r / mean_slip).

Definition mu_iter (df : list ResolvedRow) : Series :=
  series_div (group_mean weighted_tau_misfit (groupby_iter df))
             (group_mean sig_n_eff (groupby_iter df)).

Definition mu_real (df : list ResolvedRow) : Series :=
  series_mask (fun m => Rleb 0 m && Rleb m 1) (mu_iter df).

Definition posterior_columns : list string :=
  ["txx"; "tyy"; "txy"; "mu"; "phi"; "likelihood"]%string.

(** The notebook from [phi_priors] to the frame handed to [to_csv]. *)
Definition fail_posteriors : option DataFrame :=
  phis <- phi_priors ;;
  sdf <- search_df phis ;;
  let df := map resolve sdf in
  let iters := groupby_iter df in
  let kept := s_index (mu_real df) in
  phi_keep <- series_getitem (group_mean (fun r => phi (base r)) iters) kept ;;
  txx_keep <- series_getitem (group_mean (fun r => txx (base r)) iters) kept ;;
  tyy_keep <- series_getitem (group_mean (fun r => tyy (base r)) iters) kept ;;
  txy_keep <- series_getitem (group_mean (fun r => txy (base r)) iters) kept ;;
  likelihood_keep <- loc_likelihood r_priors_df kept ;;
  body <- pd_concat6 txx_keep tyy_keep txy_keep (mu_real df) phi_keep
            likelihood_keep ;;
  Some (mkDataFrame posterior_columns body).

(** ** The tables of the notebook written out, for the proofs *)

(** The row of the sample table for prior row [p] with pore-pressure ratio
    [ph] and the [j]-th fault point [f], written out column by column. *)
Definition table_row (p : PriorRow) (ph : R) (j : nat) (f : FaultRow) : SearchRow :=
  {| iter := p_index p;
     txx := p_txx p; tyy := p_tyy p; txy := p_txy p;
     phi := ph;
     pt_index := Z.of_nat j;
     depth := z f * 1000;
     strike := f_strike f; dip := f_dip f; slip_m := f_slip_m f;
     mxx := xx_stress f * 1000000; myy := yy_stress f * 1000000;
     mxy := xy_stress f * 1000000; mzz := zz_stress f * 1000000;
     mxz := xz_stress f * 1000000; myz := yz_stress f * 1000000 |}.

(** The rows of [index_list] written for one prior row. *)
Definition index_block (pp : PriorRow * R) : list IndexRow :=
  map (fun j =>
         mkIndexRow (np_float_ (p_index (fst pp))) (snd pp) (p_txx (fst pp))
           (p_tyy (fst pp)) (p_txy (fst pp)) (INR j))
      (seq 0 n_points).

(** The [n_points] rows of one iteration. *)
Definition block (pp : PriorRow * R) : list SearchRow :=
  map (fun jf => table_row (fst pp) (snd pp) (fst jf) (snd jf))
      (enumerate fault_df).

(** The friction estimate of the group with key [k]. *)
Definition group_mu (df : list ResolvedRow) (k : Z) : R :=
  mean (map weighted_tau_misfit (group_rows df k))
  / mean (map sig_n_eff (group_rows df k)).

(** The keys that pass the test [0 <= mu <= 1]. *)
Definition kept_keys (df : list ResolvedRow) : list Z :=
  filter (fun k => Rleb 0 (group_mu df k) && Rleb (group_mu df k) 1)
         (group_keys df).

(** The likelihood of the first prior row labelled [k]. *)
Definition likelihood_of (k : Z) : R :=
  match filter (fun p => (p_index p =? k)%Z) r_priors_df with
  | p :: _ => p_likelihood p
  | [] => 0
  end.

(** The table after the resolver cells, block by block. *)
Definition resolved_block (pp : PriorRow * R) : list ResolvedRow :=
  map resolve (block pp).

Definition resolved_table (phis : list R) : list ResolvedRow :=
  flat_map resolved_block (combine r_priors_df phis).

(** ** The friction estimate as the specification words it

    Per iteration: the mean over the fault points of
    [tau_mag * slip / mean(slip)], over the mean over the same points of the
    effective normal stress. *)

Definition spec_tau_mag (p : PriorRow) (ph : R) (f : FaultRow) : R :=
  let a := stress_args (table_row p ph 0 f) in
  sqrt (strike_shear a ^ 2 + dip_shear a ^ 2).

Definition spec_sig_n_eff (p : PriorRow) (ph : R) (f : FaultRow) : R :=
  eff_normal_stress (stress_args (table_row p ph 0 f)) ph.

Definition spec_mu (p : PriorRow) (ph : R) : R :=
  mean (map (fun f => spec_tau_mag p ph f * f_slip_m f
                      / mean (map f_slip_m fault_df)) fault_df)
  / mean (map (spec_sig_n_eff p ph) fault_df).

(** ** Statements compared with the notebook *)

(** The draw that [phi_priors[r_priors_df.index]] selects for label [k]. *)
Definition phi_of_label (k : Z) : R :=
  random_seed_70 (Z.to_nat (if (k <? 0)%Z then k + 10000 else k)%Z).

(** The posterior row of prior row [p], as the specification words it. *)
Definition spec_row (p : PriorRow) : list R :=
  [p_txx p; p_tyy p; p_txy p; spec_mu p (phi_of_label (p_index p));
   phi_of_label (p_index p); p_likelihood p].

(** A fault point with its slip expressed in another unit. *)
Definition scale_slip (c : R) (f : FaultRow) : FaultRow :=
  mkFaultRow (z f) (f_strike f) (f_dip f) (f_slip_m f * c) (xx_stress f)
    (yy_stress f) (xy_stress f) (zz_stress f) (xz_stress f) (yz_stress f).

(** Every row of the ensemble has a negative effective normal stress. *)
Definition all_normal_stress_negative : Prop :=
  forall phis sdf r,
    phi_priors = Some phis -> search_df phis = Some sdf -> In r sdf ->
    sig_n_eff (resolve r) < 0.

(** Every iteration has a fault point with positive slip and non-zero shear. *)
Definition every_iteration_sheared : Prop :=
  forall phis sdf k,
    phi_priors = Some phis -> search_df phis = Some sdf ->
    In k (map iter sdf) ->
    exists r, In r sdf /\ iter r = k /\ 0 < slip_m r /\ 0 < tau_mag (resolve r).

(** The posterior frame is produced and has no row. *)
Definition retains_nothing : Prop :=
  exists out, fail_posteriors = Some out /\ rows out = [].

(** The claim as first worded: the notebook runs through only on prior
    tables whose labels all lie in [0, 10000). *)
Definition runs_only_on_nonnegative_labels : Prop :=
  fail_posteriors <> None ->
  Forall (fun i => (0 <= i < 10000)%Z) r_index.

End Pipeline.

(** ** One posterior entry in binary64

    Everywhere else a float64 is an exact real.  The means of the posterior
    frame are the one place where rounding decides a statement about the
    notebook, and they are modelled here on the primitive binary64 floats. *)

Definition float64 : Set := PrimFloat.float.

Definition float64_of_nat (n : nat) : float64 :=
  PrimFloat.of_uint63 (Uint63.of_Z (Z.of_nat n)).

(** [.mean()] of a group in binary64: the entries added up in row order,
    the sum divided by their number, every operation rounded to nearest. *)
Definition mean64 (l : list float64) : float64 :=
  PrimFloat.div (fold_left PrimFloat.add l (float64_of_nat 0))
                (float64_of_nat (length l)).

(** The txx (tyy, txy, phi) entry of the posterior row of an iteration whose
    prior value is [x]: [index_list] writes [x] into each of the iteration's
    [n_points] rows, and [iters.txx.mean()] averages them. *)
Definition posterior_entry64 (x : float64) (n_points : nat) : float64 :=
  mean64 (repeat x n_points).

(** The claim about the posterior entries as first worded: the entry equals
    the iteration's prior value. *)
Definition entry_is_prior_value (x : float64) (n_points : nat) : Prop :=
  posterior_entry64 x n_points = x.

(** The double nearest to 0.1. *)
Definition tenth64 : float64 :=
  PrimFloat.div (float64_of_nat 1) (float64_of_nat 10).

End Failure.

(** * topographic_stress_field_calcs.ipynb *)

Module StressField.

Inductive component := zz | xy | xz | yz | xx | yy.

Definition comp_list : list component := [zz; xy; xz; yz; xx; yy].

Inductive direction := dir_x | dir_y.

Inductive conv_mode := valid | same.

(** Modelled from the spec: [hbx.size_output] of the halfspace package, which
    is not among the notebooks.  For [valid] the output is input - kernel + 1
    along each axis, for [same] it is the input shape.  The sum is taken
    before the difference, so that the natural-number result is the spec's
    whenever that is not negative (a kernel at most one pixel wider than the
    input); the statements below are about kernels no wider than the
    input. *)
Definition size_output (kernel_shape topo_shape : nat * nat) (mode : conv_mode)
  : nat * nat :=
  match mode with
  | valid => (fst topo_shape + 1 - fst kernel_shape,
              snd topo_shape + 1 - snd kernel_shape)%nat
  | same => topo_shape
  end.

(** Modelled from the spec: [hs._centered] of the halfspace package, which is
    not among the notebooks.  The centre portion of [arr] of shape [newsize]:
    the borders are trimmed equally when the difference is even, and the odd
    row or column is trimmed from the trailing edge. *)
Definition _centered (arr : array2) (newsize : nat * nat) : option array2 :=
  if Nat.leb (fst newsize) (fst (shape2 arr))
     && Nat.leb (snd newsize) (snd (shape2 arr))
  then
    let start0 := ((fst (shape2 arr) - fst newsize) / 2)%nat in
    let start1 := ((snd (shape2 arr) - snd newsize) / 2)%nat in
    Some {| shape2 := newsize;
            get2 := fun i j => get2 arr (i + start0) (j + start1) |}
  else None.

Definition rho : R := 2700.
Definition g : R := 981 / 100.
Definition Fv : R := - rho * g.
Definition z_res : Z := 1000.
Definition b_conv_mode : conv_mode := valid.
Definition c_conv_mode : conv_mode := same.
Definition kernel_rad : R := 150000.

(** Scale factors of the two unit conversions. *)
Definition Pa_to_MPa : R := 1 / 1000000.
Definition MPa_to_Pa : R := 1000000.

Section Notebook.

(** [hs.do_b_convo(component, z, Fv, load, load_mode, conv_mode,
    kernel_radius, kernel_res)] and [hs.do_c_convo(component, f_dir, z, load,
    kernel_res, kernel_radius, conv_mode)]. *)
Variable do_b_convo :
  component -> R -> R -> array2 -> string -> conv_mode -> R -> R -> array2.
Variable do_c_convo :
  component -> direction -> R -> array2 -> R -> R -> conv_mode -> array2.

(** The DEM as loaded and the [x_res_m] entry of its metadata. *)
Variable dem : array2.
Variable x_res_m : R.

(** [int(d_meta['x_res_m'])]: Python's [int] truncates toward zero. *)
Definition study_res : Z := np_int_ x_res_m.

Definition z_min : Z := np_int_ x_res_m.
Definition z_max : Z := (z_min + 26000)%Z.
Definition z_len : nat :=
  Z.to_nat (np_int_ (IZR (z_max - z_min) / IZR z_res + 1)).
Definition z_vec : list R := np_linspace (IZR z_min) (IZR z_max) z_len.

Definition kernel_len : nat :=
  Z.to_nat (np_int_ (kernel_rad * 2 / IZR study_res + 1)).
Definition kernel_shape : nat * nat := (kernel_len, kernel_len).

(** The division in [kernel_len = int(kernel_rad * 2 / study_res + 1)]
    raises [ZeroDivisionError] when [study_res] is 0, that is for a
    resolution below one metre: the run stops in the configuration cell and
    no later cell is reached.  [kernel_len] above is the number the cell
    computes when it does not raise. *)
Definition kernel_len_checked : option nat :=
  if (study_res =? 0)%Z then None else Some kernel_len.

(** [topo *= -1]; the padding cell is switched off ([pad_dem = False]). *)
Definition topo : array2 := np_scale2 dem (-1).
Definition topo_shape : nat * nat := shape2 topo.

Definition b_out : nat * nat := size_output kernel_shape topo_shape b_conv_mode.
Definition b_stress : array3 := np_zeros3 (fst b_out, snd b_out, z_len).

(** The Boussinesq convolution as the notebook calls it at depth [zz]:
    [hs.do_b_convo(component=comp, z=z, Fv=Fv, load=topo, load_mode='topo',
    conv_mode=b_conv_mode, kernel_radius=kernel_rad, kernel_res=study_res)]. *)
Definition b_conv (comp : component) (zz : R) : array2 :=
  do_b_convo comp zz Fv topo "topo" b_conv_mode kernel_rad (IZR study_res).

(** The Cerruti convolution as the notebook calls it at depth [zz]:
    [hs.do_c_convo(component=comp, f_dir=d, z=z, load=load,
    kernel_res=study_res, kernel_radius=kernel_rad, conv_mode=c_conv_mode)]. *)
Definition c_conv (comp : component) (d : direction) (load : array2) (zz : R)
  : array2 :=
  do_c_convo comp d zz load (IZR study_res) kernel_rad c_conv_mode.

(** The array stored as ['b_<comp>_MPa']. *)
Definition b_dataset (comp : component) : option array3 :=
  configured <- kernel_len_checked ;;
  filled <- fill_slices (b_conv comp) b_stress (enumerate z_vec) ;;
  Some (np_scale3 filled Pa_to_MPa).

(** [b_db['b_<comp>_MPa'][:, :, 0] * 1e6]. *)
Definition b_top (comp : component) : option array2 :=
  d <- b_dataset comp ;;
  s <- slice3 d 0 ;;
  Some (np_scale2 s MPa_to_Pa).

(** [topo] after [topo = hs._centered(topo, b_shape)]. *)
Definition topo_c : option array2 :=
  b_xx_top <- b_top xx ;;
  _centered topo (shape2 b_xx_top).

(** [(topo_dy, topo_dx)]. *)
Definition topo_grad : option (array2 * array2) :=
  t <- topo_c ;;
  np_gradient t (IZR study_res).

Definition Fh_x : option array2 :=
  t <- topo_c ;;
  gr <- topo_grad ;;
  b_xx_top <- b_top xx ;;
  b_xy_top <- b_top xy ;;
  let topo_dy := fst gr in
  let topo_dx := snd gr in
  Fht_x <- np_mul2 (np_scale2 t Fv) topo_dx ;;
  l <- np_mul2 b_xx_top topo_dx ;;
  r <- np_mul2 b_xy_top topo_dy ;;
  Fhb_x <- np_add2 l r ;;
  np_add2 Fht_x Fhb_x.

Definition Fh_y : option array2 :=
  t <- topo_c ;;
  gr <- topo_grad ;;
  b_yy_top <- b_top yy ;;
  b_xy_top <- b_top xy ;;
  let topo_dy := fst gr in
  let topo_dx := snd gr in
  Fht_y <- np_mul2 (np_scale2 t Fv) topo_dy ;;
  l <- np_mul2 b_yy_top topo_dy ;;
  r <- np_mul2 b_xy_top topo_dx ;;
  Fhb_y <- np_add2 l r ;;
  np_add2 Fht_y Fhb_y.

(** [c_x] (and its copy [c_y]). *)
Definition c_x : option array3 :=
  t <- topo_c ;;
  Some (np_zeros3 (fst (shape2 t), snd (shape2 t), z_len)).

Definition Fh (d : direction) : option array2 :=
  match d with dir_x => Fh_x | dir_y => Fh_y end.

(** The arrays stored as ['c_<comp>_x_MPa'] and ['c_<comp>_y_MPa']. *)
Definition cerr (d : direction) (comp : component) : option array3 :=
  c <- c_x ;;
  load <- Fh d ;;
  fill_slices (fun z => np_scale2 (c_conv comp d load z) Pa_to_MPa)
    c (enumerate z_vec).

(** The array stored as ['<comp>_MPa']. *)
Definition total (comp : component) : option array3 :=
  b <- b_dataset comp ;;
  cx <- cerr dir_x comp ;;
  cy <- cerr dir_y comp ;;
  s <- np_add3 b cx ;;
  np_add3 s cy.

(** ** Names used when the notebook is compared with its description *)

(** The crop offsets of [_centered]. *)
Definition crop0 : nat := ((fst (shape2 dem) - fst b_out) / 2)%nat.
Definition crop1 : nat := ((snd (shape2 dem) - snd b_out) / 2)%nat.

(** The claim about the slopes as first worded: at every point of the
    cropped grid, its border rows and columns included, both slopes are the
    centred difference of the topography, the difference of the two
    neighbours along the axis over twice the grid resolution.  Point (i, j)
    of the cropped grid is point (i + crop0, j + crop1) of the DEM, whose
    neighbours are read from the DEM. *)
Definition slopes_centered_everywhere : Prop :=
  forall dy dx, topo_grad = Some (dy, dx) ->
    forall i j, (i < fst b_out)%nat -> (j < snd b_out)%nat ->
      get2 dx i j
      = (get2 topo (i + crop0) (j + crop1 + 1)
         - get2 topo (i + crop0) (j + crop1 - 1)) / (2 * IZR study_res) /\
      get2 dy i j
      = (get2 topo (i + crop0 + 1) (j + crop1)
         - get2 topo (i + crop0 - 1) (j + crop1)) / (2 * IZR study_res).

End Notebook.

End StressField.

(** * Concrete tables and grids *)

Module FailureData.

Import Failure.

(** Two fault points, two prior rows, constant resolvers. *)
Definition fault2 : list FaultRow :=
  [mkFaultRow 5 30 45 2 1 2 3 4 5 6; mkFaultRow 10 30 45 4 6 5 4 3 2 1].

Definition priors2 : list PriorRow :=
  [mkPriorRow 3 10 20 5 (1 / 2); mkPriorRow 7 (-10) 4 1 (1 / 4)].

Definition shear3 (a : StressArgs) : R := 3.
Definition shear4 (a : StressArgs) : R := 4.
Definition normal10 (a : StressArgs) (ph : R) : R := 10.
Definition normal_neg (a : StressArgs) (ph : R) : R := -1.
Definition no_shear (a : StressArgs) : R := 0.
Definition draws (n : nat) : R := INR n / 10000.

(** One fault point with unit slip and one prior row. *)
Definition fault1 : list FaultRow := [mkFaultRow 5 0 0 1 0 0 0 0 0 0].
Definition priors1 : list PriorRow := [mkPriorRow 0 0 0 0 1].

(** A prior table whose only label is negative. *)
Definition priors_neg : list PriorRow := [mkPriorRow (-1) 0 0 0 1].

End FailureData.

Module StressData.

Import StressField.

(** A 3 x 3 DEM at 300 km resolution: the kernel is 2 pixels wide and the
    Boussinesq output is 2 x 2. *)
Definition dem3 : array2 :=
  {| shape2 := (3, 3)%nat; get2 := fun i j => INR (i + j * j) |}.

Definition res3 : R := 300000.

(** A stand-in for [hs.do_b_convo] with the [valid] output shape of a
    2-pixel kernel, and one for [hs.do_c_convo] that returns its load. *)
Definition flat_b (comp : component) (zz fv : R) (load : array2) (lm : string)
  (mode : conv_mode) (rad res : R) : array2 :=
  {| shape2 := size_output (2, 2)%nat (shape2 load) mode;
     get2 := fun _ _ => zz |}.

Definition same_c (comp : component) (d : direction) (zz : R) (load : array2)
  (res rad : R) (mode : conv_mode) : array2 := load.

(** A 5 x 5 DEM with curvature at 150 km resolution: the kernel is 3 pixels
    wide, the Boussinesq output is 3 x 3 and the crop removes one row and
    one column on each side, so that every point of the cropped grid has
    both neighbours in the DEM. *)
Definition dem5 : array2 :=
  {| shape2 := (5, 5)%nat; get2 := fun i j => INR (i + j * j) |}.

Definition res5 : R := 150000.

(** A stand-in for [hs.do_b_convo] with the [valid] output shape of a
    3-pixel kernel. *)
Definition flat_b3 (comp : component) (zz fv : R) (load : array2) (lm : string)
  (mode : conv_mode) (rad res : R) : array2 :=
  {| shape2 := size_output (3, 3)%nat (shape2 load) mode;
     get2 := fun _ _ => zz |}.

End StressData.

(** Further tables and grids on which the statements of the last part are
    run. *)
Module MoreFailureData.

Import Failure.

(** The rows of [FailureData.priors2] in the other order, and its first row
    alone. *)
Definition priors2_swapped : list PriorRow :=
  [mkPriorRow 7 (-10) 4 1 (1 / 4); mkPriorRow 3 10 20 5 (1 / 2)].

Definition priors_head : list PriorRow := [mkPriorRow 3 10 20 5 (1 / 2)].

End MoreFailureData.

Module MoreStressData.

Import StressField.

(** A tilted plane, a level surface, and a DEM as wide as the 2-pixel
    kernel of a 300 km grid. *)
Definition plane3 : array2 :=
  {| shape2 := (3, 3)%nat; get2 := fun i j => 1 + 2 * INR i + 3 * INR j |}.

Definition level3 : array2 :=
  {| shape2 := (3, 3)%nat; get2 := fun _ _ => 5 |}.

Definition dem2 : array2 :=
  {| shape2 := (2, 2)%nat; get2 := fun i j => INR (i + j) |}.

(** A stand-in for [hs.do_b_convo] whose output is 5 x 5 whatever the
    load. *)
Definition wide_b (comp : component) (zz fv : R) (load : array2) (lm : string)
  (mode : conv_mode) (rad res : R) : array2 :=
  {| shape2 := (5, 5)%nat; get2 := fun _ _ => zz |}.

End MoreStressData.

(** * Facts about the library model *)

Section LibraryFacts.

Lemma bind_Some {A B : Type} (m : option A) (k : A -> option B) (b : B) :
  bind m k = Some b <-> exists a, m = Some a /\ k a = Some b.
Proof.
  destruct m as [a|]; simpl; split.
  - intros H. exists a. split; [reflexivity | exact H].
  - intros [a' [Ha Hk]]. inversion Ha. subst. exact Hk.
  - discriminate.
  - intros [a' [Ha _]]. discriminate.
Qed.

Lemma mapM_total {A B : Type} (f : A -> option B) (h : A -> B) (l : list A) :
  (forall a, In a l -> f a = Some (h a)) -> mapM f l = Some (map h l).
Proof.
  induction l as [|a t IH]; intros Hf; simpl.
  - reflexivity.
  - rewrite (Hf a (or_introl eq_refl)). simpl.
    rewrite IH by (intros a' Ha'; apply Hf; right; exact Ha').
    reflexivity.
Qed.

Lemma mapM_None {A B : Type} (f : A -> option B) (l : list A) (a : A) :
  In a l -> f a = None -> mapM f l = None.
Proof.
  induction l as [|h t IH]; intros Hin Hf; simpl.
  - contradiction.
  - destruct Hin as [-> | Hin].
    + rewrite Hf. reflexivity.
    + destruct (f h); simpl; [| reflexivity].
      rewrite (IH Hin Hf). reflexivity.
Qed.

Lemma mapM_Some_inv {A B : Type} (f : A -> option B) (l : list A) (r : list B) :
  mapM f l = Some r -> forall a, In a l -> exists b, f a = Some b.
Proof.
  intros Hm a Hin.
  destruct (f a) as [b|] eqn:E.
  - exists b. reflexivity.
  - rewrite (mapM_None f l a Hin E) in Hm. discriminate.
Qed.

Lemma np_int_IZR (k : Z) : np_int_ (IZR k) = k.
Proof.
  unfold np_int_.
  destruct (Rle_dec 0 (IZR k)) as [_ | _].
  - symmetry. apply Int_part_spec. lra.
  - rewrite <- opp_IZR.
    rewrite <- (Int_part_spec (IZR (- k)) (- k)%Z) by lra.
    lia.
Qed.

Lemma np_int_INR (n : nat) : np_int_ (INR n) = Z.of_nat n.
Proof. rewrite INR_IZR_INZ. apply np_int_IZR. Qed.

Lemma np_index_Some (n : nat) (i : Z) :
  (- Z.of_nat n <= i < Z.of_nat n)%Z -> exists p, np_index n i = Some p /\ (p < n)%nat.
Proof.
  intros Hr. unfold np_index.
  destruct (Z.leb_spec 0 i); destruct (Z.ltb_spec i (Z.of_nat n));
    destruct (Z.leb_spec (- Z.of_nat n) i); destruct (Z.ltb_spec i 0);
    simpl; try lia; eexists; (split; [reflexivity | lia]).
Qed.

Lemma np_index_None (n : nat) (i : Z) :
  ~ (- Z.of_nat n <= i < Z.of_nat n)%Z -> np_index n i = None.
Proof.
  intros Hr. unfold np_index.
  destruct (Z.leb_spec 0 i); destruct (Z.ltb_spec i (Z.of_nat n));
    destruct (Z.leb_spec (- Z.of_nat n) i); destruct (Z.ltb_spec i 0);
    simpl; try reflexivity; lia.
Qed.

Lemma np_index_nonneg (n : nat) (i : Z) :
  (0 <= i < Z.of_nat n)%Z -> np_index n i = Some (Z.to_nat i).
Proof.
  intros Hr. unfold np_index.
  replace ((0 <=? i) && (i <? Z.of_nat n))%Z with true; [reflexivity |].
  symmetry. apply andb_true_iff. split; [apply Z.leb_le | apply Z.ltb_lt]; lia.
Qed.

Lemma np_index_negative (n : nat) (i : Z) :
  (- Z.of_nat n <= i < 0)%Z -> np_index n i = Some (Z.to_nat (i + Z.of_nat n)).
Proof.
  intros Hr. unfold np_index.
  replace ((0 <=? i) && (i <? Z.of_nat n))%Z with false.
  - replace ((- Z.of_nat n <=? i) && (i <? 0))%Z with true; [reflexivity |].
    symmetry. apply andb_true_iff. split; [apply Z.leb_le | apply Z.ltb_lt]; lia.
  - symmetry. apply andb_false_iff. left. apply Z.leb_gt. lia.
Qed.

Lemma np_take_defined {A : Type} (a : list A) (idx : list Z) :
  Forall (fun i => (- Z.of_nat (length a) <= i < Z.of_nat (length a))%Z) idx ->
  exists r, np_take a idx = Some r /\ length r = length idx.
Proof.
  unfold np_take. induction idx as [|i t IH]; intros HF; simpl.
  - exists []. split; reflexivity.
  - inversion HF as [|? ? Hi Ht]; subst.
    destruct (np_index_Some _ _ Hi) as [p [Hp Hlt]].
    rewrite Hp. simpl.
    destruct (nth_error a p) as [v|] eqn:En.
    + simpl. destruct (IH Ht) as [r [Hr Hl]]. rewrite Hr. simpl.
      exists (v :: r). split; [reflexivity | simpl; rewrite Hl; reflexivity].
    + apply nth_error_None in En. lia.
Qed.

Lemma np_take_raises {A : Type} (a : list A) (idx : list Z) (i : Z) :
  In i idx ->
  ~ (- Z.of_nat (length a) <= i < Z.of_nat (length a))%Z ->
  np_take a idx = None.
Proof.
  intros Hin Hout. unfold np_take.
  apply (mapM_None _ idx i Hin).
  rewrite (np_index_None _ _ Hout). reflexivity.
Qed.

End LibraryFacts.

(** * Facts about the sample table of the failure notebook *)

Section ListFacts.

Context {A B C : Type}.

Lemma in_enumerate_from (l : list A) (s i : nat) (x : A) :
  In (i, x) (combine (seq s (length l)) l) ->
  (s <= i)%nat /\ nth_error l (i - s) = Some x.
Proof.
  revert s. induction l as [|a t IH]; intros s Hin; simpl in Hin.
  - contradiction.
  - destruct Hin as [Heq | Hin].
    + inversion Heq; subst. split; [lia |].
      replace (i - i)%nat with 0%nat by lia. reflexivity.
    + destruct (IH (S s) Hin) as [Hle Hn]. split; [lia |].
      replace (i - s)%nat with (S (i - S s)) by lia. exact Hn.
Qed.

Lemma in_enumerate (l : list A) (ie : nat * A) :
  In ie (enumerate l) -> nth_error l (fst ie) = Some (snd ie).
Proof.
  destruct ie as [i x]. unfold enumerate. intros Hin.
  destruct (in_enumerate_from l 0 i x Hin) as [_ Hn].
  rewrite Nat.sub_0_r in Hn. exact Hn.
Qed.

Lemma map_fst_combine_seq (l : list A) (s : nat) :
  map fst (combine (seq s (length l)) l) = seq s (length l).
Proof.
  revert s. induction l as [|a t IH]; intros s; simpl.
  - reflexivity.
  - rewrite IH. reflexivity.
Qed.

Lemma map_snd_enumerate (l : list A) : map snd (enumerate l) = l.
Proof.
  unfold enumerate. generalize 0%nat.
  induction l as [|a t IH]; intros s; simpl.
  - reflexivity.
  - rewrite IH. reflexivity.
Qed.

Lemma enumerate_length (l : list A) : length (enumerate l) = length l.
Proof.
  unfold enumerate. rewrite length_combine, length_seq. apply Nat.min_id.
Qed.

Lemma combine_by_position (l1 : list A) (l2 : list B) (d1 : A) (d2 : B) :
  length l1 = length l2 ->
  combine l1 l2 = map (fun i => (nth i l1 d1, nth i l2 d2)) (seq 0 (length l1)).
Proof.
  intros Hlen.
  apply (nth_ext _ _ (d1, d2) (nth 0 l1 d1, nth 0 l2 d2)).
  - rewrite length_combine, length_map, length_seq. lia.
  - intros n Hn. rewrite length_combine in Hn.
    rewrite combine_nth by exact Hlen.
    rewrite (map_nth (fun i => (nth i l1 d1, nth i l2 d2)) (seq 0 (length l1)) 0%nat n).
    rewrite seq_nth by lia. reflexivity.
Qed.

Lemma combine_app_same (l1 l2 : list A) (r1 r2 : list B) :
  length l1 = length r1 ->
  combine (l1 ++ l2) (r1 ++ r2) = combine l1 r1 ++ combine l2 r2.
Proof.
  revert r1. induction l1 as [|a t IH]; intros [|b r1] Hlen; simpl in *;
    try discriminate.
  - reflexivity.
  - rewrite IH by lia. reflexivity.
Qed.

Lemma flat_map_of_map (f : B -> list C) (h : A -> B) (l : list A) :
  flat_map f (map h l) = flat_map (fun a => f (h a)) l.
Proof.
  induction l as [|a t IH]; simpl; [reflexivity | rewrite IH; reflexivity].
Qed.

Lemma map_of_flat_map (f : A -> list B) (h : B -> C) (l : list A) :
  map h (flat_map f l) = flat_map (fun a => map h (f a)) l.
Proof.
  induction l as [|a t IH]; simpl; [reflexivity |].
  rewrite map_app, IH. reflexivity.
Qed.

Lemma filter_of_flat_map (f : A -> list B) (t : B -> bool) (l : list A) :
  filter t (flat_map f l) = flat_map (fun a => filter t (f a)) l.
Proof.
  induction l as [|a r IH]; simpl; [reflexivity |].
  rewrite filter_app, IH. reflexivity.
Qed.

Lemma flat_map_ext_in' (f h : A -> list B) (l : list A) :
  (forall a, In a l -> f a = h a) -> flat_map f l = flat_map h l.
Proof.
  induction l as [|a t IH]; intros Hf; simpl; [reflexivity |].
  rewrite (Hf a) by (left; reflexivity).
  rewrite IH by (intros a' Ha'; apply Hf; right; exact Ha').
  reflexivity.
Qed.

Lemma flat_map_singleton (l : list A) : flat_map (fun a => [a]) l = l.
Proof.
  induction l as [|a t IH]; simpl; [reflexivity | rewrite IH; reflexivity].
Qed.

Lemma concat_map_singleton (h : A -> B) (l : list A) :
  concat (map (fun a => [h a]) l) = map h l.
Proof.
  induction l as [|a t IH]; simpl; [reflexivity | rewrite IH; reflexivity].
Qed.

Lemma flat_map_constant_length (f : A -> list B) (n : nat) (l : list A) :
  (forall a, In a l -> length (f a) = n) ->
  length (flat_map f l) = (length l * n)%nat.
Proof.
  induction l as [|a t IH]; intros Hf; simpl; [reflexivity |].
  rewrite length_app, (Hf a) by (left; reflexivity).
  rewrite IH by (intros a' Ha'; apply Hf; right; exact Ha').
  reflexivity.
Qed.

(** Row [r] of a table made of blocks of [n] rows sits in block [r / n] at
    offset [r mod n]. *)
Lemma nth_error_blocks (f : A -> list B) (n : nat) (l : list A) (r : nat) :
  (0 < n)%nat ->
  (forall a, In a l -> length (f a) = n) ->
  nth_error (flat_map f l) r =
  match nth_error l (r / n) with
  | Some a => nth_error (f a) (r mod n)
  | None => None
  end.
Proof.
  intros Hn. revert r. induction l as [|a t IH]; intros r Hf; simpl.
  - destruct r; destruct (_ / n)%nat; reflexivity.
  - assert (Ha : length (f a) = n) by (apply Hf; left; reflexivity).
    destruct (Nat.lt_ge_cases r n) as [Hlt | Hge].
    + rewrite nth_error_app1 by lia.
      rewrite Nat.div_small, Nat.mod_small by exact Hlt. reflexivity.
    + rewrite nth_error_app2 by lia. rewrite Ha.
      rewrite IH by (intros a' Ha'; apply Hf; right; exact Ha').
      assert (Hd : (r / n = S ((r - n) / n))%nat).
      { replace r with ((r - n) + 1 * n)%nat at 1 by lia.
        rewrite Nat.div_add by lia. lia. }
      assert (Hm : (r mod n = (r - n) mod n)%nat).
      { replace r with ((r - n) + 1 * n)%nat at 1 by lia.
        rewrite Nat.Div0.mod_add. reflexivity. }
      rewrite Hd, Hm. reflexivity.
Qed.

End ListFacts.

Section TableFacts.

Import Failure.

Variable fault_df : list FaultRow.
Variable r_priors_df : list PriorRow.

Lemma combine_of_maps {A B A' B' : Type} (f : A -> A') (h : B -> B')
  (a : list A) (b : list B) :
  combine (map f a) (map h b) = map (fun p => (f (fst p), h (snd p))) (combine a b).
Proof.
  revert b. induction a as [|x a IH]; intros [|y b]; simpl;
    try reflexivity.
  rewrite IH. reflexivity.
Qed.

Lemma np_tile_length {A : Type} (a : list A) (n : nat) :
  length (np_tile a n) = (n * length a)%nat.
Proof.
  unfold np_tile. induction n as [|n IH]; simpl; [reflexivity |].
  rewrite length_app, IH. reflexivity.
Qed.

Lemma combine_blocks_tile {A B C : Type} (mk : A -> list B) (cols : list C)
  (L : list A) :
  (forall a, length (mk a) = length cols) ->
  combine (flat_map mk L) (np_tile cols (length L))
  = flat_map (fun a => combine (mk a) cols) L.
Proof.
  intros Hlen. unfold np_tile.
  induction L as [|a t IH]; simpl; [reflexivity |].
  rewrite combine_app_same by apply Hlen.
  rewrite IH. reflexivity.
Qed.

Lemma index_list_blocks (phis : list R) :
  length phis = length r_priors_df ->
  index_list fault_df r_priors_df phis
  = flat_map (index_block fault_df) (combine r_priors_df phis).
Proof.
  intros Hlen.
  set (dp := mkPriorRow 0 0 0 0 0).
  set (K := fun i : nat => index_block fault_df (nth i r_priors_df dp, nth i phis 0)).
  unfold index_list.
  rewrite (flat_map_ext_in' _ (fun ie => K (fst ie))).
  - rewrite <- (flat_map_of_map K fst).
    unfold enumerate. rewrite map_fst_combine_seq.
    rewrite (combine_by_position r_priors_df phis dp 0) by (symmetry; exact Hlen).
    rewrite flat_map_of_map.
    unfold iter_range, r_index. rewrite !length_map. reflexivity.
  - intros [i x] Hin. simpl.
    apply in_enumerate in Hin. simpl in Hin.
    unfold iter_range, r_index in Hin. rewrite map_map in Hin.
    rewrite nth_error_map in Hin.
    destruct (nth_error r_priors_df i) as [p|] eqn:Hp; [| discriminate].
    simpl in Hin. injection Hin as Hx.
    unfold K, index_block, pt_range, np_arange_float. simpl.
    rewrite map_map.
    assert (Hnth : nth i r_priors_df dp = p) by (apply nth_error_nth; exact Hp).
    assert (Hpri : nth i (r_priors r_priors_df) (0, 0, 0)
                   = (p_txx p, p_tyy p, p_txy p)).
    { apply nth_error_nth. unfold r_priors.
      rewrite nth_error_map, Hp. reflexivity. }
    rewrite Hpri, Hnth, <- Hx. reflexivity.
Qed.

Lemma block_length (pp : PriorRow * R) :
  length (block fault_df pp) = n_points fault_df.
Proof. unfold block. rewrite length_map. apply enumerate_length. Qed.

Lemma table_row_built (p : PriorRow) (ph : R) (j : nat) (f : FaultRow) :
  stress_to_Pa (depth_to_m
    (fill_row (mkIndexRow (np_float_ (p_index p)) ph (p_txx p) (p_tyy p)
                 (p_txy p) (INR j)) (copy_cols f)))
  = table_row p ph j f.
Proof.
  unfold stress_to_Pa, depth_to_m, fill_row, table_row, np_float_. simpl.
  rewrite np_int_IZR, np_int_INR. reflexivity.
Qed.

Lemma index_array_Some (l : list IndexRow) :
  l <> [] -> index_array l = Some l.
Proof. destruct l; [contradiction | reflexivity]. Qed.

Lemma index_list_nonempty (phis : list R) :
  fault_df <> [] -> r_priors_df <> [] ->
  length phis = length r_priors_df ->
  index_list fault_df r_priors_df phis <> [].
Proof.
  intros Hf Hp Hlen. rewrite (index_list_blocks phis Hlen).
  destruct r_priors_df as [|p t]; [contradiction |].
  destruct phis as [|ph phs]; [discriminate |].
  destruct fault_df as [|f fs]; [contradiction |].
  simpl. unfold index_block. simpl. discriminate.
Qed.

(** With an empty prior table or an empty fault model the notebook stops at
    [index_array[:, 0]]. *)
Lemma search_df_empty (phis : list R) :
  fault_df = [] \/ r_priors_df = [] ->
  search_df fault_df r_priors_df phis = None.
Proof.
  intros H. unfold search_df.
  assert (E : index_list fault_df r_priors_df phis = []).
  { unfold index_list. destruct H as [-> | ->].
    - unfold pt_range, np_arange_float, n_points. simpl.
      induction (enumerate (iter_range r_priors_df)) as [|a t IH];
        [reflexivity | exact IH].
    - reflexivity. }
  rewrite E. reflexivity.
Qed.

(** The sample table is the concatenation of one block per prior row. *)
Lemma search_df_blocks (phis : list R) :
  fault_df <> [] -> r_priors_df <> [] ->
  length phis = length r_priors_df ->
  search_df fault_df r_priors_df phis
  = Some (flat_map (block fault_df) (combine r_priors_df phis)).
Proof.
  intros Hfne Hpne Hlen. unfold search_df.
  rewrite (index_array_Some _ (index_list_nonempty phis Hfne Hpne Hlen)).
  simpl bind. unfold fill_cols, df_reps, df_col_array.
  rewrite (index_list_blocks phis Hlen).
  assert (HL : length (combine r_priors_df phis) = n_trials r_priors_df).
  { rewrite length_combine, Hlen. apply Nat.min_id. }
  assert (Hib : forall a, length (index_block fault_df a) = length (map copy_cols fault_df)).
  { intros a. unfold index_block. rewrite !length_map, length_seq. reflexivity. }
  rewrite (flat_map_constant_length (index_block fault_df) (n_points fault_df)).
  2:{ intros a _. rewrite Hib, length_map. reflexivity. }
  rewrite np_tile_length, length_map, HL.
  fold (n_points fault_df). rewrite Nat.eqb_refl. simpl.
  rewrite <- HL at 1.
  rewrite (combine_blocks_tile (index_block fault_df) (map copy_cols fault_df) _ Hib).
  rewrite !map_of_flat_map.
  f_equal. apply flat_map_ext. intros [p ph].
  unfold index_block, block, enumerate. simpl.
  rewrite combine_of_maps, !map_map.
  apply map_ext. intros [j f]. simpl. apply table_row_built.
Qed.

End TableFacts.

(** * Facts about grouping and Series *)

Section GroupFacts.

Lemma insert_key_In (k x : Z) (l : list Z) :
  In x (insert_key k l) <-> x = k \/ In x l.
Proof.
  induction l as [|h t IH]; simpl.
  - intuition.
  - destruct (Z.ltb_spec k h).
    + simpl. intuition.
    + destruct (Z.eqb_spec k h).
      * subst. simpl. intuition.
      * simpl. rewrite IH. intuition.
Qed.

Lemma sorted_unique_In (x : Z) (l : list Z) :
  In x (sorted_unique l) <-> In x l.
Proof.
  unfold sorted_unique. induction l as [|h t IH]; simpl.
  - reflexivity.
  - rewrite insert_key_In, IH. intuition.
Qed.

Lemma insert_key_ascending (k : Z) (l : list Z) :
  ascending l -> ascending (insert_key k l).
Proof.
  induction l as [|h t IH]; simpl; intros Hs.
  - split; [intros x [] | exact I].
  - destruct Hs as [Hh Ht].
    destruct (Z.ltb_spec k h).
    + simpl. split; [| split; assumption].
      intros x [<- | Hx]; [lia |]. specialize (Hh x Hx). lia.
    + destruct (Z.eqb_spec k h).
      * simpl. split; assumption.
      * simpl. split; [| apply IH; exact Ht].
        intros x Hx. apply insert_key_In in Hx.
        destruct Hx as [-> | Hx]; [lia | apply Hh; exact Hx].
Qed.

Lemma sorted_unique_ascending (l : list Z) : ascending (sorted_unique l).
Proof.
  unfold sorted_unique. induction l as [|h t IH]; simpl.
  - exact I.
  - apply insert_key_ascending. exact IH.
Qed.

Lemma ascending_NoDup (l : list Z) : ascending l -> NoDup l.
Proof.
  induction l as [|h t IH]; simpl; intros Hs.
  - constructor.
  - destruct Hs as [Hh Ht]. constructor; [| apply IH; exact Ht].
    intros Hin. specialize (Hh h Hin). lia.
Qed.

Lemma sorted_unique_NoDup (l : list Z) : NoDup (sorted_unique l).
Proof. apply ascending_NoDup, sorted_unique_ascending. Qed.

Lemma filter_keeps_all {A : Type} (t : A -> bool) (l : list A) :
  (forall a, In a l -> t a = true) -> filter t l = l.
Proof.
  induction l as [|a r IH]; intros Ht; simpl; [reflexivity |].
  rewrite (Ht a) by (left; reflexivity).
  rewrite IH by (intros a' Ha'; apply Ht; right; exact Ha').
  reflexivity.
Qed.

Lemma filter_keeps_none {A : Type} (t : A -> bool) (l : list A) :
  (forall a, In a l -> t a = false) -> filter t l = [].
Proof.
  induction l as [|a r IH]; intros Ht; simpl; [reflexivity |].
  rewrite (Ht a) by (left; reflexivity).
  apply IH. intros a' Ha'. apply Ht. right. exact Ha'.
Qed.

(** In a table made of blocks whose rows all carry their block's key, and
    whose block keys are pairwise distinct, selecting on one block's key
    returns exactly that block. *)
Lemma filter_one_block {A B : Type} (key : A -> Z) (f : A -> list B)
  (kb : B -> Z) (L : list A) (a : A) :
  (forall a' b, In b (f a') -> kb b = key a') ->
  NoDup (map key L) ->
  In a L ->
  filter (fun b => (kb b =? key a)%Z) (flat_map f L) = f a.
Proof.
  intros Hkey. induction L as [|h t IH]; intros Hnd Hin; simpl.
  - contradiction.
  - simpl in Hnd. inversion Hnd as [|? ? Hnot Hnd']; subst.
    rewrite filter_app.
    destruct Hin as [-> | Hin].
    + rewrite filter_keeps_all.
      2:{ intros b Hb. rewrite (Hkey a b Hb). apply Z.eqb_refl. }
      rewrite filter_of_flat_map.
      rewrite (flat_map_ext_in' _ (fun _ => [])).
      * assert (Hnil : flat_map (fun _ : A => @nil B) t = []).
        { clear. induction t as [|? ? IHt]; simpl; [reflexivity | exact IHt]. }
        rewrite Hnil. apply app_nil_r.
      * intros a' Ha'. apply filter_keeps_none. intros b Hb.
        rewrite (Hkey a' b Hb). apply Z.eqb_neq. intros Heq.
        apply Hnot. rewrite <- Heq. apply in_map. exact Ha'.
    + rewrite filter_keeps_none.
      * simpl. apply IH; assumption.
      * intros b Hb. rewrite (Hkey h b Hb). apply Z.eqb_neq. intros Heq.
        apply Hnot. rewrite Heq. apply in_map. exact Hin.
Qed.

Lemma series_lookup_keyed (F : Z -> R) (keys : list Z) (k : Z) :
  In k keys -> series_lookup (map (fun k' => (k', F k')) keys) k = Some (F k).
Proof.
  induction keys as [|h t IH]; intros Hin; simpl.
  - contradiction.
  - destruct (Z.eqb_spec k h) as [-> | Hne]; [reflexivity |].
    destruct Hin as [-> | Hin]; [contradiction | apply IH; exact Hin].
Qed.

Lemma series_getitem_keyed (F : Z -> R) (keys labels : list Z) :
  incl labels keys ->
  series_getitem (map (fun k' => (k', F k')) keys) labels
  = Some (map (fun k' => (k', F k')) labels).
Proof.
  intros Hincl. unfold series_getitem.
  apply mapM_total. intros k Hk.
  rewrite series_lookup_keyed by (apply Hincl; exact Hk). reflexivity.
Qed.

Lemma series_mask_keyed (F : Z -> R) (t : R -> bool) (keys : list Z) :
  series_mask t (map (fun k' => (k', F k')) keys)
  = map (fun k' => (k', F k')) (filter (fun k' => t (F k')) keys).
Proof.
  unfold series_mask. induction keys as [|h r IH]; simpl; [reflexivity |].
  destruct (t (F h)); simpl; rewrite IH; reflexivity.
Qed.

Lemma s_index_keyed (F : Z -> R) (keys : list Z) :
  s_index (map (fun k' => (k', F k')) keys) = keys.
Proof.
  unfold s_index. rewrite map_map. simpl. apply map_id.
Qed.

Lemma Rleb_true (x y : R) : Rleb x y = true <-> x <= y.
Proof.
  unfold Rleb. destruct (Rle_dec x y); split; intros; try assumption;
    try reflexivity; try discriminate; contradiction.
Qed.

Lemma in_unit_interval (m : R) : Rleb 0 m && Rleb m 1 = true <-> 0 <= m <= 1.
Proof. rewrite andb_true_iff, !Rleb_true. reflexivity. Qed.

Lemma mean_constant (c : R) (l : list R) :
  l <> [] -> (forall x, In x l -> x = c) -> mean l = c.
Proof.
  intros Hne Hall. unfold mean.
  assert (Hs : Rsum l = INR (length l) * c).
  { clear Hne. induction l as [|a t IH].
    - simpl. lra.
    - change (Rsum (a :: t)) with (a + Rsum t).
      rewrite IH by (intros x Hx; apply Hall; right; exact Hx).
      replace (INR (length (a :: t))) with (INR (length t) + 1)
        by (symmetry; apply S_INR).
      rewrite (Hall a (or_introl eq_refl)).
      lra. }
  rewrite Hs.
  assert (Hpos : 0 < INR (length l)).
  { apply lt_0_INR. destruct l; [contradiction | simpl; lia]. }
  field. lra.
Qed.

End GroupFacts.

(** * Facts about the failure filter *)

Section FilterFacts.

Import Failure.

Variable strike_shear : StressArgs -> R.
Variable dip_shear : StressArgs -> R.
Variable eff_normal_stress : StressArgs -> R -> R.
Variable random_seed_70 : nat -> R.
Variable fault_df : list FaultRow.
Variable r_priors_df : list PriorRow.

Local Notation resolve' := (resolve strike_shear dip_shear eff_normal_stress fault_df).
Local Notation spec_mu' := (spec_mu strike_shear dip_shear eff_normal_stress fault_df).
Local Notation phi_priors' := (phi_priors random_seed_70 r_priors_df).
Local Notation search_df' := (search_df fault_df r_priors_df).
Local Notation fail_posteriors' :=
  (fail_posteriors strike_shear dip_shear eff_normal_stress random_seed_70
     fault_df r_priors_df).
Local Notation resolved_table' :=
  (resolved_table strike_shear dip_shear eff_normal_stress fault_df r_priors_df).
Local Notation resolved_block' :=
  (resolved_block strike_shear dip_shear eff_normal_stress fault_df).
Local Notation likelihood_of' := (likelihood_of r_priors_df).

Lemma group_mean_keyed (col : ResolvedRow -> R) (df : list ResolvedRow) :
  group_mean col (groupby_iter df)
  = map (fun k => (k, mean (map col (group_rows df k)))) (group_keys df).
Proof. unfold group_mean, groupby_iter. rewrite map_map. reflexivity. Qed.

Lemma series_div_keyed (F G : Z -> R) (keys : list Z) :
  series_div (map (fun k => (k, F k)) keys) (map (fun k => (k, G k)) keys)
  = map (fun k => (k, F k / G k)) keys.
Proof.
  unfold series_div. induction keys as [|h t IH]; simpl; [reflexivity |].
  rewrite IH. reflexivity.
Qed.

Lemma mu_iter_keyed (df : list ResolvedRow) :
  mu_iter df = map (fun k => (k, group_mu df k)) (group_keys df).
Proof.
  unfold mu_iter. rewrite !group_mean_keyed.
  rewrite (series_div_keyed
             (fun k => mean (map weighted_tau_misfit (group_rows df k)))
             (fun k => mean (map sig_n_eff (group_rows df k)))).
  reflexivity.
Qed.

Lemma mu_real_keyed (df : list ResolvedRow) :
  mu_real df = map (fun k => (k, group_mu df k)) (kept_keys df).
Proof.
  unfold mu_real. rewrite mu_iter_keyed.
  apply (series_mask_keyed (group_mu df) (fun m => Rleb 0 m && Rleb m 1)).
Qed.

Lemma kept_keys_incl (df : list ResolvedRow) : incl (kept_keys df) (group_keys df).
Proof. intros k Hk. unfold kept_keys in Hk. apply filter_In in Hk. tauto. Qed.

Lemma getitem_group_mean (col : ResolvedRow -> R) (df : list ResolvedRow) :
  series_getitem (group_mean col (groupby_iter df)) (s_index (mu_real df))
  = Some (map (fun k => (k, mean (map col (group_rows df k)))) (kept_keys df)).
Proof.
  rewrite group_mean_keyed, mu_real_keyed, s_index_keyed.
  apply (series_getitem_keyed (fun k => mean (map col (group_rows df k)))).
  apply kept_keys_incl.
Qed.

Lemma zip6_keyed (F1 F2 F3 F4 F5 F6 : Z -> R) (keys : list Z) :
  zip6 (map (fun k => (k, F1 k)) keys) (map (fun k => (k, F2 k)) keys)
       (map (fun k => (k, F3 k)) keys) (map (fun k => (k, F4 k)) keys)
       (map (fun k => (k, F5 k)) keys) (map (fun k => (k, F6 k)) keys)
  = map (fun k => (k, [F1 k; F2 k; F3 k; F4 k; F5 k; F6 k])) keys.
Proof.
  induction keys as [|h t IH]; simpl; [reflexivity |].
  rewrite IH. reflexivity.
Qed.

Lemma same_index_refl (l : list Z) : same_index l l = true.
Proof.
  unfold same_index. destruct (list_eq_dec Z.eq_dec l l); [reflexivity | congruence].
Qed.

Lemma pd_concat6_keyed (F1 F2 F3 F4 F5 F6 : Z -> R) (keys : list Z) :
  pd_concat6 (map (fun k => (k, F1 k)) keys) (map (fun k => (k, F2 k)) keys)
       (map (fun k => (k, F3 k)) keys) (map (fun k => (k, F4 k)) keys)
       (map (fun k => (k, F5 k)) keys) (map (fun k => (k, F6 k)) keys)
  = Some (map (fun k => (k, [F1 k; F2 k; F3 k; F4 k; F5 k; F6 k])) keys).
Proof.
  unfold pd_concat6. rewrite !s_index_keyed, same_index_refl. simpl.
  rewrite zip6_keyed. reflexivity.
Qed.

Lemma prior_row_unique (p : PriorRow) :
  NoDup (r_index r_priors_df) -> In p r_priors_df ->
  filter (fun q => (p_index q =? p_index p)%Z) r_priors_df = [p].
Proof.
  intros Hnd Hin.
  rewrite <- (filter_one_block p_index (fun a => [a]) p_index r_priors_df p).
  - rewrite flat_map_singleton. reflexivity.
  - intros a' b [<- | []]. reflexivity.
  - exact Hnd.
  - exact Hin.
Qed.

Lemma loc_likelihood_keyed (labels : list Z) :
  NoDup (r_index r_priors_df) ->
  incl labels (r_index r_priors_df) ->
  loc_likelihood r_priors_df labels
  = Some (map (fun k => (k, likelihood_of' k)) labels).
Proof.
  intros Hnd Hincl. unfold loc_likelihood.
  rewrite (mapM_total _ (fun k => [(k, likelihood_of' k)])).
  - simpl. rewrite concat_map_singleton. reflexivity.
  - intros k Hk. apply Hincl in Hk. unfold r_index in Hk.
    apply in_map_iff in Hk. destruct Hk as [p [<- Hp]].
    unfold likelihood_of. rewrite (prior_row_unique p Hnd Hp). reflexivity.
Qed.

Lemma n_draws_value : Z.of_nat n_draws = 10000%Z.
Proof. unfold n_draws. apply Z2Nat.id. lia. Qed.

Lemma np_random_random_length (n : nat) :
  length (np_random_random random_seed_70 n) = n.
Proof. unfold np_random_random. rewrite length_map. apply length_seq. Qed.

Lemma phi_priors_defined :
  Forall (fun i => (-10000 <= i < 10000)%Z) (r_index r_priors_df) ->
  exists phis, phi_priors' = Some phis /\ length phis = length r_priors_df.
Proof.
  intros Hr. unfold phi_priors.
  destruct (np_take_defined (np_random_random random_seed_70 n_draws)
              (r_index r_priors_df)) as [phis [Hp Hl]].
  - rewrite np_random_random_length, n_draws_value. exact Hr.
  - exists phis. split; [exact Hp |].
    rewrite Hl. unfold r_index. apply length_map.
Qed.

Lemma resolved_table_eq (phis : list R) :
  map resolve' (flat_map (block fault_df) (combine r_priors_df phis))
  = resolved_table' phis.
Proof. unfold resolved_table, resolved_block. apply map_of_flat_map. Qed.

Lemma map_fst_combine_same {A B : Type} (a : list A) (b : list B) :
  length a = length b -> map fst (combine a b) = a.
Proof.
  revert b. induction a as [|x a IH]; intros [|y b] Hl; simpl in *;
    try discriminate; try reflexivity.
  rewrite IH by lia. reflexivity.
Qed.

Lemma resolved_block_key (pp : PriorRow * R) (b : ResolvedRow) :
  In b (resolved_block' pp) -> iter (base b) = p_index (fst pp).
Proof.
  unfold resolved_block, block. rewrite map_map. intros Hin.
  apply in_map_iff in Hin. destruct Hin as [jf [<- _]]. reflexivity.
Qed.

Lemma resolved_table_key (phis : list R) (b : ResolvedRow) :
  length phis = length r_priors_df ->
  In b (resolved_table' phis) -> In (iter (base b)) (r_index r_priors_df).
Proof.
  intros Hl Hin. unfold resolved_table in Hin.
  apply in_flat_map in Hin. destruct Hin as [pp [Hpp Hb]].
  rewrite (resolved_block_key pp b Hb).
  unfold r_index. apply in_map.
  destruct pp as [p ph]. apply in_combine_l in Hpp. exact Hpp.
Qed.

Lemma group_keys_in_index (phis : list R) :
  length phis = length r_priors_df ->
  incl (group_keys (resolved_table' phis)) (r_index r_priors_df).
Proof.
  intros Hl k Hk. unfold group_keys in Hk.
  apply -> sorted_unique_In in Hk. apply in_map_iff in Hk.
  destruct Hk as [b [<- Hb]]. apply (resolved_table_key phis b Hl Hb).
Qed.

Lemma group_rows_block (phis : list R) (p : PriorRow) (ph : R) :
  length phis = length r_priors_df ->
  NoDup (r_index r_priors_df) ->
  In (p, ph) (combine r_priors_df phis) ->
  group_rows (resolved_table' phis) (p_index p) = resolved_block' (p, ph).
Proof.
  intros Hl Hnd Hin. unfold group_rows, resolved_table.
  apply (filter_one_block (fun pp => p_index (fst pp)) resolved_block'
           (fun r => iter (base r)) (combine r_priors_df phis) (p, ph)).
  - intros a' b Hb. apply resolved_block_key. exact Hb.
  - rewrite <- (map_map fst p_index).
    rewrite map_fst_combine_same by (symmetry; exact Hl). exact Hnd.
  - exact Hin.
Qed.

Lemma map_over_block {X : Type} (G : FaultRow -> X) (h : ResolvedRow -> X)
  (pp : PriorRow * R) :
  (forall j f, h (resolve' (table_row (fst pp) (snd pp) j f)) = G f) ->
  map h (resolved_block' pp) = map G fault_df.
Proof.
  intros Hh. unfold resolved_block, block. rewrite !map_map.
  rewrite <- (map_snd_enumerate fault_df) at 2. rewrite map_map.
  apply map_ext. intros [j f]. simpl. apply Hh.
Qed.

Lemma group_mu_block (p : PriorRow) (ph : R) :
  mean (map weighted_tau_misfit (resolved_block' (p, ph)))
  / mean (map sig_n_eff (resolved_block' (p, ph)))
  = spec_mu' p ph.
Proof.
  unfold spec_mu.
  rewrite (map_over_block
             (fun f => spec_tau_mag strike_shear dip_shear p ph f * f_slip_m f
                       / mean (map f_slip_m fault_df))
             weighted_tau_misfit (p, ph)) by (intros j f; reflexivity).
  rewrite (map_over_block (spec_sig_n_eff eff_normal_stress p ph)
             sig_n_eff (p, ph)) by (intros j f; reflexivity).
  reflexivity.
Qed.

Lemma mean_prior_column (col : SearchRow -> R) (c : R) (pp : PriorRow * R) :
  fault_df <> [] ->
  (forall j f, col (table_row (fst pp) (snd pp) j f) = c) ->
  mean (map (fun r => col (base r)) (resolved_block' pp)) = c.
Proof.
  intros Hne Hc.
  rewrite (map_over_block (fun _ => c) (fun r => col (base r)) pp)
    by (intros j f; simpl; apply Hc).
  apply mean_constant.
  - destruct fault_df; [contradiction | discriminate].
  - intros x Hx. apply in_map_iff in Hx. destruct Hx as [_ [<- _]]. reflexivity.
Qed.

(** The notebook after the sample table is built, with every group lookup
    carried out. *)
Lemma fail_posteriors_unfold (phis : list R) :
  phi_priors' = Some phis ->
  length phis = length r_priors_df ->
  fault_df <> [] -> r_priors_df <> [] ->
  let df := resolved_table' phis in
  fail_posteriors' =
  (likelihood_keep <- loc_likelihood r_priors_df (kept_keys df) ;;
   body <- pd_concat6
     (map (fun k => (k, mean (map (fun r => txx (base r)) (group_rows df k)))) (kept_keys df))
     (map (fun k => (k, mean (map (fun r => tyy (base r)) (group_rows df k)))) (kept_keys df))
     (map (fun k => (k, mean (map (fun r => txy (base r)) (group_rows df k)))) (kept_keys df))
     (map (fun k => (k, group_mu df k)) (kept_keys df))
     (map (fun k => (k, mean (map (fun r => phi (base r)) (group_rows df k)))) (kept_keys df))
     likelihood_keep ;;
   Some (mkDataFrame posterior_columns body)).
Proof.
  intros Hp Hl Hfne Hpne df. unfold fail_posteriors.
  rewrite Hp. simpl.
  rewrite (search_df_blocks fault_df r_priors_df phis Hfne Hpne Hl). simpl.
  rewrite resolved_table_eq. fold df.
  rewrite !getitem_group_mean. simpl.
  rewrite mu_real_keyed, s_index_keyed.
  reflexivity.
Qed.

Lemma fail_posteriors_rows (phis : list R) :
  phi_priors' = Some phis ->
  length phis = length r_priors_df ->
  NoDup (r_index r_priors_df) ->
  fault_df <> [] -> r_priors_df <> [] ->
  let df := resolved_table' phis in
  fail_posteriors' =
  Some (mkDataFrame posterior_columns
          (map (fun k =>
                  (k, [mean (map (fun r => txx (base r)) (group_rows df k));
                       mean (map (fun r => tyy (base r)) (group_rows df k));
                       mean (map (fun r => txy (base r)) (group_rows df k));
                       group_mu df k;
                       mean (map (fun r => phi (base r)) (group_rows df k));
                       likelihood_of' k]))
               (kept_keys df))).
Proof.
  intros Hp Hl Hnd Hfne Hpne df.
  rewrite (fail_posteriors_unfold phis Hp Hl Hfne Hpne). fold df.
  rewrite loc_likelihood_keyed.
  - simpl.
    rewrite (pd_concat6_keyed
      (fun k => mean (map (fun r => txx (base r)) (group_rows df k)))
      (fun k => mean (map (fun r => tyy (base r)) (group_rows df k)))
      (fun k => mean (map (fun r => txy (base r)) (group_rows df k)))
      (group_mu df)
      (fun k => mean (map (fun r => phi (base r)) (group_rows df k)))
      likelihood_of').
    reflexivity.
  - exact Hnd.
  - intros k Hk. apply (group_keys_in_index phis Hl).
    apply kept_keys_incl. exact Hk.
Qed.

End FilterFacts.

(** * The failure notebook: the claims *)

Section FailureClaims.

Import Failure.

Variable strike_shear : StressArgs -> R.
Variable dip_shear : StressArgs -> R.
Variable eff_normal_stress : StressArgs -> R -> R.
Variable random_seed_70 : nat -> R.
Variable fault_df : list FaultRow.
Variable r_priors_df : list PriorRow.

Local Notation resolve' := (resolve strike_shear dip_shear eff_normal_stress fault_df).
Local Notation spec_mu' := (spec_mu strike_shear dip_shear eff_normal_stress fault_df).
Local Notation phi_priors' := (phi_priors random_seed_70 r_priors_df).
Local Notation search_df' := (search_df fault_df r_priors_df).
Local Notation fail_posteriors' :=
  (fail_posteriors strike_shear dip_shear eff_normal_stress random_seed_70
     fault_df r_priors_df).
Local Notation resolved_table' :=
  (resolved_table strike_shear dip_shear eff_normal_stress fault_df r_priors_df).
Local Notation resolved_block' :=
  (resolved_block strike_shear dip_shear eff_normal_stress fault_df).
Local Notation all_normal_stress_negative' :=
  (all_normal_stress_negative strike_shear dip_shear eff_normal_stress
     random_seed_70 fault_df r_priors_df).
Local Notation every_iteration_sheared' :=
  (every_iteration_sheared strike_shear dip_shear eff_normal_stress
     random_seed_70 fault_df r_priors_df).
Local Notation retains_nothing' :=
  (retains_nothing strike_shear dip_shear eff_normal_stress random_seed_70
     fault_df r_priors_df).

Lemma in_combine_nth {A B : Type} (a : list A) (b : list B) (i : nat) (x : A) (y : B) :
  nth_error a i = Some x -> nth_error b i = Some y -> In (x, y) (combine a b).
Proof.
  revert b i. induction a as [|h t IH]; intros [|h' t'] [|i] Ha Hb;
    simpl in *; try discriminate.
  - left. congruence.
  - right. apply (IH t' i); assumption.
Qed.

Lemma nth_combine_in {A B : Type} (a : list A) (b : list B) (x : A) (y : B) :
  In (x, y) (combine a b) ->
  exists i, nth_error a i = Some x /\ nth_error b i = Some y.
Proof.
  revert b. induction a as [|h t IH]; intros [|h' t'] Hin; simpl in *;
    try contradiction.
  destruct Hin as [Heq | Hin].
  - inversion Heq; subst. exists 0%nat. split; reflexivity.
  - destruct (IH t' Hin) as [i [Ha Hb]]. exists (S i). split; assumption.
Qed.

Lemma same_length_nth {A B : Type} (a : list A) (b : list B) (i : nat) (x : A) :
  length b = length a -> nth_error a i = Some x -> exists y, nth_error b i = Some y.
Proof.
  intros Hl Ha.
  destruct (nth_error b i) as [y|] eqn:E; [exists y; reflexivity |].
  apply nth_error_None in E.
  assert (i < length a)%nat by (apply nth_error_Some; congruence). lia.
Qed.

Lemma key_present (phis : list R) (p : PriorRow) (ph : R) :
  fault_df <> [] ->
  In (p, ph) (combine r_priors_df phis) ->
  In (p_index p) (group_keys (resolved_table' phis)).
Proof.
  intros Hne Hin. unfold group_keys. apply sorted_unique_In.
  destruct fault_df as [|f0 rest] eqn:Ef; [contradiction |].
  apply in_map_iff.
  exists (resolve strike_shear dip_shear eff_normal_stress (f0 :: rest)
            (table_row p ph 0 f0)).
  split; [reflexivity |].
  unfold resolved_table. apply in_flat_map.
  exists (p, ph). split; [exact Hin |].
  unfold resolved_block, block, enumerate. simpl. left. reflexivity.
Qed.

Lemma group_mu_spec (phis : list R) (p : PriorRow) (ph : R) :
  length phis = length r_priors_df ->
  NoDup (r_index r_priors_df) ->
  In (p, ph) (combine r_priors_df phis) ->
  group_mu (resolved_table' phis) (p_index p) = spec_mu' p ph.
Proof.
  intros Hl Hnd Hin. unfold group_mu.
  rewrite (group_rows_block strike_shear dip_shear eff_normal_stress fault_df
             r_priors_df phis p ph Hl Hnd Hin).
  apply group_mu_block.
Qed.

(** C1.  For every row of the prior table (labels pairwise distinct, at
    least one prior row and one fault point, without which the notebook
    stops at [index_array[:, 0]]), the entry of [mu_iter] under that row's
    label is the mean over the fault points of [tau_mag * slip / mean(slip)]
    divided by the mean over the same points of the effective normal
    stress. *)
Theorem C1_mu_is_ratio_of_means :
  Forall (fun i => (-10000 <= i < 10000)%Z) (r_index r_priors_df) ->
  NoDup (r_index r_priors_df) ->
  fault_df <> [] ->
  r_priors_df <> [] ->
  exists phis sdf,
    phi_priors' = Some phis /\
    search_df' phis = Some sdf /\
    forall i p, nth_error r_priors_df i = Some p ->
      exists ph, nth_error phis i = Some ph /\
        series_lookup (mu_iter (map resolve' sdf)) (p_index p)
        = Some (spec_mu' p ph).
Proof.
  intros Hr Hnd Hne Hpne.
  destruct (phi_priors_defined random_seed_70 r_priors_df Hr) as [phis [Hp Hl]].
  exists phis, (flat_map (block fault_df) (combine r_priors_df phis)).
  split; [exact Hp |].
  split; [apply search_df_blocks; assumption |].
  intros i p Hi.
  destruct (same_length_nth r_priors_df phis i p Hl Hi) as [ph Hph].
  exists ph. split; [exact Hph |].
  assert (Hin : In (p, ph) (combine r_priors_df phis))
    by (apply (in_combine_nth _ _ i); assumption).
  rewrite resolved_table_eq, mu_iter_keyed.
  rewrite (series_lookup_keyed (group_mu (resolved_table' phis)))
    by (apply (key_present phis p ph); assumption).
  rewrite (group_mu_spec phis p ph Hl Hnd Hin). reflexivity.
Qed.

Lemma nth_error_combine_both {A B : Type} (a : list A) (b : list B) (i : nat)
  (x : A) (y : B) :
  nth_error a i = Some x -> nth_error b i = Some y ->
  nth_error (combine a b) i = Some (x, y).
Proof.
  revert b i. induction a as [|h t IH]; intros [|h' t'] [|i] Ha Hb;
    simpl in *; try discriminate.
  - congruence.
  - apply IH; assumption.
Qed.

Lemma nth_error_enumerate {A : Type} (l : list A) (j : nat) (x : A) :
  nth_error l j = Some x -> nth_error (enumerate l) j = Some (j, x).
Proof.
  intros Hx. unfold enumerate.
  apply nth_error_combine_both; [| exact Hx].
  assert (Hj : (j < length l)%nat) by (apply nth_error_Some; congruence).
  rewrite nth_error_nth' with (d := 0%nat) by (rewrite length_seq; exact Hj).
  rewrite seq_nth by exact Hj. reflexivity.
Qed.

Lemma nth_error_defined {A : Type} (l : list A) (i : nat) :
  (i < length l)%nat -> exists x, nth_error l i = Some x.
Proof.
  intros Hi. destruct (nth_error l i) as [x|] eqn:E; [exists x; reflexivity |].
  apply nth_error_None in E. lia.
Qed.

(** Row [r] of the sample table, read off the prior table and the fault
    model. *)
Lemma search_df_row (phis : list R) (r : nat) :
  length phis = length r_priors_df ->
  (r < n_trials r_priors_df * n_points fault_df)%nat ->
  exists p ph f,
    nth_error r_priors_df (r / n_points fault_df) = Some p /\
    nth_error phis (r / n_points fault_df) = Some ph /\
    nth_error fault_df (r mod n_points fault_df) = Some f /\
    nth_error (flat_map (block fault_df) (combine r_priors_df phis)) r
    = Some (table_row p ph (r mod n_points fault_df) f).
Proof.
  intros Hl Hr. unfold n_trials in Hr.
  remember (n_points fault_df) as n eqn:En.
  unfold n_points in En.
  assert (Hn : (0 < n)%nat) by (destruct n; lia).
  assert (Hq : (r / n < length r_priors_df)%nat)
    by (apply Nat.Div0.div_lt_upper_bound; lia).
  assert (Hm : (r mod n < length fault_df)%nat)
    by (rewrite <- En; apply Nat.mod_upper_bound; lia).
  destruct (nth_error_defined r_priors_df (r / n) Hq) as [p Hp].
  destruct (same_length_nth r_priors_df phis (r / n) p Hl Hp) as [ph Hph].
  destruct (nth_error_defined fault_df (r mod n) Hm) as [f Hf].
  exists p, ph, f. repeat split; try assumption.
  rewrite (nth_error_blocks (block fault_df) n) by
    (try exact Hn; intros a _; rewrite En; apply block_length).
  rewrite (nth_error_combine_both _ _ _ p ph Hp Hph).
  unfold block. rewrite nth_error_map.
  rewrite (nth_error_enumerate fault_df (r mod n) f Hf). reflexivity.
Qed.

Lemma search_df_length (phis : list R) :
  length phis = length r_priors_df ->
  length (flat_map (block fault_df) (combine r_priors_df phis))
  = (n_trials r_priors_df * n_points fault_df)%nat.
Proof.
  intros Hl.
  rewrite (flat_map_constant_length (block fault_df) (n_points fault_df))
    by (intros a _; apply block_length).
  rewrite length_combine, Hl, Nat.min_id. reflexivity.
Qed.

(** C9.  With at least one prior row and one fault point (the notebook
    stops at [index_array[:, 0]] otherwise), row [r] of the sample table
    belongs to the prior row at position [r / n_points] and to fault point
    [r mod n_points]; rows at the same offset of any two blocks carry the
    same fault-point attributes. *)
Theorem C9_table_is_iteration_major :
  Forall (fun i => (-10000 <= i < 10000)%Z) (r_index r_priors_df) ->
  fault_df <> [] ->
  r_priors_df <> [] ->
  exists phis sdf,
    phi_priors' = Some phis /\
    search_df' phis = Some sdf /\
    length sdf = (n_trials r_priors_df * n_points fault_df)%nat /\
    (forall r, (r < length sdf)%nat ->
       exists p ph f,
         nth_error r_priors_df (r / n_points fault_df) = Some p /\
         nth_error phis (r / n_points fault_df) = Some ph /\
         nth_error fault_df (r mod n_points fault_df) = Some f /\
         nth_error sdf r = Some (table_row p ph (r mod n_points fault_df) f)) /\
    (forall r r' row row',
       nth_error sdf r = Some row -> nth_error sdf r' = Some row' ->
       (r mod n_points fault_df = r' mod n_points fault_df)%nat ->
       fault_attributes row = fault_attributes row').
Proof.
  intros Hr Hfne Hpne.
  destruct (phi_priors_defined random_seed_70 r_priors_df Hr) as [phis [Hp Hl]].
  exists phis, (flat_map (block fault_df) (combine r_priors_df phis)).
  split; [exact Hp |].
  split; [apply search_df_blocks; assumption |].
  split; [apply search_df_length; exact Hl |].
  split.
  - intros r Hlt. rewrite (search_df_length phis Hl) in Hlt.
    apply search_df_row; assumption.
  - intros r r' row row' Hrow Hrow' Hmod.
    assert (Hlt : (r < n_trials r_priors_df * n_points fault_df)%nat).
    { rewrite <- (search_df_length phis Hl). apply nth_error_Some. congruence. }
    assert (Hlt' : (r' < n_trials r_priors_df * n_points fault_df)%nat).
    { rewrite <- (search_df_length phis Hl). apply nth_error_Some. congruence. }
    destruct (search_df_row phis r Hl Hlt) as [p [ph [f [_ [_ [Hf Hn]]]]]].
    destruct (search_df_row phis r' Hl Hlt') as [p' [ph' [f' [_ [_ [Hf' Hn']]]]]].
    rewrite Hn in Hrow. rewrite Hn' in Hrow'.
    injection Hrow as <-. injection Hrow' as <-.
    rewrite Hmod in Hf. rewrite Hf in Hf'. injection Hf' as <-.
    reflexivity.
Qed.

Lemma mapM_nth {A B : Type} (f : A -> option B) (l : list A) (r : list B)
  (k : nat) (a : A) :
  mapM f l = Some r -> nth_error l k = Some a ->
  exists b, f a = Some b /\ nth_error r k = Some b.
Proof.
  revert r k. induction l as [|h t IH]; intros r k Hm Hk.
  - destruct k; discriminate.
  - simpl in Hm. apply bind_Some in Hm. destruct Hm as [b [Hb Hm]].
    apply bind_Some in Hm. destruct Hm as [bs [Hbs Hm]].
    injection Hm as <-.
    destruct k as [|k]; simpl in Hk.
    + injection Hk as ->. exists b. split; [exact Hb | reflexivity].
    + apply (IH bs k Hbs Hk).
Qed.

Lemma draw_at (n p : nat) :
  (p < n)%nat ->
  nth_error (np_random_random random_seed_70 n) p = Some (random_seed_70 p).
Proof.
  intros Hp. unfold np_random_random.
  rewrite nth_error_map.
  rewrite nth_error_nth' with (d := 0%nat) by (rewrite length_seq; exact Hp).
  rewrite seq_nth by exact Hp. reflexivity.
Qed.

(** The draw selected for a label: draw [i] for [i >= 0], draw
    [10000 + i] for [i < 0]. *)
Lemma phi_priors_values :
  Forall (fun i => (-10000 <= i < 10000)%Z) (r_index r_priors_df) ->
  phi_priors' =
  Some (map (fun p => random_seed_70
                        (Z.to_nat (if (p_index p <? 0)%Z then p_index p + 10000
                                   else p_index p)))
            r_priors_df).
Proof.
  intros Hr. unfold phi_priors, np_take, r_index.
  rewrite <- (map_map p_index
                (fun i => random_seed_70
                            (Z.to_nat (if (i <? 0)%Z then i + 10000 else i)))).
  apply mapM_total. intros i Hi.
  rewrite Forall_forall in Hr. specialize (Hr i Hi).
  rewrite np_random_random_length.
  pose proof n_draws_value as Hnd. cbv beta.
  destruct (Z.ltb_spec i 0) as [Hneg | Hpos].
  - rewrite np_index_negative by lia. unfold bind.
    rewrite draw_at by lia. rewrite Hnd. reflexivity.
  - rewrite np_index_nonneg by lia. unfold bind.
    rewrite draw_at by lia. reflexivity.
Qed.

(** C10 (amended).  [np.random.random(1e4)] yields 10000 draws; indexing them
    by the prior table's labels is defined exactly when every label lies in
    [-10000, 10000); a label of 10000 or more makes the indexing, and with it
    the notebook, fail; a non-negative label [i] selects draw [i] and a
    negative label [i] selects draw [10000 + i]. *)
Theorem C10_phi_priors_index_bounds :
  Z.of_nat (length (np_random_random random_seed_70 n_draws)) = 10000%Z /\
  (phi_priors' <> None <->
   Forall (fun i => (-10000 <= i < 10000)%Z) (r_index r_priors_df)) /\
  (forall i, In i (r_index r_priors_df) -> (10000 <= i)%Z ->
     phi_priors' = None /\ fail_posteriors' = None) /\
  (forall phis k p,
     phi_priors' = Some phis -> nth_error r_priors_df k = Some p ->
     nth_error phis k
     = Some (random_seed_70
               (Z.to_nat (if (p_index p <? 0)%Z then p_index p + 10000
                          else p_index p)))).
Proof.
  assert (Hlen : Z.of_nat (length (np_random_random random_seed_70 n_draws))
                 = 10000%Z).
  { rewrite np_random_random_length. apply n_draws_value. }
  split; [exact Hlen |].
  split; [| split].
  - split.
    + intros Hdef. apply Forall_forall. intros i Hi.
      destruct (Z_le_dec (-10000) i) as [Hlo |Hlo];
        [destruct (Z_lt_dec i 10000) as [Hhi | Hhi]; [lia |] |];
        exfalso; apply Hdef; unfold phi_priors;
        apply (np_take_raises _ _ i Hi); rewrite Hlen; lia.
    + intros Hr. destruct (phi_priors_defined random_seed_70 r_priors_df Hr)
        as [phis [Hp _]].
      rewrite Hp. discriminate.
  - intros i Hi Hbig.
    assert (Hnone : phi_priors' = None).
    { unfold phi_priors. apply (np_take_raises _ _ i Hi). rewrite Hlen. lia. }
    split; [exact Hnone |].
    unfold fail_posteriors. rewrite Hnone. reflexivity.
  - intros phis k p Hp Hk. unfold phi_priors, np_take in Hp.
    assert (Hk' : nth_error (r_index r_priors_df) k = Some (p_index p)).
    { unfold r_index. rewrite nth_error_map, Hk. reflexivity. }
    destruct (mapM_nth _ _ _ k (p_index p) Hp Hk') as [b [Hb Hn]].
    rewrite Hn. f_equal.
    apply bind_Some in Hb. destruct Hb as [q [Hq Hb]].
    rewrite np_random_random_length in Hq.
    assert (Hrange : (- Z.of_nat n_draws <= p_index p < Z.of_nat n_draws)%Z).
    { destruct (Z_le_dec (- Z.of_nat n_draws) (p_index p));
        [destruct (Z_lt_dec (p_index p) (Z.of_nat n_draws)); [lia |] |];
        rewrite np_index_None in Hq by lia; discriminate. }
    pose proof n_draws_value as Hnd.
    destruct (Z.ltb_spec (p_index p) 0) as [Hneg | Hpos].
    + rewrite np_index_negative in Hq by lia. injection Hq as <-.
      rewrite draw_at in Hb by lia. injection Hb as <-.
      try rewrite Hnd. reflexivity.
    + rewrite np_index_nonneg in Hq by lia. injection Hq as <-.
      rewrite draw_at in Hb by lia. injection Hb as <-. reflexivity.
Qed.

Lemma in_keyed (F : Z -> R) (keys : list Z) (k : Z) (m : R) :
  In (k, m) (map (fun k' => (k', F k')) keys) <-> In k keys /\ m = F k.
Proof.
  rewrite in_map_iff. split.
  - intros [k' [Heq Hin]]. injection Heq as -> ->. split; [exact Hin | reflexivity].
  - intros [Hin ->]. exists k. split; [reflexivity | exact Hin].
Qed.

Lemma in_keyed_rows (F : Z -> list R) (keys : list Z) (k : Z) (vals : list R) :
  In (k, vals) (map (fun k' => (k', F k')) keys) <-> In k keys /\ vals = F k.
Proof.
  rewrite in_map_iff. split.
  - intros [k' [Heq Hin]]. injection Heq as -> ->. split; [exact Hin | reflexivity].
  - intros [Hin ->]. exists k. split; [reflexivity | exact Hin].
Qed.

Lemma kept_keys_In (df : list ResolvedRow) (k : Z) :
  In k (kept_keys df) <-> In k (group_keys df) /\ 0 <= group_mu df k <= 1.
Proof.
  unfold kept_keys. rewrite filter_In, in_unit_interval. reflexivity.
Qed.

(** C2.  With at least one prior row and one fault point (the notebook
    stops at [index_array[:, 0]] otherwise), an entry of [mu_iter] is kept by
    the filter exactly when its value lies in [0, 1]; a kept entry appears in
    the posterior frame under its label with its value unchanged in the [mu]
    column, and an entry outside [0, 1] has no row in the posterior frame. *)
Theorem C2_filter_keeps_unit_interval :
  Forall (fun i => (-10000 <= i < 10000)%Z) (r_index r_priors_df) ->
  NoDup (r_index r_priors_df) ->
  fault_df <> [] ->
  r_priors_df <> [] ->
  exists phis sdf out,
    phi_priors' = Some phis /\
    search_df' phis = Some sdf /\
    fail_posteriors' = Some out /\
    (forall k m, In (k, m) (mu_real (map resolve' sdf)) <->
                 In (k, m) (mu_iter (map resolve' sdf)) /\ 0 <= m <= 1) /\
    (forall k m, In (k, m) (mu_iter (map resolve' sdf)) -> 0 <= m <= 1 ->
                 exists vals, In (k, vals) (rows out) /\ nth 3 vals 0 = m) /\
    (forall k m, In (k, m) (mu_iter (map resolve' sdf)) -> ~ 0 <= m <= 1 ->
                 forall vals, ~ In (k, vals) (rows out)) /\
    (forall k vals, In (k, vals) (rows out) ->
                 exists m, In (k, m) (mu_iter (map resolve' sdf)) /\
                           0 <= m <= 1 /\ nth 3 vals 0 = m).
Proof.
  intros Hr Hnd Hfne Hpne.
  destruct (phi_priors_defined random_seed_70 r_priors_df Hr) as [phis [Hp Hl]].
  exists phis, (flat_map (block fault_df) (combine r_priors_df phis)).
  eexists. split; [exact Hp |].
  split; [apply search_df_blocks; assumption |].
  split; [apply (fail_posteriors_rows _ _ _ _ _ _ phis Hp Hl Hnd Hfne Hpne) |].
  rewrite resolved_table_eq. simpl rows.
  set (df := resolved_table' phis).
  rewrite mu_iter_keyed, mu_real_keyed.
  split; [| split; [| split]].
  - intros k m. rewrite !in_keyed, kept_keys_In. split.
    + intros [Hk ->]. tauto.
    + intros [[Hk ->] Hm]. tauto.
  - intros k m Hin Hm. apply in_keyed in Hin. destruct Hin as [Hk ->].
    eexists. split.
    + apply in_keyed_rows. split; [| reflexivity]. apply kept_keys_In. tauto.
    + reflexivity.
  - intros k m Hin Hm vals Hrow. apply in_keyed in Hin. destruct Hin as [Hk ->].
    apply in_keyed_rows in Hrow. destruct Hrow as [Hkept _].
    apply kept_keys_In in Hkept. tauto.
  - intros k vals Hrow. apply in_keyed_rows in Hrow. destruct Hrow as [Hkept ->].
    apply kept_keys_In in Hkept. exists (group_mu df k).
    split; [apply in_keyed; tauto |]. split; [tauto | reflexivity].
Qed.

Lemma key_origin (phis : list R) (k : Z) :
  In k (group_keys (resolved_table' phis)) ->
  exists p ph, In (p, ph) (combine r_priors_df phis) /\ k = p_index p.
Proof.
  intros Hk. unfold group_keys in Hk.
  apply -> sorted_unique_In in Hk. apply in_map_iff in Hk.
  destruct Hk as [b [<- Hb]]. unfold resolved_table in Hb.
  apply in_flat_map in Hb. destruct Hb as [[p ph] [Hpp Hb]].
  exists p, ph. split; [exact Hpp |].
  apply (resolved_block_key _ _ _ _ (p, ph) b Hb).
Qed.

Lemma likelihood_of_row (p : PriorRow) :
  NoDup (r_index r_priors_df) -> In p r_priors_df ->
  likelihood_of r_priors_df (p_index p) = p_likelihood p.
Proof.
  intros Hnd Hin. unfold likelihood_of.
  rewrite (prior_row_unique r_priors_df p Hnd Hin). reflexivity.
Qed.

(** The posterior row of one prior row, value by value. *)
Lemma posterior_row_values (phis : list R) (p : PriorRow) (ph : R) :
  length phis = length r_priors_df ->
  NoDup (r_index r_priors_df) ->
  fault_df <> [] ->
  In (p, ph) (combine r_priors_df phis) ->
  let df := resolved_table' phis in
  let k := p_index p in
  [mean (map (fun r => txx (base r)) (group_rows df k));
   mean (map (fun r => tyy (base r)) (group_rows df k));
   mean (map (fun r => txy (base r)) (group_rows df k));
   group_mu df k;
   mean (map (fun r => phi (base r)) (group_rows df k));
   likelihood_of r_priors_df k]
  = [p_txx p; p_tyy p; p_txy p; spec_mu' p ph; ph; p_likelihood p].
Proof.
  intros Hl Hnd Hne Hin df k. unfold df, k.
  rewrite (group_mu_spec phis p ph Hl Hnd Hin).
  rewrite (group_rows_block strike_shear dip_shear eff_normal_stress fault_df
             r_priors_df phis p ph Hl Hnd Hin).
  rewrite (likelihood_of_row p Hnd (in_combine_l _ _ _ _ Hin)).
  rewrite (mean_prior_column _ _ _ _ txx (p_txx p) (p, ph) Hne)
    by (intros j f; reflexivity).
  rewrite (mean_prior_column _ _ _ _ tyy (p_tyy p) (p, ph) Hne)
    by (intros j f; reflexivity).
  rewrite (mean_prior_column _ _ _ _ txy (p_txy p) (p, ph) Hne)
    by (intros j f; reflexivity).
  rewrite (mean_prior_column _ _ _ _ phi ph (p, ph) Hne)
    by (intros j f; reflexivity).
  reflexivity.
Qed.

Lemma map_constant_repeat {A B : Type} (c : B) (l : list A) :
  map (fun _ => c) l = repeat c (length l).
Proof. induction l as [|a t IH]; simpl; [reflexivity | rewrite IH; reflexivity]. Qed.

(** A column that holds the same value in every row of an iteration. *)
Lemma prior_column_of_group (phis : list R) (col : SearchRow -> R) (c : R)
  (p : PriorRow) (ph : R) :
  length phis = length r_priors_df ->
  NoDup (r_index r_priors_df) ->
  In (p, ph) (combine r_priors_df phis) ->
  (forall j f, col (table_row p ph j f) = c) ->
  map (fun r => col (base r)) (group_rows (resolved_table' phis) (p_index p))
  = repeat c (n_points fault_df).
Proof.
  intros Hl Hnd Hin Hc.
  rewrite (group_rows_block strike_shear dip_shear eff_normal_stress fault_df
             r_priors_df phis p ph Hl Hnd Hin).
  rewrite (map_over_block strike_shear dip_shear eff_normal_stress fault_df
             (fun _ => c) (fun r => col (base r)) (p, ph))
    by (intros j f; simpl; apply Hc).
  apply map_constant_repeat.
Qed.

(** C8 (amended).  The posterior frame has the columns txx, tyy, txy, mu,
    phi, likelihood and exactly one row per retained iteration (per entry of
    [mu_real]).  The row of a retained iteration holds the friction estimate
    unchanged and the iteration's prior likelihood; its txx, tyy, txy and
    phi entries are the means of [n_points] copies of the iteration's prior
    value, which is what [iters.<col>.mean()] computes on a column that is
    constant within the iteration. *)
Theorem C8_posterior_rows :
  Forall (fun i => (-10000 <= i < 10000)%Z) (r_index r_priors_df) ->
  NoDup (r_index r_priors_df) ->
  fault_df <> [] ->
  r_priors_df <> [] ->
  exists phis sdf out,
    phi_priors' = Some phis /\
    search_df' phis = Some sdf /\
    fail_posteriors' = Some out /\
    columns out = ["txx"; "tyy"; "txy"; "mu"; "phi"; "likelihood"]%string /\
    NoDup (map fst (rows out)) /\
    (forall k vals,
       In (k, vals) (rows out) <->
       exists m i p ph,
         In (k, m) (mu_real (map resolve' sdf)) /\
         nth_error r_priors_df i = Some p /\
         nth_error phis i = Some ph /\
         k = p_index p /\
         vals = [mean (repeat (p_txx p) (n_points fault_df));
                 mean (repeat (p_tyy p) (n_points fault_df));
                 mean (repeat (p_txy p) (n_points fault_df));
                 m;
                 mean (repeat ph (n_points fault_df));
                 p_likelihood p]).
Proof.
  intros Hr Hnd Hne Hpne.
  destruct (phi_priors_defined random_seed_70 r_priors_df Hr) as [phis [Hp Hl]].
  exists phis, (flat_map (block fault_df) (combine r_priors_df phis)).
  eexists. split; [exact Hp |].
  split; [apply search_df_blocks; assumption |].
  split; [apply (fail_posteriors_rows _ _ _ _ _ _ phis Hp Hl Hnd Hne Hpne) |].
  simpl columns. simpl rows.
  split; [reflexivity |].
  split.
  - rewrite map_map. simpl. rewrite map_id.
    unfold kept_keys. apply NoDup_filter. apply sorted_unique_NoDup.
  - intros k vals. rewrite resolved_table_eq, mu_real_keyed, in_keyed_rows.
    assert (Hrow : forall p ph, In (p, ph) (combine r_priors_df phis) ->
      [mean (map (fun r => txx (base r))
               (group_rows (resolved_table' phis) (p_index p)));
       mean (map (fun r => tyy (base r))
               (group_rows (resolved_table' phis) (p_index p)));
       mean (map (fun r => txy (base r))
               (group_rows (resolved_table' phis) (p_index p)));
       group_mu (resolved_table' phis) (p_index p);
       mean (map (fun r => phi (base r))
               (group_rows (resolved_table' phis) (p_index p)));
       likelihood_of r_priors_df (p_index p)]
      = [mean (repeat (p_txx p) (n_points fault_df));
         mean (repeat (p_tyy p) (n_points fault_df));
         mean (repeat (p_txy p) (n_points fault_df));
         group_mu (resolved_table' phis) (p_index p);
         mean (repeat ph (n_points fault_df));
         p_likelihood p]).
    { intros p ph Hin.
      rewrite (prior_column_of_group phis txx (p_txx p) p ph Hl Hnd Hin)
        by (intros j f; reflexivity).
      rewrite (prior_column_of_group phis tyy (p_tyy p) p ph Hl Hnd Hin)
        by (intros j f; reflexivity).
      rewrite (prior_column_of_group phis txy (p_txy p) p ph Hl Hnd Hin)
        by (intros j f; reflexivity).
      rewrite (prior_column_of_group phis phi ph p ph Hl Hnd Hin)
        by (intros j f; reflexivity).
      rewrite (likelihood_of_row p Hnd (in_combine_l _ _ _ _ Hin)).
      reflexivity. }
    split.
    + intros [Hk ->].
      assert (Hk' : In k (group_keys (resolved_table' phis)))
        by (apply kept_keys_incl; exact Hk).
      destruct (key_origin phis k Hk') as [p [ph [Hin ->]]].
      destruct (nth_combine_in _ _ _ _ Hin) as [i [Hi Hph]].
      exists (group_mu (resolved_table' phis) (p_index p)), i, p, ph.
      split; [apply in_keyed; split; [exact Hk | reflexivity] |].
      split; [exact Hi |]. split; [exact Hph |]. split; [reflexivity |].
      apply (Hrow p ph Hin).
    + intros [m [i [p [ph [Hm [Hi [Hph [-> ->]]]]]]]].
      apply in_keyed in Hm. destruct Hm as [Hk ->].
      assert (Hin : In (p, ph) (combine r_priors_df phis))
        by (apply (in_combine_nth _ _ i); assumption).
      split; [exact Hk |]. symmetry. apply (Hrow p ph Hin).
Qed.

Lemma Rsum_nonneg (l : list R) : (forall x, In x l -> 0 <= x) -> 0 <= Rsum l.
Proof.
  induction l as [|a t IH]; intros Hall.
  - simpl. lra.
  - change (Rsum (a :: t)) with (a + Rsum t).
    assert (0 <= a) by (apply Hall; left; reflexivity).
    assert (0 <= Rsum t) by (apply IH; intros x Hx; apply Hall; right; exact Hx).
    lra.
Qed.

Lemma Rsum_pos (l : list R) :
  (forall x, In x l -> 0 <= x) -> (exists x, In x l /\ 0 < x) -> 0 < Rsum l.
Proof.
  induction l as [|a t IH]; intros Hall [x [Hin Hx]].
  - contradiction.
  - change (Rsum (a :: t)) with (a + Rsum t).
    assert (Ha : 0 <= a) by (apply Hall; left; reflexivity).
    assert (Ht : 0 <= Rsum t)
      by (apply Rsum_nonneg; intros y Hy; apply Hall; right; exact Hy).
    destruct Hin as [-> | Hin]; [lra |].
    assert (0 < Rsum t).
    { apply IH; [intros y Hy; apply Hall; right; exact Hy |].
      exists x. split; assumption. }
    lra.
Qed.

Lemma Rsum_neg (l : list R) :
  l <> [] -> (forall x, In x l -> x < 0) -> Rsum l < 0.
Proof.
  induction l as [|a t IH]; intros Hne Hall; [contradiction |].
  change (Rsum (a :: t)) with (a + Rsum t).
  assert (Ha : a < 0) by (apply Hall; left; reflexivity).
  destruct t as [|b t'].
  - simpl. lra.
  - assert (Rsum (b :: t') < 0).
    { apply IH; [discriminate |]. intros x Hx. apply Hall. right. exact Hx. }
    lra.
Qed.

Lemma length_pos_INR {A : Type} (l : list A) : l <> [] -> 0 < INR (length l).
Proof.
  intros Hne. apply lt_0_INR. destruct l; [contradiction | simpl; lia].
Qed.

Lemma mean_pos (l : list R) :
  (forall x, In x l -> 0 <= x) -> (exists x, In x l /\ 0 < x) -> 0 < mean l.
Proof.
  intros Hall Hex. unfold mean.
  apply Rdiv_lt_0_compat; [apply Rsum_pos; assumption |].
  apply length_pos_INR. destruct Hex as [x [Hin _]]. intros ->. contradiction.
Qed.

Lemma mean_neg (l : list R) :
  l <> [] -> (forall x, In x l -> x < 0) -> mean l < 0.
Proof.
  intros Hne Hall. unfold mean.
  pose proof (Rsum_neg l Hne Hall) as Hs.
  pose proof (length_pos_INR l Hne) as Hn.
  assert (Hq : 0 < - Rsum l / INR (length l))
    by (apply Rdiv_lt_0_compat; lra).
  unfold Rdiv in *. lra.
Qed.

Lemma row_origin (phis : list R) (r : SearchRow) :
  In r (flat_map (block fault_df) (combine r_priors_df phis)) ->
  exists p ph j f, In f fault_df /\ r = table_row p ph j f.
Proof.
  intros Hin. apply in_flat_map in Hin. destruct Hin as [[p ph] [_ Hb]].
  unfold block in Hb. apply in_map_iff in Hb.
  destruct Hb as [[j f] [<- Hjf]].
  exists p, ph, j, f. split; [| reflexivity].
  apply in_enumerate in Hjf. apply nth_error_In in Hjf. exact Hjf.
Qed.

Lemma group_mu_negative (phis : list R) (k : Z) :
  phi_priors' = Some phis ->
  length phis = length r_priors_df ->
  all_normal_stress_negative' ->
  (forall f, In f fault_df -> 0 <= f_slip_m f) ->
  every_iteration_sheared' ->
  fault_df <> [] -> r_priors_df <> [] ->
  In k (group_keys (resolved_table' phis)) ->
  group_mu (resolved_table' phis) k < 0.
Proof.
  intros Hp Hl Hneg Hslip Hshear Hfne Hpne Hk.
  pose proof (search_df_blocks fault_df r_priors_df phis Hfne Hpne Hl) as Hsdf.
  set (sdf := flat_map (block fault_df) (combine r_priors_df phis)) in *.
  assert (Hdf : resolved_table' phis = map resolve' sdf)
    by (symmetry; apply resolved_table_eq).
  (* the witness row of this iteration *)
  assert (Hkin : In k (map iter sdf)).
  { unfold group_keys in Hk. apply -> sorted_unique_In in Hk.
    rewrite Hdf, map_map in Hk. exact Hk. }
  destruct (Hshear phis sdf k Hp Hsdf Hkin) as [r0 [Hr0 [Hk0 [Hs0 Ht0]]]].
  (* the mean slip is positive *)
  assert (Hms : 0 < mean_slip fault_df).
  { unfold mean_slip. apply mean_pos.
    - intros x Hx. apply in_map_iff in Hx. destruct Hx as [f [<- Hf]].
      apply Hslip. exact Hf.
    - destruct (row_origin phis r0 Hr0) as [p [ph [j [f [Hf ->]]]]].
      exists (f_slip_m f). split; [apply in_map; exact Hf | exact Hs0]. }
  assert (Hgrp : forall b, In b (group_rows (resolved_table' phis) k) ->
                 exists r, In r sdf /\ b = resolve' r).
  { intros b Hb. unfold group_rows in Hb. apply filter_In in Hb.
    destruct Hb as [Hb _]. rewrite Hdf in Hb. apply in_map_iff in Hb.
    destruct Hb as [r [<- Hr]]. exists r. split; [exact Hr | reflexivity]. }
  assert (Hr0g : In (resolve' r0) (group_rows (resolved_table' phis) k)).
  { unfold group_rows. apply filter_In. split.
    - rewrite Hdf. apply in_map. exact Hr0.
    - simpl. apply Z.eqb_eq. exact Hk0. }
  unfold group_mu.
  assert (Hnum : 0 < mean (map weighted_tau_misfit
                             (group_rows (resolved_table' phis) k))).
  { apply mean_pos.
    - intros x Hx. apply in_map_iff in Hx. destruct Hx as [b [<- Hb]].
      destruct (Hgrp b Hb) as [r [Hr ->]]. simpl.
      destruct (row_origin phis r Hr) as [p [ph [j [f [Hf ->]]]]].
      apply Rmult_le_pos; [| left; apply Rinv_0_lt_compat; exact Hms].
      apply Rmult_le_pos; [apply sqrt_pos | simpl; apply Hslip; exact Hf].
    - exists (weighted_tau_misfit (resolve' r0)).
      split; [apply in_map; exact Hr0g |]. simpl.
      apply Rmult_lt_0_compat; [| apply Rinv_0_lt_compat; exact Hms].
      apply Rmult_lt_0_compat; [exact Ht0 | exact Hs0]. }
  assert (Hden : mean (map sig_n_eff (group_rows (resolved_table' phis) k)) < 0).
  { apply mean_neg.
    - intros Hnil. apply map_eq_nil in Hnil. rewrite Hnil in Hr0g. contradiction.
    - intros x Hx. apply in_map_iff in Hx. destruct Hx as [b [<- Hb]].
      destruct (Hgrp b Hb) as [r [Hr ->]].
      apply (Hneg phis sdf r Hp Hsdf Hr). }
  set (num := mean (map weighted_tau_misfit _)) in *.
  set (den := mean (map sig_n_eff _)) in *.
  assert (Hinv : / den < 0) by (apply Rinv_lt_0_compat; exact Hden).
  unfold Rdiv. nra.
Qed.

(** C7 (amended).  For an ensemble with at least one prior row and one
    fault point (the notebook stops at [index_array[:, 0]] otherwise): when
    the effective normal stress is negative in every row of the ensemble, no
    slip is negative, and every iteration has a fault point with positive
    slip and non-zero shear, the posterior frame is produced and has no
    row. *)
Theorem C7_no_iteration_retained :
  Forall (fun i => (-10000 <= i < 10000)%Z) (r_index r_priors_df) ->
  fault_df <> [] ->
  r_priors_df <> [] ->
  all_normal_stress_negative' ->
  (forall f, In f fault_df -> 0 <= f_slip_m f) ->
  every_iteration_sheared' ->
  retains_nothing'.
Proof.
  intros Hr Hfne Hpne Hneg Hslip Hshear.
  destruct (phi_priors_defined random_seed_70 r_priors_df Hr) as [phis [Hp Hl]].
  assert (Hkept : kept_keys (resolved_table' phis) = []).
  { unfold kept_keys. apply filter_keeps_none. intros k Hk.
    pose proof (group_mu_negative phis k Hp Hl Hneg Hslip Hshear Hfne Hpne Hk)
      as Hmu.
    apply andb_false_iff. left. unfold Rleb.
    destruct (Rle_dec 0 (group_mu (resolved_table' phis) k)); [lra | reflexivity]. }
  exists (mkDataFrame posterior_columns []).
  split; [| reflexivity].
  rewrite (fail_posteriors_unfold _ _ _ _ _ _ phis Hp Hl Hfne Hpne).
  cbv zeta. rewrite Hkept. reflexivity.
Qed.

(** The unit conversions seen from one row of the sample table: depth is the
    fault model's depth times 1000, each moment stress is the fault model's
    value times 1e6, and these are the values the resolvers receive. *)
Lemma sample_row_units (phis : list R) (r : nat) :
  length phis = length r_priors_df ->
  (r < n_trials r_priors_df * n_points fault_df)%nat ->
  exists p ph f row,
    nth_error r_priors_df (r / n_points fault_df) = Some p /\
    nth_error phis (r / n_points fault_df) = Some ph /\
    nth_error fault_df (r mod n_points fault_df) = Some f /\
    nth_error (flat_map (block fault_df) (combine r_priors_df phis)) r = Some row /\
    depth row = z f * 1000 /\
    [mxx row; myy row; mxy row; mzz row; mxz row; myz row]
    = [xx_stress f * 1000000; yy_stress f * 1000000; xy_stress f * 1000000;
       zz_stress f * 1000000; xz_stress f * 1000000; yz_stress f * 1000000] /\
    let args :=
      mkStressArgs (f_strike f) (f_dip f) rho g
        (xx_stress f * 1000000) (yy_stress f * 1000000) (xy_stress f * 1000000)
        (zz_stress f * 1000000) (xz_stress f * 1000000) (yz_stress f * 1000000)
        (p_txx p) (p_tyy p) (p_txy p) (z f * 1000) in
    tau_s (resolve' row) = strike_shear args /\
    tau_d (resolve' row) = dip_shear args /\
    sig_n_eff (resolve' row) = eff_normal_stress args ph.
Proof.
  intros Hl Hr.
  destruct (search_df_row phis r Hl Hr) as [p [ph [f [Hp [Hph [Hf Hrow]]]]]].
  exists p, ph, f, (table_row p ph (r mod n_points fault_df) f).
  repeat (split; [assumption || reflexivity |]).
  repeat split.
Qed.

Lemma mapM_length {A B : Type} (f : A -> option B) (l : list A) (r : list B) :
  mapM f l = Some r -> length r = length l.
Proof.
  revert r. induction l as [|a t IH]; intros r Hm; simpl in Hm.
  - injection Hm as <-. reflexivity.
  - apply bind_Some in Hm. destruct Hm as [b [_ Hm]].
    apply bind_Some in Hm. destruct Hm as [bs [Hbs Hm]].
    injection Hm as <-. simpl. rewrite (IH bs Hbs). reflexivity.
Qed.

Lemma phi_priors_length (phis : list R) :
  phi_priors' = Some phis -> length phis = length r_priors_df.
Proof.
  intros Hp. unfold phi_priors, np_take in Hp.
  rewrite (mapM_length _ _ _ Hp). unfold r_index. apply length_map.
Qed.

(** Every row of the sample table is the row of some prior row and some
    fault point. *)
Lemma sample_row_origin (phis : list R) (sdf : list SearchRow) (r : SearchRow) :
  phi_priors' = Some phis -> search_df' phis = Some sdf -> In r sdf ->
  exists p ph j f, In p r_priors_df /\ In f fault_df /\ r = table_row p ph j f.
Proof.
  intros Hp Hs Hin.
  assert (Hfne : fault_df <> []).
  { intros E. rewrite (search_df_empty fault_df r_priors_df phis (or_introl E)) in Hs.
    discriminate. }
  assert (Hpne : r_priors_df <> []).
  { intros E. rewrite (search_df_empty fault_df r_priors_df phis (or_intror E)) in Hs.
    discriminate. }
  rewrite (search_df_blocks fault_df r_priors_df phis Hfne Hpne
             (phi_priors_length phis Hp)) in Hs.
  injection Hs as <-.
  apply in_flat_map in Hin. destruct Hin as [[p ph] [Hpp Hb]].
  unfold block in Hb. apply in_map_iff in Hb.
  destruct Hb as [[j f] [<- Hjf]].
  exists p, ph, j, f. split; [apply (in_combine_l _ _ _ _ Hpp) |].
  split; [| reflexivity].
  apply in_enumerate in Hjf. apply nth_error_In in Hjf. exact Hjf.
Qed.

End FailureClaims.

(** * The failure notebook on concrete tables *)

Module FailureRuns.

Import Failure.
Import FailureData.

Lemma priors2_in_range :
  Forall (fun i => (-10000 <= i < 10000)%Z) (r_index priors2).
Proof. repeat constructor; simpl; lia. Defined.

Lemma priors2_distinct : NoDup (r_index priors2).
Proof.
  repeat constructor; simpl; intuition (try discriminate).
Defined.

Lemma fault2_nonempty : fault2 <> [].
Proof. discriminate. Defined.

Lemma priors2_nonempty : priors2 <> [].
Proof. discriminate. Defined.

Lemma C1_witness :
  exists phis sdf,
    phi_priors draws priors2 = Some phis /\
    search_df fault2 priors2 phis = Some sdf /\
    forall i p, nth_error priors2 i = Some p ->
      exists ph, nth_error phis i = Some ph /\
        series_lookup (mu_iter (map (resolve shear3 shear4 normal10 fault2) sdf))
          (p_index p)
        = Some (spec_mu shear3 shear4 normal10 fault2 p ph).
Proof.
  exact (C1_mu_is_ratio_of_means shear3 shear4 normal10 draws fault2 priors2
           priors2_in_range priors2_distinct fault2_nonempty priors2_nonempty).
Defined.

Lemma C2_witness :
  exists out,
    fail_posteriors shear3 shear4 normal10 draws fault2 priors2 = Some out /\
    forall k vals, In (k, vals) (rows out) -> 0 <= nth 3 vals 0 <= 1.
Proof.
  destruct (C2_filter_keeps_unit_interval shear3 shear4 normal10 draws fault2
              priors2 priors2_in_range priors2_distinct fault2_nonempty
              priors2_nonempty)
    as [phis [sdf [out [_ [_ [Hout [_ [_ [_ Hrows]]]]]]]]].
  exists out. split; [exact Hout |].
  intros k vals Hin. destruct (Hrows k vals Hin) as [m [_ [Hm <-]]]. exact Hm.
Defined.

Lemma C8_witness :
  exists out,
    fail_posteriors shear3 shear4 normal10 draws fault2 priors2 = Some out /\
    columns out = ["txx"; "tyy"; "txy"; "mu"; "phi"; "likelihood"]%string /\
    NoDup (map fst (rows out)) /\
    forall k vals, In (k, vals) (rows out) ->
      exists p, In p priors2 /\ k = p_index p /\
        nth 0 vals 0 = mean (repeat (p_txx p) 2) /\
        nth 5 vals 0 = p_likelihood p.
Proof.
  destruct (C8_posterior_rows shear3 shear4 normal10 draws fault2 priors2
              priors2_in_range priors2_distinct fault2_nonempty
              priors2_nonempty)
    as [phis [sdf [out [_ [_ [Hout [Hcols [Hnd Hrows]]]]]]]].
  exists out. split; [exact Hout |]. split; [exact Hcols |].
  split; [exact Hnd |].
  intros k vals Hin. apply Hrows in Hin.
  destruct Hin as [m [i [p [ph [_ [Hi [_ [Hk ->]]]]]]]].
  exists p. split; [apply (nth_error_In _ i); exact Hi |].
  split; [exact Hk |]. split; reflexivity.
Defined.

Lemma C9_witness :
  exists phis sdf,
    phi_priors draws priors2 = Some phis /\
    search_df fault2 priors2 phis = Some sdf /\
    length sdf = 4%nat.
Proof.
  destruct (C9_table_is_iteration_major draws fault2 priors2 priors2_in_range
              fault2_nonempty priors2_nonempty)
    as [phis [sdf [Hp [Hs [Hl _]]]]].
  exists phis, sdf. split; [exact Hp |]. split; [exact Hs | exact Hl].
Defined.

Lemma negative_run_all_negative :
  all_normal_stress_negative shear3 shear4 normal_neg draws fault2 priors2.
Proof.
  intros phis sdf r _ _ _. simpl. unfold normal_neg. lra.
Defined.

Lemma fault2_slips : forall f, In f fault2 -> 0 <= f_slip_m f.
Proof.
  intros f [<- | [<- | []]]; simpl; lra.
Defined.

Lemma negative_run_sheared :
  every_iteration_sheared shear3 shear4 normal_neg draws fault2 priors2.
Proof.
  intros phis sdf k Hp Hs Hk.
  apply in_map_iff in Hk. destruct Hk as [r [Hk Hr]].
  exists r. split; [exact Hr |]. split; [exact Hk |].
  destruct (sample_row_origin draws fault2 priors2 phis sdf r Hp Hs Hr)
    as [p [ph [j [f [_ [Hf ->]]]]]].
  split.
  - destruct Hf as [<- | [<- | []]]; simpl; lra.
  - simpl. unfold shear3, shear4. apply sqrt_lt_R0. lra.
Defined.

Lemma C7_witness :
  retains_nothing shear3 shear4 normal_neg draws fault2 priors2.
Proof.
  exact (C7_no_iteration_retained shear3 shear4 normal_neg draws fault2 priors2
           priors2_in_range fault2_nonempty priors2_nonempty
           negative_run_all_negative fault2_slips negative_run_sheared).
Defined.

(** In binary64 the mean of two copies of 0.1 is 0.1. *)
Lemma two_copies_exact : entry_is_prior_value tenth64 2.
Proof. unfold entry_is_prior_value. vm_compute. reflexivity. Qed.

(** C8 as first worded fails: for an iteration with three fault points and
    a prior value of 0.1, the posterior entry is the binary64 mean of three
    copies of 0.1, which is 0.10000000000000002 and not 0.1.  (The exact sum
    of the three copies lies halfway between two doubles and rounds to
    0.30000000000000004, so a compensated summation gives the same.) *)
Lemma C8_counterexample : ~ entry_is_prior_value tenth64 3.
Proof.
  unfold entry_is_prior_value. intros H.
  apply (f_equal (fun x => PrimFloat.eqb x tenth64)) in H.
  vm_compute in H. discriminate.
Qed.

(** With no shear anywhere the friction estimate is zero. *)
Lemma zero_shear_mu (ph : R) :
  spec_mu no_shear no_shear normal_neg fault1 (mkPriorRow 0 0 0 0 1) ph = 0.
Proof.
  unfold spec_mu, spec_tau_mag, spec_sig_n_eff, no_shear, normal_neg, mean,
    fault1.
  simpl.
  replace (0 * (0 * 1) + 0 * (0 * 1)) with 0 by ring.
  rewrite sqrt_0. field.
Qed.

(** C7 as first worded fails: one fault point with no shear and negative
    effective normal stress gives a friction estimate of 0, which lies in
    [0, 1], so the iteration is retained. *)
Lemma C7_counterexample :
  ~ (all_normal_stress_negative no_shear no_shear normal_neg draws fault1 priors1 ->
     retains_nothing no_shear no_shear normal_neg draws fault1 priors1).
Proof.
  intros Hclaim.
  assert (Hneg : all_normal_stress_negative no_shear no_shear normal_neg draws
                   fault1 priors1).
  { intros phis sdf r _ _ _. simpl. unfold normal_neg. lra. }
  destruct (Hclaim Hneg) as [out [Hout Hrows]].
  assert (Hr : Forall (fun i => (-10000 <= i < 10000)%Z) (r_index priors1))
    by (repeat constructor; simpl; lia).
  assert (Hnd : NoDup (r_index priors1))
    by (repeat constructor; simpl; intuition).
  destruct (phi_priors_defined draws priors1 Hr) as [phis [Hp Hl]].
  assert (Hfne : fault1 <> []) by discriminate.
  assert (Hpne : priors1 <> []) by discriminate.
  rewrite (fail_posteriors_rows no_shear no_shear normal_neg draws fault1
             priors1 phis Hp Hl Hnd Hfne Hpne) in Hout.
  injection Hout as <-. simpl in Hrows.
  apply map_eq_nil in Hrows.
  destruct phis as [|ph [|? ?]]; try discriminate.
  assert (Hin : In (mkPriorRow 0 0 0 0 1, ph) (combine priors1 [ph]))
    by (left; reflexivity).
  assert (Hk : In 0%Z (kept_keys (resolved_table no_shear no_shear normal_neg
                                    fault1 priors1 [ph]))).
  { apply kept_keys_In. split.
    - apply (key_present no_shear no_shear normal_neg fault1 priors1 [ph]
               (mkPriorRow 0 0 0 0 1) ph); [discriminate | exact Hin].
    - pose proof (group_mu_spec no_shear no_shear normal_neg fault1 priors1 [ph]
                    (mkPriorRow 0 0 0 0 1) ph Hl Hnd Hin) as Hmu.
      change (p_index (mkPriorRow 0 0 0 0 1)) with 0%Z in Hmu.
      rewrite Hmu, zero_shear_mu. lra. }
  rewrite Hrows in Hk. contradiction.
Qed.

(** The run behind the counterexample to C7, in full: the one iteration is
    retained with a friction estimate of 0. *)
Lemma zero_shear_run :
  fail_posteriors no_shear no_shear normal_neg draws fault1 priors1
  = Some (mkDataFrame posterior_columns [(0%Z, [0; 0; 0; 0; draws 0; 1])]).
Proof.
  assert (Hr : Forall (fun i => (-10000 <= i < 10000)%Z) (r_index priors1))
    by (repeat constructor; simpl; lia).
  assert (Hnd : NoDup (r_index priors1))
    by (repeat constructor; simpl; intuition).
  assert (Hp : phi_priors draws priors1 = Some [draws 0])
    by (rewrite (phi_priors_values draws priors1 Hr); reflexivity).
  assert (Hl : length [draws 0] = length priors1) by reflexivity.
  assert (Hne : fault1 <> []) by discriminate.
  assert (Hin : In (mkPriorRow 0 0 0 0 1, draws 0) (combine priors1 [draws 0]))
    by (left; reflexivity).
  assert (Hpne : priors1 <> []) by discriminate.
  rewrite (fail_posteriors_rows no_shear no_shear normal_neg draws fault1
             priors1 [draws 0] Hp Hl Hnd Hne Hpne).
  set (df := resolved_table no_shear no_shear normal_neg fault1 priors1 [draws 0]).
  pose proof (group_mu_spec no_shear no_shear normal_neg fault1 priors1
                [draws 0] (mkPriorRow 0 0 0 0 1) (draws 0) Hl Hnd Hin) as Hmu.
  change (p_index (mkPriorRow 0 0 0 0 1)) with 0%Z in Hmu.
  rewrite zero_shear_mu in Hmu. fold df in Hmu.
  assert (Hkept : kept_keys df = [0%Z]).
  { unfold kept_keys.
    assert (Hkeys : group_keys df = [0%Z]) by reflexivity.
    rewrite Hkeys. unfold filter.
    replace (Rleb 0 (group_mu df 0) && Rleb (group_mu df 0) 1) with true;
      [reflexivity |].
    symmetry. apply in_unit_interval. rewrite Hmu. lra. }
  rewrite Hkept. unfold map at 1.
  pose proof (posterior_row_values no_shear no_shear normal_neg fault1 priors1
                [draws 0] (mkPriorRow 0 0 0 0 1) (draws 0) Hl Hnd Hne Hin) as Hrow.
  cbv zeta in Hrow.
  change (p_index (mkPriorRow 0 0 0 0 1)) with 0%Z in Hrow.
  fold df in Hrow. rewrite Hrow, zero_shear_mu. reflexivity.
Qed.

(** The run behind the counterexample to C10: label -1 selects the last of
    the 10000 draws. *)
Lemma negative_label_draw :
  phi_priors draws priors_neg = Some [draws (Z.to_nat 9999)].
Proof.
  rewrite (phi_priors_values draws priors_neg)
    by (repeat constructor; simpl; lia).
  reflexivity.
Qed.

(** C10 as first worded fails: a prior table whose only label is -1 runs
    through, the label selecting the last draw. *)
Lemma C10_counterexample :
  ~ runs_only_on_nonnegative_labels shear3 shear4 normal10 draws fault2 priors_neg.
Proof.
  intros Hclaim.
  assert (Hr : Forall (fun i => (-10000 <= i < 10000)%Z) (r_index priors_neg))
    by (repeat constructor; simpl; lia).
  assert (Hnd : NoDup (r_index priors_neg))
    by (repeat constructor; simpl; intuition).
  destruct (phi_priors_defined draws priors_neg Hr) as [phis [Hp Hl]].
  assert (Hrun : fail_posteriors shear3 shear4 normal10 draws fault2 priors_neg
                 <> None).
  { assert (Hpne : priors_neg <> []) by discriminate.
    rewrite (fail_posteriors_rows shear3 shear4 normal10 draws fault2
               priors_neg phis Hp Hl Hnd fault2_nonempty Hpne). discriminate. }
  specialize (Hclaim Hrun). inversion Hclaim as [|? ? Hbad _]; subst.
  simpl in Hbad. lia.
Qed.

End FailureRuns.

(** * Facts about the array model *)

Section ArrayFacts.

Lemma bcast_dim_same (n : nat) : bcast_dim n n = Some n.
Proof. unfold bcast_dim. rewrite Nat.eqb_refl. reflexivity. Qed.

Lemma bidx_inside (dim i : nat) : (i < dim)%nat -> bidx dim i = i.
Proof.
  intros Hi. unfold bidx. destruct (Nat.eqb_spec dim 1); [lia | reflexivity].
Qed.


Lemma np_binop2_same_shape (op : R -> R -> R) (a b : array2) :
  shape2 b = shape2 a ->
  exists c, np_binop2 op a b = Some c /\ shape2 c = shape2 a /\
    forall i j, (i < fst (shape2 a))%nat -> (j < snd (shape2 a))%nat ->
      get2 c i j = op (get2 a i j) (get2 b i j).
Proof.
  intros Hs. unfold np_binop2. rewrite Hs, !bcast_dim_same. simpl.
  eexists. split; [reflexivity |]. split.
  - simpl. destruct (shape2 a). reflexivity.
  - intros i j Hi Hj. simpl. rewrite !bidx_inside by assumption. reflexivity.
Qed.

Lemma np_add3_same_shape (a b : array3) :
  shape3 b = shape3 a ->
  exists c, np_add3 a b = Some c /\ shape3 c = shape3 a /\
    forall i j k, (i < dim0 a)%nat -> (j < dim1 a)%nat -> (k < dim2 a)%nat ->
      get3 c i j k = get3 a i j k + get3 b i j k.
Proof.
  intros Hs. unfold np_add3, dim0, dim1, dim2. rewrite Hs, !bcast_dim_same.
  simpl. eexists. split; [reflexivity |]. split.
  - simpl. destruct (shape3 a) as [[? ?] ?]. reflexivity.
  - intros i j k Hi Hj Hk. simpl. rewrite !bidx_inside by assumption.
    reflexivity.
Qed.

Lemma set_slice_spec (a : array3) (k : nat) (v : array2) :
  (k < dim2 a)%nat -> shape2 v = (dim0 a, dim1 a) ->
  exists a', set_slice a k v = Some a' /\ shape3 a' = shape3 a /\
    (forall i j, (i < dim0 a)%nat -> (j < dim1 a)%nat ->
       get3 a' i j k = get2 v i j) /\
    (forall i j k', k' <> k -> get3 a' i j k' = get3 a i j k').
Proof.
  intros Hk Hs. unfold set_slice, fits. rewrite Hs. simpl.
  rewrite !Nat.eqb_refl. simpl.
  destruct (Nat.ltb_spec k (dim2 a)); [| lia]. simpl.
  eexists. split; [reflexivity |]. split; [reflexivity |]. split.
  - intros i j Hi Hj. simpl. rewrite Nat.eqb_refl.
    rewrite !bidx_inside by assumption. reflexivity.
  - intros i j k' Hne. simpl.
    destruct (Nat.eqb_spec k' k); [contradiction | reflexivity].
Qed.

Lemma fill_slices_pairs (conv : R -> array2) (zs : list (nat * R)) :
  forall a,
  NoDup (map fst zs) ->
  (forall iz, In iz zs ->
     (fst iz < dim2 a)%nat /\ shape2 (conv (snd iz)) = (dim0 a, dim1 a)) ->
  exists a', fill_slices conv a zs = Some a' /\ shape3 a' = shape3 a /\
    (forall i j k zz, (i < dim0 a)%nat -> (j < dim1 a)%nat -> In (k, zz) zs ->
       get3 a' i j k = get2 (conv zz) i j) /\
    (forall i j k, ~ In k (map fst zs) -> get3 a' i j k = get3 a i j k).
Proof.
  induction zs as [|[k0 z0] t IH]; intros a Hnd Hall.
  - exists a. split; [reflexivity |]. split; [reflexivity |]. split.
    + intros i j k zz _ _ [].
    + reflexivity.
  - simpl in Hnd. inversion Hnd as [|? ? Hnot Hnd']; subst.
    destruct (Hall (k0, z0) (or_introl eq_refl)) as [Hk0 Hs0]. simpl in Hk0, Hs0.
    destruct (set_slice_spec a k0 (conv z0) Hk0 Hs0)
      as [a1 [Hset [Hsh1 [Hval1 Hold1]]]].
    assert (Hd0 : dim0 a1 = dim0 a) by (unfold dim0; rewrite Hsh1; reflexivity).
    assert (Hd1 : dim1 a1 = dim1 a) by (unfold dim1; rewrite Hsh1; reflexivity).
    assert (Hd2 : dim2 a1 = dim2 a) by (unfold dim2; rewrite Hsh1; reflexivity).
    destruct (IH a1 Hnd') as [a' [Hfill [Hsh [Hval Hold]]]].
    { intros iz Hiz. rewrite Hd0, Hd1, Hd2. apply Hall. right. exact Hiz. }
    exists a'. split.
    { unfold fill_slices in *. simpl. rewrite Hset. exact Hfill. }
    split; [rewrite Hsh; exact Hsh1 |]. split.
    + intros i j k zz Hi Hj [Heq | Hin].
      * injection Heq as <- <-. rewrite (Hold i j k0 Hnot).
        apply Hval1; assumption.
      * apply Hval; [rewrite Hd0 | rewrite Hd1 |]; assumption.
    + intros i j k Hk. simpl in Hk.
      rewrite Hold by tauto. apply Hold1. intros ->. tauto.
Qed.

Lemma fill_slices_enumerate (conv : R -> array2) (a : array3) (zvec : list R) :
  length zvec = dim2 a ->
  (forall zz, In zz zvec -> shape2 (conv zz) = (dim0 a, dim1 a)) ->
  exists a', fill_slices conv a (enumerate zvec) = Some a' /\
    shape3 a' = shape3 a /\
    forall i j k zz, (i < dim0 a)%nat -> (j < dim1 a)%nat ->
      nth_error zvec k = Some zz -> get3 a' i j k = get2 (conv zz) i j.
Proof.
  intros Hlen Hshape.
  destruct (fill_slices_pairs conv (enumerate zvec) a) as [a' [Hf [Hs [Hv _]]]].
  - unfold enumerate. rewrite map_fst_combine_seq. apply seq_NoDup.
  - intros [k zz] Hin. apply in_enumerate in Hin. simpl in *. split.
    + rewrite <- Hlen. apply nth_error_Some. congruence.
    + apply Hshape. apply (nth_error_In _ _ Hin).
  - exists a'. split; [exact Hf |]. split; [exact Hs |].
    intros i j k zz Hi Hj Hk. apply Hv; try assumption.
    apply (nth_error_In _ k). apply nth_error_enumerate. exact Hk.
Qed.

End ArrayFacts.

(** * Facts about the stress-field notebook *)

Section ConfigFacts.

Import StressField.

Variable x_res_m : R.

Local Notation study_res' := (study_res x_res_m).
Local Notation z_vec' := (z_vec x_res_m).
Local Notation z_len' := (z_len x_res_m).

Lemma z_len_is_27 : z_len' = 27%nat.
Proof.
  unfold z_len, z_max, z_res.
  replace (z_min x_res_m + 26000 - z_min x_res_m)%Z with 26000%Z by lia.
  replace (IZR 26000 / IZR 1000 + 1) with (IZR 27) by lra.
  rewrite np_int_IZR. reflexivity.
Qed.

Lemma study_res_positive : 1 <= x_res_m -> (1 <= study_res')%Z.
Proof.
  intros Hx. unfold study_res, np_int_.
  destruct (Rle_dec 0 x_res_m) as [_ | Hn]; [| lra].
  destruct (base_Int_part x_res_m) as [_ Hlow].
  assert (H0 : 0 < IZR (Int_part x_res_m)) by lra.
  apply lt_IZR in H0. lia.
Qed.

Lemma depth_level (k : nat) :
  (k < 27)%nat ->
  nth_error z_vec' k = Some (IZR study_res' + 1000 * INR k).
Proof.
  intros Hk. unfold z_vec, np_linspace. rewrite z_len_is_27.
  rewrite nth_error_map.
  rewrite (nth_error_nth' (seq 0 27) 0%nat) by (rewrite length_seq; exact Hk).
  rewrite seq_nth by exact Hk. simpl option_map. f_equal.
  unfold z_max, z_min, study_res. rewrite plus_IZR.
  replace (INR (27 - 1)) with 26 by (simpl; lra).
  simpl Nat.add. field.
Qed.

(** With a resolution of at least one metre the configuration cell runs
    through; with [study_res] equal to 0 it raises. *)
Lemma kernel_len_checked_Some :
  1 <= x_res_m -> kernel_len_checked x_res_m = Some (kernel_len x_res_m).
Proof.
  intros Hx. pose proof (study_res_positive Hx) as Hs.
  unfold kernel_len_checked.
  destruct (Z.eqb_spec study_res' 0) as [E | _]; [lia | reflexivity].
Qed.

Lemma kernel_len_checked_None :
  study_res' = 0%Z -> kernel_len_checked x_res_m = None.
Proof. intros E. unfold kernel_len_checked. rewrite E. reflexivity. Qed.

End ConfigFacts.

Section StressFacts.

Import StressField.

Variable do_b_convo :
  component -> R -> R -> array2 -> string -> conv_mode -> R -> R -> array2.
Variable do_c_convo :
  component -> direction -> R -> array2 -> R -> R -> conv_mode -> array2.
Variable dem : array2.
Variable x_res_m : R.

Local Notation study_res' := (study_res x_res_m).
Local Notation z_vec' := (z_vec x_res_m).
Local Notation z_len' := (z_len x_res_m).
Local Notation kernel_len' := (kernel_len x_res_m).
Local Notation kernel_shape' := (kernel_shape x_res_m).
Local Notation topo' := (topo dem).
Local Notation b_out' := (b_out dem x_res_m).
Local Notation b_dataset' := (b_dataset do_b_convo dem x_res_m).
Local Notation b_top' := (b_top do_b_convo dem x_res_m).
Local Notation topo_c' := (topo_c do_b_convo dem x_res_m).
Local Notation topo_grad' := (topo_grad do_b_convo dem x_res_m).
Local Notation Fh_x' := (Fh_x do_b_convo dem x_res_m).
Local Notation Fh_y' := (Fh_y do_b_convo dem x_res_m).
Local Notation Fh' := (Fh do_b_convo dem x_res_m).
Local Notation cerr' := (cerr do_b_convo do_c_convo dem x_res_m).
Local Notation total' := (total do_b_convo do_c_convo dem x_res_m).
Local Notation b_conv' := (b_conv do_b_convo dem x_res_m).
Local Notation c_conv' := (c_conv do_c_convo x_res_m).
Local Notation crop0' := (crop0 dem x_res_m).
Local Notation crop1' := (crop1 dem x_res_m).

(** The shape contracts of the two convolutions, as the convolution engine
    is specified: the output shape follows [size_output]. *)
Hypothesis b_conv_shape : forall comp zz,
  shape2 (b_conv' comp zz) = size_output kernel_shape' (shape2 topo') b_conv_mode.
Hypothesis c_conv_shape : forall comp d load zz,
  shape2 (c_conv' comp d load zz)
  = size_output kernel_shape' (shape2 load) c_conv_mode.

(** The kernel is at least one pixel wide and strictly narrower than the
    DEM, so that the cropped grid has two points along each axis. *)
Hypothesis kernel_fits :
  (1 <= kernel_len')%nat /\
  (kernel_len' < fst (shape2 dem))%nat /\
  (kernel_len' < snd (shape2 dem))%nat.

(** The grid resolution is at least one metre: below, [study_res] is 0 and
    the configuration cell raises [ZeroDivisionError]. *)
Hypothesis resolution_positive : 1 <= x_res_m.

Lemma z_len_value : z_len' = 27%nat.
Proof.
  unfold z_len, z_max, z_res.
  replace (z_min x_res_m + 26000 - z_min x_res_m)%Z with 26000%Z by lia.
  replace (IZR 26000 / IZR 1000 + 1) with (IZR 27) by lra.
  rewrite np_int_IZR. reflexivity.
Qed.

Lemma z_vec_length : length z_vec' = z_len'.
Proof. unfold z_vec, np_linspace. rewrite length_map. apply length_seq. Qed.

Lemma b_out_value :
  b_out' = (fst (shape2 dem) + 1 - kernel_len', snd (shape2 dem) + 1 - kernel_len')%nat.
Proof. reflexivity. Qed.

Lemma b_dataset_spec (comp : component) :
  exists b, b_dataset' comp = Some b /\
    shape3 b = (fst b_out', snd b_out', z_len') /\
    forall i j k zz, (i < fst b_out')%nat -> (j < snd b_out')%nat ->
      nth_error z_vec' k = Some zz ->
      get3 b i j k = get2 (b_conv' comp zz) i j * Pa_to_MPa.
Proof.
  unfold b_dataset.
  rewrite (kernel_len_checked_Some x_res_m resolution_positive). simpl bind.
  destruct (fill_slices_enumerate (b_conv' comp) (b_stress dem x_res_m) z_vec')
    as [a [Hf [Hs Hv]]].
  - apply z_vec_length.
  - intros zz _. rewrite b_conv_shape. reflexivity.
  - change (fill_slices _ (b_stress dem x_res_m) (enumerate z_vec'))
      with (fill_slices (b_conv' comp) (b_stress dem x_res_m) (enumerate z_vec')).
    rewrite Hf. simpl. eexists. split; [reflexivity |]. split.
    + simpl. exact Hs.
    + intros i j k zz Hi Hj Hk. simpl. rewrite (Hv i j k zz Hi Hj Hk).
      reflexivity.
Qed.

Lemma b_top_spec (comp : component) :
  exists s zz, b_top' comp = Some s /\ nth_error z_vec' 0 = Some zz /\
    shape2 s = b_out' /\
    forall i j, (i < fst b_out')%nat -> (j < snd b_out')%nat ->
      get2 s i j = get2 (b_conv' comp zz) i j * Pa_to_MPa * MPa_to_Pa.
Proof.
  destruct (b_dataset_spec comp) as [b [Hb [Hs Hv]]].
  assert (Hz : exists zz, nth_error z_vec' 0 = Some zz).
  { apply nth_error_defined. rewrite z_vec_length, z_len_value. lia. }
  destruct Hz as [zz Hz].
  unfold b_top. rewrite Hb. simpl.
  unfold slice3, dim2. rewrite Hs. simpl. rewrite z_len_value. simpl.
  eexists. exists zz. split; [reflexivity |]. split; [exact Hz |]. split.
  - reflexivity.
  - intros i j Hi Hj. simpl. rewrite (Hv i j 0%nat zz Hi Hj Hz). reflexivity.
Qed.

Lemma topo_c_spec :
  exists t, topo_c' = Some t /\ shape2 t = b_out' /\
    forall i j, get2 t i j = get2 topo' (i + crop0') (j + crop1').
Proof.
  destruct (b_top_spec xx) as [s [zz [Hs [_ [Hsh _]]]]].
  unfold topo_c. rewrite Hs. simpl. rewrite Hsh.
  unfold _centered. destruct kernel_fits as [H1 [H2 H3]].
  rewrite b_out_value. simpl fst. simpl snd.
  destruct (Nat.leb_spec (fst (shape2 dem) + 1 - kernel_len') (fst (shape2 dem)));
    [| lia].
  destruct (Nat.leb_spec (snd (shape2 dem) + 1 - kernel_len') (snd (shape2 dem)));
    [| lia].
  simpl. eexists. split; [reflexivity |]. split; reflexivity.
Qed.

Lemma b_out_two : (2 <= fst b_out')%nat /\ (2 <= snd b_out')%nat.
Proof.
  rewrite b_out_value. destruct kernel_fits as [H1 [H2 H3]]. simpl. lia.
Qed.

Lemma topo_grad_spec :
  exists t dy dx, topo_c' = Some t /\ topo_grad' = Some (dy, dx) /\
    shape2 dy = b_out' /\ shape2 dx = b_out' /\
    (forall i j, get2 dy i j
       = grad_axis (IZR study_res') (fst b_out') (fun i' => get2 t i' j) i) /\
    (forall i j, get2 dx i j
       = grad_axis (IZR study_res') (snd b_out') (fun j' => get2 t i j') j).
Proof.
  destruct topo_c_spec as [t [Ht [Hsh _]]].
  destruct b_out_two as [H0 H1].
  unfold topo_grad. rewrite Ht. simpl. unfold np_gradient. rewrite Hsh.
  destruct (Nat.leb_spec 2 (fst b_out')); [| lia].
  destruct (Nat.leb_spec 2 (snd b_out')); [| lia].
  simpl. exists t. eexists. eexists.
  split; [reflexivity |]. split; [reflexivity |].
  repeat split; simpl; try exact Hsh; intros i j; rewrite Hsh; reflexivity.
Qed.

(** One horizontal loading function, written once for both directions:
    [own] is the normal Boussinesq stress of the direction (xx or yy), [d_own]
    the slope along it and [d_other] the slope across it. *)
Lemma loading_function (t d_own d_other b_own b_xy : array2) :
  shape2 t = b_out' -> shape2 d_own = b_out' -> shape2 d_other = b_out' ->
  shape2 b_own = b_out' -> shape2 b_xy = b_out' ->
  exists f,
    (Fht <- np_mul2 (np_scale2 t Fv) d_own ;;
     l <- np_mul2 b_own d_own ;;
     r <- np_mul2 b_xy d_other ;;
     Fhb <- np_add2 l r ;;
     np_add2 Fht Fhb) = Some f /\
    shape2 f = b_out' /\
    forall i j, (i < fst b_out')%nat -> (j < snd b_out')%nat ->
      get2 f i j
      = get2 t i j * Fv * get2 d_own i j
        + (get2 b_own i j * get2 d_own i j + get2 b_xy i j * get2 d_other i j).
Proof.
  intros Ht Ho Hx Hb Hxy.
  destruct (np_binop2_same_shape Rmult (np_scale2 t Fv) d_own)
    as [Fht [E1 [S1 V1]]]; [simpl; congruence |].
  simpl in S1.
  destruct (np_binop2_same_shape Rmult b_own d_own)
    as [l [E2 [S2 V2]]]; [congruence |].
  destruct (np_binop2_same_shape Rmult b_xy d_other)
    as [r [E3 [S3 V3]]]; [congruence |].
  destruct (np_binop2_same_shape Rplus l r)
    as [Fhb [E4 [S4 V4]]]; [congruence |].
  destruct (np_binop2_same_shape Rplus Fht Fhb)
    as [f [E5 [S5 V5]]]; [congruence |].
  exists f. unfold np_mul2, np_add2. rewrite E1. simpl. rewrite E2. simpl.
  rewrite E3. simpl. rewrite E4. simpl. rewrite E5.
  split; [reflexivity |]. split; [congruence |].
  intros i j Hi Hj.
  rewrite V5 by (rewrite S1, Ht; assumption).
  rewrite V1 by (simpl; rewrite Ht; assumption).
  rewrite V4 by (rewrite S2, Hb; assumption).
  rewrite V2 by (rewrite Hb; assumption).
  rewrite V3 by (rewrite Hxy; assumption).
  reflexivity.
Qed.

Lemma Fh_x_spec :
  exists t dy dx b_xx_top b_xy_top f,
    topo_c' = Some t /\ topo_grad' = Some (dy, dx) /\
    b_top' xx = Some b_xx_top /\ b_top' xy = Some b_xy_top /\
    Fh_x' = Some f /\ shape2 f = b_out' /\
    forall i j, (i < fst b_out')%nat -> (j < snd b_out')%nat ->
      get2 f i j
      = get2 t i j * Fv * get2 dx i j
        + (get2 b_xx_top i j * get2 dx i j + get2 b_xy_top i j * get2 dy i j).
Proof.
  destruct topo_grad_spec as [t [dy [dx [Ht [Hg [Sy [Sx _]]]]]]].
  destruct topo_c_spec as [t' [Ht' [St _]]].
  rewrite Ht in Ht'. injection Ht' as <-.
  destruct (b_top_spec xx) as [bxx [? [Hbxx [_ [Sbxx _]]]]].
  destruct (b_top_spec xy) as [bxy [? [Hbxy [_ [Sbxy _]]]]].
  destruct (loading_function t dx dy bxx bxy St Sx Sy Sbxx Sbxy)
    as [f [Hf [Sf Vf]]].
  exists t, dy, dx, bxx, bxy, f.
  repeat (split; [assumption |]).
  split; [| split; assumption].
  unfold Fh_x. rewrite Ht, Hg, Hbxx, Hbxy. simpl. exact Hf.
Qed.

Lemma Fh_y_spec :
  exists t dy dx b_yy_top b_xy_top f,
    topo_c' = Some t /\ topo_grad' = Some (dy, dx) /\
    b_top' yy = Some b_yy_top /\ b_top' xy = Some b_xy_top /\
    Fh_y' = Some f /\ shape2 f = b_out' /\
    forall i j, (i < fst b_out')%nat -> (j < snd b_out')%nat ->
      get2 f i j
      = get2 t i j * Fv * get2 dy i j
        + (get2 b_yy_top i j * get2 dy i j + get2 b_xy_top i j * get2 dx i j).
Proof.
  destruct topo_grad_spec as [t [dy [dx [Ht [Hg [Sy [Sx _]]]]]]].
  destruct topo_c_spec as [t' [Ht' [St _]]].
  rewrite Ht in Ht'. injection Ht' as <-.
  destruct (b_top_spec yy) as [byy [? [Hbyy [_ [Sbyy _]]]]].
  destruct (b_top_spec xy) as [bxy [? [Hbxy [_ [Sbxy _]]]]].
  destruct (loading_function t dy dx byy bxy St Sy Sx Sbyy Sbxy)
    as [f [Hf [Sf Vf]]].
  exists t, dy, dx, byy, bxy, f.
  repeat (split; [assumption |]).
  split; [| split; assumption].
  unfold Fh_y. rewrite Ht, Hg, Hbyy, Hbxy. simpl. exact Hf.
Qed.

Lemma Fh_defined (d : direction) :
  exists f, Fh' d = Some f /\ shape2 f = b_out'.
Proof.
  destruct d; simpl.
  - destruct Fh_x_spec as [? [? [? [? [? [f [_ [_ [_ [_ [Hf [Sf _]]]]]]]]]]]].
    exists f. split; assumption.
  - destruct Fh_y_spec as [? [? [? [? [? [f [_ [_ [_ [_ [Hf [Sf _]]]]]]]]]]]].
    exists f. split; assumption.
Qed.

Lemma cerr_spec (d : direction) (comp : component) :
  exists load c, Fh' d = Some load /\ cerr' d comp = Some c /\
    shape3 c = (fst b_out', snd b_out', z_len') /\
    forall i j k zz, (i < fst b_out')%nat -> (j < snd b_out')%nat ->
      nth_error z_vec' k = Some zz ->
      get3 c i j k = get2 (c_conv' comp d load zz) i j * Pa_to_MPa.
Proof.
  destruct (Fh_defined d) as [load [Hl Sl]].
  destruct topo_c_spec as [t [Ht [St _]]].
  unfold cerr, c_x. rewrite Ht, Hl. simpl. rewrite St.
  destruct (fill_slices_enumerate
              (fun zz => np_scale2 (c_conv' comp d load zz) Pa_to_MPa)
              (np_zeros3 (fst b_out', snd b_out', z_len')) z_vec')
    as [c [Hf [Hs Hv]]].
  - apply z_vec_length.
  - intros zz _. simpl. rewrite c_conv_shape. simpl. rewrite Sl. reflexivity.
  - exists load, c. split; [reflexivity |]. split; [exact Hf |].
    split; [exact Hs |].
    intros i j k zz Hi Hj Hk. rewrite (Hv i j k zz Hi Hj Hk). reflexivity.
Qed.

Lemma total_spec (comp : component) :
  exists b cx cy t,
    b_dataset' comp = Some b /\ cerr' dir_x comp = Some cx /\
    cerr' dir_y comp = Some cy /\ total' comp = Some t /\
    shape3 b = (fst b_out', snd b_out', z_len') /\
    shape3 cx = shape3 b /\ shape3 cy = shape3 b /\ shape3 t = shape3 b /\
    forall i j k, (i < fst b_out')%nat -> (j < snd b_out')%nat ->
      (k < z_len')%nat ->
      get3 t i j k = get3 b i j k + get3 cx i j k + get3 cy i j k.
Proof.
  destruct (b_dataset_spec comp) as [b [Hb [Sb _]]].
  destruct (cerr_spec dir_x comp) as [? [cx [_ [Hcx [Scx _]]]]].
  destruct (cerr_spec dir_y comp) as [? [cy [_ [Hcy [Scy _]]]]].
  destruct (np_add3_same_shape b cx) as [s [Hs [Ss Vs]]]; [congruence |].
  destruct (np_add3_same_shape s cy) as [t [Ht [Stt Vt]]]; [congruence |].
  exists b, cx, cy, t.
  split; [exact Hb |]. split; [exact Hcx |]. split; [exact Hcy |].
  split; [unfold total; rewrite Hb, Hcx, Hcy; simpl; rewrite Hs; exact Ht |].
  split; [exact Sb |]. split; [congruence |]. split; [congruence |].
  split; [congruence |].
  intros i j k Hi Hj Hk.
  assert (D0 : dim0 b = fst b_out') by (unfold dim0; rewrite Sb; reflexivity).
  assert (D1 : dim1 b = snd b_out') by (unfold dim1; rewrite Sb; reflexivity).
  assert (D2 : dim2 b = z_len') by (unfold dim2; rewrite Sb; reflexivity).
  rewrite Vt by (unfold dim0, dim1, dim2 in *; rewrite Ss; lia).
  rewrite Vs by lia. reflexivity.
Qed.

(** C4.  For a resolution of at least one metre, a kernel narrower than
    the DEM and convolutions that keep their shape contracts: for every
    component, the array stored at the Combined stage is, at every position
    and depth index, the Boussinesq entry plus the Cerruti-x entry plus the
    Cerruti-y entry, with no further scaling. *)
Theorem C4_total_is_elementwise_sum (comp : component) :
  exists b cx cy t,
    b_dataset' comp = Some b /\
    cerr' dir_x comp = Some cx /\
    cerr' dir_y comp = Some cy /\
    total' comp = Some t /\
    shape3 t = shape3 b /\
    forall i j k, (i < dim0 t)%nat -> (j < dim1 t)%nat -> (k < dim2 t)%nat ->
      get3 t i j k = get3 b i j k + get3 cx i j k + get3 cy i j k.
Proof.
  destruct (total_spec comp)
    as [b [cx [cy [t [Hb [Hcx [Hcy [Ht [Sb [_ [_ [St V]]]]]]]]]]]].
  exists b, cx, cy, t.
  repeat (split; [assumption |]).
  intros i j k Hi Hj Hk.
  unfold dim0, dim1, dim2 in Hi, Hj, Hk. rewrite St, Sb in Hi, Hj, Hk.
  apply V; assumption.
Qed.


Lemma grad_axis_inner (h : R) (n : nat) (f : nat -> R) (i : nat) :
  (1 <= i)%nat -> (i + 1 < n)%nat ->
  grad_axis h n f i = (f (i + 1)%nat - f (i - 1)%nat) / (2 * h).
Proof.
  intros H1 H2. unfold grad_axis.
  destruct (Nat.eqb_spec i 0); [lia |].
  destruct (Nat.eqb_spec i (n - 1)); [lia | reflexivity].
Qed.

Lemma grad_axis_first (h : R) (n : nat) (f : nat -> R) :
  grad_axis h n f 0 = (f 1%nat - f 0%nat) / h.
Proof. reflexivity. Qed.

Lemma grad_axis_last (h : R) (n : nat) (f : nat -> R) :
  (2 <= n)%nat ->
  grad_axis h n f (n - 1) = (f (n - 1)%nat - f (n - 2)%nat) / h.
Proof.
  intros Hn. unfold grad_axis.
  destruct (Nat.eqb_spec (n - 1) 0); [lia |].
  rewrite Nat.eqb_refl. reflexivity.
Qed.

(** C3 (amended).  For a resolution of at least one metre, a kernel
    narrower than the DEM and a Boussinesq convolution that keeps its shape
    contract: with the topography cropped to the Boussinesq output
    shape and the top slices of the stored xx, xy, yy stresses multiplied
    back by 1e6, the two loading functions are, at every grid point,
    Fh_x = topo*Fv*dx + (bxx*dx + bxy*dy) and
    Fh_y = topo*Fv*dy + (byy*dy + bxy*dx).  The slopes are central
    differences over the two neighbours at interior rows and columns, and
    one-sided first differences on the first and last row and column. *)
Theorem C3_horizontal_loads :
  exists t dy dx b_xx_top b_xy_top b_yy_top fx fy z0,
    topo_c' = Some t /\ topo_grad' = Some (dy, dx) /\
    b_top' xx = Some b_xx_top /\ b_top' xy = Some b_xy_top /\
    b_top' yy = Some b_yy_top /\
    Fh_x' = Some fx /\ Fh_y' = Some fy /\
    nth_error z_vec' 0 = Some z0 /\
    let rows := fst (shape2 t) in
    let cols := snd (shape2 t) in
    let h := IZR study_res' in
    shape2 fx = shape2 t /\ shape2 fy = shape2 t /\
    (forall i j, (i < rows)%nat -> (j < cols)%nat ->
       get2 b_xx_top i j = get2 (b_conv' xx z0) i j * Pa_to_MPa * MPa_to_Pa /\
       get2 b_xy_top i j = get2 (b_conv' xy z0) i j * Pa_to_MPa * MPa_to_Pa /\
       get2 b_yy_top i j = get2 (b_conv' yy z0) i j * Pa_to_MPa * MPa_to_Pa /\
       get2 fx i j
       = get2 t i j * Fv * get2 dx i j
         + (get2 b_xx_top i j * get2 dx i j + get2 b_xy_top i j * get2 dy i j) /\
       get2 fy i j
       = get2 t i j * Fv * get2 dy i j
         + (get2 b_yy_top i j * get2 dy i j + get2 b_xy_top i j * get2 dx i j)) /\
    (forall i j, (1 <= j)%nat -> (j + 1 < cols)%nat ->
       get2 dx i j = (get2 t i (j + 1) - get2 t i (j - 1)) / (2 * h)) /\
    (forall i, get2 dx i 0 = (get2 t i 1 - get2 t i 0) / h) /\
    (forall i, get2 dx i (cols - 1)
               = (get2 t i (cols - 1) - get2 t i (cols - 2)) / h) /\
    (forall i j, (1 <= i)%nat -> (i + 1 < rows)%nat ->
       get2 dy i j = (get2 t (i + 1) j - get2 t (i - 1) j) / (2 * h)) /\
    (forall j, get2 dy 0 j = (get2 t 1 j - get2 t 0 j) / h) /\
    (forall j, get2 dy (rows - 1) j
               = (get2 t (rows - 1) j - get2 t (rows - 2) j) / h).
Proof.
  destruct topo_grad_spec as [t [dy [dx [Ht [Hg [Sy [Sx [Vy Vx]]]]]]]].
  destruct topo_c_spec as [t0 [Ht0 [St _]]].
  rewrite Ht in Ht0. injection Ht0 as <-.
  destruct (b_top_spec xx) as [bxx [z0 [Hbxx [Hz0 [_ Vxx]]]]].
  destruct (b_top_spec xy) as [bxy [z1 [Hbxy [Hz1 [_ Vxy]]]]].
  destruct (b_top_spec yy) as [byy [z2 [Hbyy [Hz2 [_ Vyy]]]]].
  rewrite Hz0 in Hz1, Hz2. injection Hz1 as <-. injection Hz2 as <-.
  destruct Fh_x_spec
    as [t1 [dy1 [dx1 [bxx1 [bxy1 [fx [Ht1 [Hg1 [Hx1 [Hy1 [Hfx [Sfx Vfx]]]]]]]]]]]].
  rewrite Ht in Ht1. rewrite Hg in Hg1. rewrite Hbxx in Hx1. rewrite Hbxy in Hy1.
  injection Ht1 as <-. injection Hg1 as <- <-.
  injection Hx1 as <-. injection Hy1 as <-.
  destruct Fh_y_spec
    as [t2 [dy2 [dx2 [byy2 [bxy2 [fy [Ht2 [Hg2 [Hx2 [Hy2 [Hfy [Sfy Vfy]]]]]]]]]]]].
  rewrite Ht in Ht2. rewrite Hg in Hg2. rewrite Hbyy in Hx2. rewrite Hbxy in Hy2.
  injection Ht2 as <-. injection Hg2 as <- <-.
  injection Hx2 as <-. injection Hy2 as <-.
  destruct b_out_two as [R2 C2].
  exists t, dy, dx, bxx, bxy, byy, fx, fy, z0.
  repeat (split; [assumption |]).
  cbv zeta. rewrite St.
  split; [exact Sfx |]. split; [exact Sfy |].
  split.
  { intros i j Hi Hj.
    split; [apply Vxx; assumption |].
    split; [apply Vxy; assumption |].
    split; [apply Vyy; assumption |].
    split; [apply Vfx; assumption | apply Vfy; assumption]. }
  split; [intros i j H1 H2; rewrite Vx; apply grad_axis_inner; assumption |].
  split; [intros i; rewrite Vx; apply grad_axis_first |].
  split; [intros i; rewrite Vx; apply grad_axis_last; exact C2 |].
  split; [intros i j H1 H2; rewrite Vy; apply grad_axis_inner; assumption |].
  split; [intros j; rewrite Vy; apply grad_axis_first |].
  intros j; rewrite Vy; apply grad_axis_last; exact R2.
Qed.

End StressFacts.

(** * The stress-field notebook on a concrete grid *)

Module StressRuns.

Import StressField.
Import StressData.

Lemma res3_study_res : study_res res3 = 300000%Z.
Proof. unfold study_res, res3. apply np_int_IZR. Defined.

Lemma res3_kernel_len : kernel_len res3 = 2%nat.
Proof.
  unfold kernel_len. rewrite res3_study_res. unfold kernel_rad.
  replace (150000 * 2 / 300000 + 1) with (IZR 2) by lra.
  rewrite np_int_IZR. reflexivity.
Defined.

Lemma flat_b_shape : forall comp zz,
  shape2 (b_conv flat_b dem3 res3 comp zz)
  = size_output (kernel_shape res3) (shape2 (topo dem3)) b_conv_mode.
Proof.
  intros comp zz. unfold b_conv, kernel_shape. rewrite res3_kernel_len.
  reflexivity.
Defined.

Lemma same_c_shape : forall comp d load zz,
  shape2 (c_conv same_c res3 comp d load zz)
  = size_output (kernel_shape res3) (shape2 load) c_conv_mode.
Proof. intros comp d load zz. reflexivity. Defined.

Lemma dem3_kernel_fits :
  (1 <= kernel_len res3)%nat /\
  (kernel_len res3 < fst (shape2 dem3))%nat /\
  (kernel_len res3 < snd (shape2 dem3))%nat.
Proof. rewrite res3_kernel_len. simpl. lia. Defined.

Lemma res3_at_least_one : 1 <= res3.
Proof. unfold res3. lra. Defined.

Lemma res5_at_least_one : 1 <= res5.
Proof. unfold res5. lra. Defined.

Lemma res5_study_res : study_res res5 = 150000%Z.
Proof. unfold study_res, res5. apply np_int_IZR. Defined.

Lemma res5_kernel_len : kernel_len res5 = 3%nat.
Proof.
  unfold kernel_len. rewrite res5_study_res. unfold kernel_rad.
  replace (150000 * 2 / 150000 + 1) with (IZR 3) by lra.
  rewrite np_int_IZR. reflexivity.
Defined.

Lemma flat_b3_shape : forall comp zz,
  shape2 (b_conv flat_b3 dem5 res5 comp zz)
  = size_output (kernel_shape res5) (shape2 (topo dem5)) b_conv_mode.
Proof.
  intros comp zz. unfold b_conv, kernel_shape. rewrite res5_kernel_len.
  reflexivity.
Defined.

Lemma dem5_kernel_fits :
  (1 <= kernel_len res5)%nat /\
  (kernel_len res5 < fst (shape2 dem5))%nat /\
  (kernel_len res5 < snd (shape2 dem5))%nat.
Proof. rewrite res5_kernel_len. simpl. lia. Defined.

Lemma dem5_b_out : b_out dem5 res5 = (3, 3)%nat.
Proof. unfold b_out, kernel_shape. rewrite res5_kernel_len. reflexivity. Defined.

Lemma dem5_crop : crop0 dem5 res5 = 1%nat /\ crop1 dem5 res5 = 1%nat.
Proof. unfold crop0, crop1. rewrite dem5_b_out. split; reflexivity. Defined.

Lemma dem5_cropped_shape (t : array2) :
  topo_c flat_b3 dem5 res5 = Some t -> shape2 t = (3, 3)%nat.
Proof.
  intros Ht.
  destruct (topo_c_spec flat_b3 dem5 res5 flat_b3_shape dem5_kernel_fits
              res5_at_least_one) as [t' [Ht' [St _]]].
  rewrite Ht in Ht'. injection Ht' as <-. rewrite St. apply dem5_b_out.
Defined.

(** On the 3 x 3 cropped grid of [dem5]: the loading functions exist, the
    slope along x at the interior point (1, 1) is the centred difference of
    its two neighbours and at the border point (1, 0) the forward
    difference. *)
Lemma C3_witness :
  exists t dy dx fx fy,
    topo_c flat_b3 dem5 res5 = Some t /\
    topo_grad flat_b3 dem5 res5 = Some (dy, dx) /\
    Fh_x flat_b3 dem5 res5 = Some fx /\ Fh_y flat_b3 dem5 res5 = Some fy /\
    shape2 fx = (3, 3)%nat /\ shape2 fy = (3, 3)%nat /\
    get2 dx 1 1 = (get2 t 1 2 - get2 t 1 0) / (2 * IZR (study_res res5)) /\
    get2 dx 1 0 = (get2 t 1 1 - get2 t 1 0) / IZR (study_res res5).
Proof.
  destruct (C3_horizontal_loads flat_b3 dem5 res5 flat_b3_shape
              dem5_kernel_fits res5_at_least_one)
    as [t [dy [dx [bxx [bxy [byy [fx [fy [z0 H]]]]]]]]].
  destruct H as [Ht [Hg [_ [_ [_ [Hx [Hy [_ H]]]]]]]].
  cbv zeta in H. rewrite (dem5_cropped_shape t Ht) in H.
  destruct H as [Sx [Sy [_ [Hin [Hfirst _]]]]].
  exists t, dy, dx, fx, fy.
  split; [exact Ht |]. split; [exact Hg |].
  split; [exact Hx |]. split; [exact Hy |].
  split; [exact Sx |]. split; [exact Sy |].
  split; [apply (Hin 1%nat 1%nat); simpl; lia | apply (Hfirst 1%nat)].
Defined.

Lemma C4_witness :
  exists b cx cy t,
    b_dataset flat_b dem3 res3 zz = Some b /\
    cerr flat_b same_c dem3 res3 dir_x zz = Some cx /\
    cerr flat_b same_c dem3 res3 dir_y zz = Some cy /\
    total flat_b same_c dem3 res3 zz = Some t /\
    shape3 t = shape3 b /\
    forall i j k, (i < dim0 t)%nat -> (j < dim1 t)%nat -> (k < dim2 t)%nat ->
      get3 t i j k = get3 b i j k + get3 cx i j k + get3 cy i j k.
Proof.
  exact (C4_total_is_elementwise_sum flat_b same_c dem3 res3 flat_b_shape
           same_c_shape dem3_kernel_fits res3_at_least_one zz).
Defined.


(** The slope along x at the corner (0, 0) of the cropped grid of [dem5]:
    the notebook's value is the forward difference -3 / 150000 of the two
    leftmost cropped columns, while the centred difference of the DEM
    around that point is -4 / 300000. *)
Lemma corner_slope_dem5 :
  exists dy dx,
    topo_grad flat_b3 dem5 res5 = Some (dy, dx) /\
    get2 dx 0 0 = - 3 / 150000 /\
    (get2 (topo dem5) (0 + crop0 dem5 res5) (0 + crop1 dem5 res5 + 1)
     - get2 (topo dem5) (0 + crop0 dem5 res5) (0 + crop1 dem5 res5 - 1))
    / (2 * IZR (study_res res5)) = - 4 / 300000.
Proof.
  destruct (topo_grad_spec flat_b3 dem5 res5 flat_b3_shape dem5_kernel_fits
              res5_at_least_one)
    as [t [dy [dx [Ht [Hg [_ [_ [_ Vx]]]]]]]].
  destruct (topo_c_spec flat_b3 dem5 res5 flat_b3_shape dem5_kernel_fits
              res5_at_least_one) as [t' [Ht' [_ Vt]]].
  rewrite Ht in Ht'. injection Ht' as <-.
  destruct dem5_crop as [Hc0 Hc1].
  exists dy, dx. split; [exact Hg |]. split.
  - rewrite Vx, grad_axis_first, !Vt, Hc0, Hc1, res5_study_res.
    unfold topo, dem5. simpl. field.
  - rewrite Hc0, Hc1, res5_study_res. unfold topo, dem5. simpl. field.
Qed.

(** C3 as first worded fails: at the corner (0, 0) of the cropped grid of
    [dem5], whose neighbours on both sides are points of the DEM, the
    notebook's slope along x is the forward difference -3 / 150000 and not
    the centred difference -4 / 300000. *)
Lemma C3_counterexample : ~ slopes_centered_everywhere flat_b3 dem5 res5.
Proof.
  intros Hclaim.
  destruct corner_slope_dem5 as [dy [dx [Hg [Hcode Hcentred]]]].
  assert (Hi : (0 < fst (b_out dem5 res5))%nat) by (rewrite dem5_b_out; simpl; lia).
  assert (Hj : (0 < snd (b_out dem5 res5))%nat) by (rewrite dem5_b_out; simpl; lia).
  destruct (Hclaim dy dx Hg 0%nat 0%nat Hi Hj) as [Hx _].
  rewrite Hcode, Hcentred in Hx. lra.
Qed.

End StressRuns.

(** * Unit conversions across the two notebooks *)

Section UnitClaims.

Variable strike_shear : Failure.StressArgs -> R.
Variable dip_shear : Failure.StressArgs -> R.
Variable eff_normal_stress : Failure.StressArgs -> R -> R.
Variable random_seed_70 : nat -> R.
Variable fault_df : list Failure.FaultRow.
Variable r_priors_df : list Failure.PriorRow.

Variable do_b_convo :
  StressField.component -> R -> R -> array2 -> string -> StressField.conv_mode ->
  R -> R -> array2.
Variable do_c_convo :
  StressField.component -> StressField.direction -> R -> array2 -> R -> R ->
  StressField.conv_mode -> array2.
Variable dem : array2.
Variable x_res_m : R.

(** C6.  In the failure notebook (at least one prior row and one fault
    point) the sample table has one row per iteration and fault point, every
    row holds the fault model's depth times 1000 and its six stresses times
    1e6, and the three resolvers receive exactly these values.  In the
    stress-field notebook (resolution of at least one metre, kernel narrower
    than the DEM, convolutions keeping their shape contracts) every stored
    Boussinesq and Cerruti entry is the convolution value times 1e-6, and
    the stored total adds them without rescaling. *)
Theorem C6_unit_conversions_applied_once :
  Forall (fun i => (-10000 <= i < 10000)%Z) (Failure.r_index r_priors_df) ->
  fault_df <> [] ->
  r_priors_df <> [] ->
  1 <= x_res_m ->
  (forall comp zz,
     shape2 (StressField.b_conv do_b_convo dem x_res_m comp zz)
     = StressField.size_output (StressField.kernel_shape x_res_m)
         (shape2 (StressField.topo dem)) StressField.b_conv_mode) ->
  (forall comp d load zz,
     shape2 (StressField.c_conv do_c_convo x_res_m comp d load zz)
     = StressField.size_output (StressField.kernel_shape x_res_m)
         (shape2 load) StressField.c_conv_mode) ->
  ((1 <= StressField.kernel_len x_res_m)%nat /\
   (StressField.kernel_len x_res_m < fst (shape2 dem))%nat /\
   (StressField.kernel_len x_res_m < snd (shape2 dem))%nat) ->
  (exists phis sdf,
     Failure.phi_priors random_seed_70 r_priors_df = Some phis /\
     Failure.search_df fault_df r_priors_df phis = Some sdf /\
     length sdf
     = (Failure.n_trials r_priors_df * Failure.n_points fault_df)%nat /\
     forall r, (r < length sdf)%nat ->
       exists p ph f row,
         nth_error r_priors_df (r / Failure.n_points fault_df) = Some p /\
         nth_error phis (r / Failure.n_points fault_df) = Some ph /\
         nth_error fault_df (r mod Failure.n_points fault_df) = Some f /\
         nth_error sdf r = Some row /\
         Failure.depth row = Failure.z f * 1000 /\
         [Failure.mxx row; Failure.myy row; Failure.mxy row;
          Failure.mzz row; Failure.mxz row; Failure.myz row]
         = [Failure.xx_stress f * 1000000; Failure.yy_stress f * 1000000;
            Failure.xy_stress f * 1000000; Failure.zz_stress f * 1000000;
            Failure.xz_stress f * 1000000; Failure.yz_stress f * 1000000] /\
         let args :=
           Failure.mkStressArgs (Failure.f_strike f) (Failure.f_dip f)
             Failure.rho Failure.g
             (Failure.xx_stress f * 1000000) (Failure.yy_stress f * 1000000)
             (Failure.xy_stress f * 1000000) (Failure.zz_stress f * 1000000)
             (Failure.xz_stress f * 1000000) (Failure.yz_stress f * 1000000)
             (Failure.p_txx p) (Failure.p_tyy p) (Failure.p_txy p)
             (Failure.z f * 1000) in
         let resolved :=
           Failure.resolve strike_shear dip_shear eff_normal_stress fault_df row in
         Failure.tau_s resolved = strike_shear args /\
         Failure.tau_d resolved = dip_shear args /\
         Failure.sig_n_eff resolved = eff_normal_stress args ph) /\
  (forall comp,
     exists b cx cy t load_x load_y,
       StressField.b_dataset do_b_convo dem x_res_m comp = Some b /\
       StressField.Fh do_b_convo dem x_res_m StressField.dir_x = Some load_x /\
       StressField.Fh do_b_convo dem x_res_m StressField.dir_y = Some load_y /\
       StressField.cerr do_b_convo do_c_convo dem x_res_m StressField.dir_x comp
       = Some cx /\
       StressField.cerr do_b_convo do_c_convo dem x_res_m StressField.dir_y comp
       = Some cy /\
       StressField.total do_b_convo do_c_convo dem x_res_m comp = Some t /\
       shape3 t
       = (fst (StressField.b_out dem x_res_m),
          snd (StressField.b_out dem x_res_m), 27%nat) /\
       length (StressField.z_vec x_res_m) = 27%nat /\
       forall i j k zz,
         (i < dim0 t)%nat -> (j < dim1 t)%nat ->
         nth_error (StressField.z_vec x_res_m) k = Some zz ->
         get3 b i j k
         = get2 (StressField.b_conv do_b_convo dem x_res_m comp zz) i j * (1 / 1000000) /\
         get3 cx i j k
         = get2 (StressField.c_conv do_c_convo x_res_m comp StressField.dir_x load_x zz) i j
           * (1 / 1000000) /\
         get3 cy i j k
         = get2 (StressField.c_conv do_c_convo x_res_m comp StressField.dir_y load_y zz) i j
           * (1 / 1000000) /\
         get3 t i j k = get3 b i j k + get3 cx i j k + get3 cy i j k).
Proof.
  intros Hr Hfne Hpne Hres Hbs Hcs Hk. split.
  - destruct (phi_priors_defined random_seed_70 r_priors_df Hr) as [phis [Hp Hl]].
    exists phis, (flat_map (Failure.block fault_df) (combine r_priors_df phis)).
    split; [exact Hp |].
    split; [apply search_df_blocks; assumption |].
    split; [apply search_df_length; exact Hl |].
    intros r Hlt. rewrite (search_df_length fault_df r_priors_df phis Hl) in Hlt.
    apply (sample_row_units strike_shear dip_shear eff_normal_stress fault_df
             r_priors_df phis r Hl Hlt).
  - intros comp.
    destruct (b_dataset_spec do_b_convo dem x_res_m Hbs Hres comp)
      as [b [Hb [Sb Vb]]].
    destruct (cerr_spec do_b_convo do_c_convo dem x_res_m Hbs Hcs Hk Hres
                StressField.dir_x comp) as [lx [cx [Hlx [Hcx [Scx Vcx]]]]].
    destruct (cerr_spec do_b_convo do_c_convo dem x_res_m Hbs Hcs Hk Hres
                StressField.dir_y comp) as [ly [cy [Hly [Hcy [Scy Vcy]]]]].
    destruct (total_spec do_b_convo do_c_convo dem x_res_m Hbs Hcs Hk Hres comp)
      as [b' [cx' [cy' [t [Hb' [Hcx' [Hcy' [Ht [_ [_ [_ [St Vt]]]]]]]]]]]].
    rewrite Hb in Hb'. rewrite Hcx in Hcx'. rewrite Hcy in Hcy'.
    injection Hb' as <-. injection Hcx' as <-. injection Hcy' as <-.
    exists b, cx, cy, t, lx, ly.
    repeat (split; [assumption |]).
    split; [rewrite St, Sb, (z_len_is_27 x_res_m); reflexivity |].
    split; [rewrite (z_vec_length x_res_m); apply z_len_is_27 |].
    intros i j k zz Hi Hj Hz.
    unfold dim0, dim1 in Hi, Hj. rewrite St, Sb in Hi, Hj. simpl in Hi, Hj.
    assert (Hkz : (k < StressField.z_len x_res_m)%nat).
    { rewrite <- (z_vec_length x_res_m). apply nth_error_Some. congruence. }
    split; [apply (Vb i j k zz Hi Hj Hz) |].
    split; [apply (Vcx i j k zz Hi Hj Hz) |].
    split; [apply (Vcy i j k zz Hi Hj Hz) |].
    apply Vt; assumption.
Qed.

End UnitClaims.

Module UnitRuns.

(** On the two-point fault model and the 3 x 3 DEM: the first row of the
    sample table holds the depth 5 km as 5000 m and the stress 1 MPa as
    1e6 Pa, and the first stored Boussinesq entry is the convolution value
    at the shallowest depth times 1e-6. *)
Lemma C6_witness :
  (exists phis sdf row,
     Failure.phi_priors FailureData.draws FailureData.priors2 = Some phis /\
     Failure.search_df FailureData.fault2 FailureData.priors2 phis = Some sdf /\
     length sdf = 4%nat /\
     nth_error sdf 0 = Some row /\
     Failure.depth row = 5 * 1000 /\
     Failure.mxx row = 1 * 1000000) /\
  (exists b,
     StressField.b_dataset StressData.flat_b StressData.dem3 StressData.res3
       StressField.xx = Some b /\
     get3 b 0 0 0
     = (IZR (StressField.study_res StressData.res3) + 1000 * INR 0)
       * (1 / 1000000)).
Proof.
  destruct (C6_unit_conversions_applied_once
              FailureData.shear3 FailureData.shear4 FailureData.normal10
              FailureData.draws FailureData.fault2 FailureData.priors2
              StressData.flat_b StressData.same_c StressData.dem3 StressData.res3
              FailureRuns.priors2_in_range FailureRuns.fault2_nonempty
              FailureRuns.priors2_nonempty StressRuns.res3_at_least_one
              StressRuns.flat_b_shape
              StressRuns.same_c_shape StressRuns.dem3_kernel_fits)
    as [[phis [sdf [Hp [Hs [Hlen Hrows]]]]] Hstress].
  split.
  - assert (H0 : (0 < length sdf)%nat) by (rewrite Hlen; simpl; lia).
    destruct (Hrows 0%nat H0) as [p [ph [f [row [_ [_ [Hf [Hrow [Hd [Hm _]]]]]]]]]].
    simpl in Hf. injection Hf as <-.
    exists phis, sdf, row.
    split; [exact Hp |]. split; [exact Hs |]. split; [exact Hlen |].
    split; [exact Hrow |]. split; [exact Hd |].
    injection Hm as Hmxx _. exact Hmxx.
  - destruct (Hstress StressField.xx)
      as [b [cx [cy [t [lx [ly [Hb [_ [_ [_ [_ [_ [St [_ Hv]]]]]]]]]]]]]].
    exists b. split; [exact Hb |].
    assert (Hz : nth_error (StressField.z_vec StressData.res3) 0
                 = Some (IZR (StressField.study_res StressData.res3)
                         + 1000 * INR 0))
      by (apply depth_level; lia).
    assert (Hi : (0 < dim0 t)%nat).
    { unfold dim0. rewrite St. unfold StressField.b_out, StressField.kernel_shape.
      rewrite StressRuns.res3_kernel_len. simpl. lia. }
    assert (Hj : (0 < dim1 t)%nat).
    { unfold dim1. rewrite St. unfold StressField.b_out, StressField.kernel_shape.
      rewrite StressRuns.res3_kernel_len. simpl. lia. }
    destruct (Hv 0%nat 0%nat 0%nat _ Hi Hj Hz) as [Hb0 _].
    rewrite Hb0. reflexivity.
Defined.

End UnitRuns.

(** * Further properties of the failure notebook *)

Section OrderFacts.

Lemma ascending_filter (t : Z -> bool) (l : list Z) :
  ascending l -> ascending (filter t l).
Proof.
  induction l as [|h r IH]; simpl; intros Hs; [exact I |].
  destruct Hs as [Hh Hr]. destruct (t h); simpl.
  - split; [| apply IH; exact Hr].
    intros x Hx. apply filter_In in Hx. apply Hh. tauto.
  - apply IH. exact Hr.
Qed.

(** Two tables whose labels ascend and which hold the same rows are the
    same table. *)
Lemma ascending_rows_unique {V : Type} (l1 l2 : list (Z * V)) :
  ascending (map fst l1) -> ascending (map fst l2) ->
  (forall x, In x l1 <-> In x l2) -> l1 = l2.
Proof.
  revert l2. induction l1 as [|a t1 IH]; intros [|b t2] H1 H2 Hiff.
  - reflexivity.
  - exfalso. apply (proj2 (Hiff b)). left. reflexivity.
  - exfalso. apply (proj1 (Hiff a)). left. reflexivity.
  - simpl in H1, H2. destruct H1 as [Ha H1]. destruct H2 as [Hb H2].
    assert (Hab : a = b).
    { destruct (proj1 (Hiff a) (or_introl eq_refl)) as [Heq | Hin];
        [symmetry; exact Heq |].
      destruct (proj2 (Hiff b) (or_introl eq_refl)) as [Heq | Hin'];
        [exact Heq |].
      pose proof (Hb (fst a) (in_map fst _ _ Hin)).
      pose proof (Ha (fst b) (in_map fst _ _ Hin')). lia. }
    subst b. f_equal. apply IH; try assumption.
    intros x. split; intros Hx.
    + destruct (proj1 (Hiff x) (or_intror Hx)) as [Heq | Hin]; [| exact Hin].
      subst x. pose proof (Ha (fst a) (in_map fst _ _ Hx)). lia.
    + destruct (proj2 (Hiff x) (or_intror Hx)) as [Heq | Hin]; [| exact Hin].
      subst x. pose proof (Hb (fst a) (in_map fst _ _ Hx)). lia.
Qed.

Lemma in_combine_map {A B : Type} (h : A -> B) (l : list A) (a : A) (b : B) :
  In (a, b) (combine l (map h l)) <-> In a l /\ b = h a.
Proof.
  induction l as [|x t IH]; simpl.
  - tauto.
  - rewrite IH. split.
    + intros [Heq | [Hin ->]].
      * injection Heq as -> <-. tauto.
      * tauto.
    + intros [[-> | Hin] ->]; [left; reflexivity | right; tauto].
Qed.

End OrderFacts.

Section FailureExtras.

Import Failure.

Variable strike_shear : StressArgs -> R.
Variable dip_shear : StressArgs -> R.
Variable eff_normal_stress : StressArgs -> R -> R.
Variable random_seed_70 : nat -> R.
Variable fault_df : list FaultRow.
Variable r_priors_df : list PriorRow.

Local Notation resolve' := (resolve strike_shear dip_shear eff_normal_stress fault_df).
Local Notation spec_mu' := (spec_mu strike_shear dip_shear eff_normal_stress fault_df).
Local Notation spec_row' :=
  (spec_row strike_shear dip_shear eff_normal_stress random_seed_70 fault_df).
Local Notation phi_of_label' := (phi_of_label random_seed_70).
Local Notation phi_priors' := (phi_priors random_seed_70 r_priors_df).
Local Notation search_df' := (search_df fault_df r_priors_df).
Local Notation fail_posteriors' :=
  (fail_posteriors strike_shear dip_shear eff_normal_stress random_seed_70
     fault_df r_priors_df).
Local Notation resolved_table' :=
  (resolved_table strike_shear dip_shear eff_normal_stress fault_df r_priors_df).

Lemma phi_priors_by_label :
  Forall (fun i => (-10000 <= i < 10000)%Z) (r_index r_priors_df) ->
  phi_priors' = Some (map (fun p => phi_of_label' (p_index p)) r_priors_df).
Proof. intros Hr. apply (phi_priors_values random_seed_70 r_priors_df Hr). Qed.

(** The posterior frame, row by row: its labels ascend, and its rows are
    the specification's rows of the prior rows whose friction estimate lies
    in [0, 1]. *)
Lemma posterior_membership :
  Forall (fun i => (-10000 <= i < 10000)%Z) (r_index r_priors_df) ->
  NoDup (r_index r_priors_df) ->
  fault_df <> [] ->
  r_priors_df <> [] ->
  exists out,
    fail_posteriors' = Some out /\
    columns out = posterior_columns /\
    ascending (map fst (rows out)) /\
    forall row,
      In row (rows out) <->
      exists p, In p r_priors_df /\
                0 <= spec_mu' p (phi_of_label' (p_index p)) <= 1 /\
                row = (p_index p, spec_row' p).
Proof.
  intros Hr Hnd Hne Hpne.
  pose proof (phi_priors_by_label Hr) as Hp.
  set (phis := map (fun p => phi_of_label' (p_index p)) r_priors_df) in *.
  assert (Hl : length phis = length r_priors_df) by apply length_map.
  eexists.
  split; [apply (fail_posteriors_rows _ _ _ _ _ _ phis Hp Hl Hnd Hne Hpne) |].
  split; [reflexivity |].
  simpl rows. split.
  - rewrite map_map. simpl. rewrite map_id.
    unfold kept_keys. apply ascending_filter. apply sorted_unique_ascending.
  - intros [k vals]. rewrite in_keyed_rows, kept_keys_In. split.
    + intros [[Hk Hm] ->].
      destruct (key_origin _ _ _ _ _ phis k Hk) as [p [ph [Hin ->]]].
      pose proof Hin as Hin'. apply in_combine_map in Hin'.
      destruct Hin' as [Hp' ->].
      exists p. split; [exact Hp' |]. split.
      * rewrite <- (group_mu_spec _ _ _ _ _ phis p _ Hl Hnd Hin). exact Hm.
      * f_equal. apply (posterior_row_values _ _ _ _ _ phis p _ Hl Hnd Hne Hin).
    + intros [p [Hp' [Hm Heq]]]. injection Heq as -> ->.
      assert (Hin : In (p, phi_of_label' (p_index p)) (combine r_priors_df phis))
        by (apply in_combine_map; split; [exact Hp' | reflexivity]).
      split; [split |].
      * apply (key_present _ _ _ _ _ phis p _ Hne Hin).
      * rewrite (group_mu_spec _ _ _ _ _ phis p _ Hl Hnd Hin). exact Hm.
      * symmetry.
        apply (posterior_row_values _ _ _ _ _ phis p _ Hl Hnd Hne Hin).
Qed.

Lemma same_label_same_row (p q : PriorRow) :
  NoDup (r_index r_priors_df) -> In p r_priors_df -> In q r_priors_df ->
  p_index p = p_index q -> p = q.
Proof.
  intros Hnd Hp Hq Heq.
  pose proof (prior_row_unique r_priors_df p Hnd Hp) as Hu.
  assert (Hin : In q (filter (fun x => (p_index x =? p_index p)%Z) r_priors_df)).
  { apply filter_In. split; [exact Hq |]. apply Z.eqb_eq. symmetry. exact Heq. }
  rewrite Hu in Hin. destruct Hin as [-> | []]. reflexivity.
Qed.

(** X1.  The rows of the posterior frame come in strictly ascending order
    of their labels, whatever the order of the prior table. *)
Theorem X1_posterior_rows_ascend :
  Forall (fun i => (-10000 <= i < 10000)%Z) (r_index r_priors_df) ->
  NoDup (r_index r_priors_df) ->
  fault_df <> [] ->
  r_priors_df <> [] ->
  exists out,
    fail_posteriors' = Some out /\ ascending (map fst (rows out)).
Proof.
  intros Hr Hnd Hne Hpne.
  destruct (posterior_membership Hr Hnd Hne Hpne) as [out [Hout [_ [Hasc _]]]].
  exists out. split; assumption.
Qed.

(** X2.  [mu_iter] holds one friction estimate per distinct label of the
    prior table, in ascending order of the labels: prior rows that share a
    label are merged into one group. *)
Theorem X2_one_estimate_per_label :
  Forall (fun i => (-10000 <= i < 10000)%Z) (r_index r_priors_df) ->
  fault_df <> [] ->
  r_priors_df <> [] ->
  exists phis sdf,
    phi_priors' = Some phis /\
    search_df' phis = Some sdf /\
    ascending (s_index (mu_iter (map resolve' sdf))) /\
    forall k, In k (s_index (mu_iter (map resolve' sdf)))
              <-> In k (r_index r_priors_df).
Proof.
  intros Hr Hne Hpne.
  destruct (phi_priors_defined random_seed_70 r_priors_df Hr) as [phis [Hp Hl]].
  exists phis, (flat_map (block fault_df) (combine r_priors_df phis)).
  split; [exact Hp |].
  split; [apply search_df_blocks; assumption |].
  rewrite resolved_table_eq, mu_iter_keyed, s_index_keyed.
  split; [apply sorted_unique_ascending |].
  intros k. split.
  - intros Hk. apply (group_keys_in_index _ _ _ _ _ phis Hl k Hk).
  - intros Hk. unfold r_index in Hk. apply in_map_iff in Hk.
    destruct Hk as [p [<- Hin]].
    destruct (In_nth_error _ _ Hin) as [i Hi].
    destruct (same_length_nth r_priors_df phis i p Hl Hi) as [ph Hph].
    apply (key_present _ _ _ _ _ phis p ph Hne).
    apply (in_combine_nth _ _ i); assumption.
Qed.

End FailureExtras.

Section FailureInvariance.

Import Failure.

Variable strike_shear : StressArgs -> R.
Variable dip_shear : StressArgs -> R.
Variable eff_normal_stress : StressArgs -> R -> R.
Variable random_seed_70 : nat -> R.
Variable fault_df : list FaultRow.
Variable r_priors_df : list PriorRow.

Local Notation spec_mu' := (spec_mu strike_shear dip_shear eff_normal_stress).
Local Notation spec_tau_mag' := (spec_tau_mag strike_shear dip_shear).
Local Notation spec_sig_n_eff' := (spec_sig_n_eff eff_normal_stress).
Local Notation spec_row' :=
  (spec_row strike_shear dip_shear eff_normal_stress random_seed_70).
Local Notation phi_of_label' := (phi_of_label random_seed_70).
Local Notation fail_posteriors' :=
  (fail_posteriors strike_shear dip_shear eff_normal_stress random_seed_70).
Local Notation in_range priors :=
  (Forall (fun i => (-10000 <= i < 10000)%Z) (r_index priors)).

(** Two runs whose posterior rows are the same set give the same frame. *)
Lemma same_rows_same_frame (fault1 fault2 : list FaultRow)
    (priors1 priors2 : list PriorRow) :
  in_range priors1 -> NoDup (r_index priors1) -> fault1 <> [] ->
  priors1 <> [] ->
  in_range priors2 -> NoDup (r_index priors2) -> fault2 <> [] ->
  priors2 <> [] ->
  (forall row,
     (exists p, In p priors1 /\
                0 <= spec_mu' fault1 p (phi_of_label' (p_index p)) <= 1 /\
                row = (p_index p, spec_row' fault1 p))
     <->
     (exists p, In p priors2 /\
                0 <= spec_mu' fault2 p (phi_of_label' (p_index p)) <= 1 /\
                row = (p_index p, spec_row' fault2 p))) ->
  fail_posteriors' fault1 priors1 = fail_posteriors' fault2 priors2.
Proof.
  intros Hr1 Hnd1 Hne1 Hp1 Hr2 Hnd2 Hne2 Hp2 Hsame.
  destruct (posterior_membership strike_shear dip_shear eff_normal_stress
              random_seed_70 fault1 priors1 Hr1 Hnd1 Hne1 Hp1)
    as [o1 [E1 [C1 [A1 M1]]]].
  destruct (posterior_membership strike_shear dip_shear eff_normal_stress
              random_seed_70 fault2 priors2 Hr2 Hnd2 Hne2 Hp2)
    as [o2 [E2 [C2 [A2 M2]]]].
  rewrite E1, E2. f_equal.
  destruct o1 as [c1 r1], o2 as [c2 r2]. simpl in *.
  f_equal; [congruence |].
  apply ascending_rows_unique; [exact A1 | exact A2 |].
  intros row. rewrite M1, M2. apply Hsame.
Qed.

Lemma Rsum_scale (h : FaultRow -> R) (c : R) (l : list FaultRow) :
  Rsum (map (fun f => h f * c) l) = Rsum (map h l) * c.
Proof.
  induction l as [|a t IH]; simpl.
  - lra.
  - change (fold_right Rplus 0 (map (fun f => h f * c) t))
      with (Rsum (map (fun f => h f * c) t)).
    change (fold_right Rplus 0 (map h t)) with (Rsum (map h t)).
    rewrite IH. lra.
Qed.

Lemma mean_slip_scaled (c : R) :
  mean (map f_slip_m (map (scale_slip c) fault_df))
  = mean (map f_slip_m fault_df) * c.
Proof.
  unfold mean. rewrite map_map. simpl.
  rewrite (Rsum_scale f_slip_m c fault_df). rewrite !length_map.
  unfold Rdiv. lra.
Qed.

Lemma mean_zero_of_nil (h : FaultRow -> R) : mean (map h []) = 0.
Proof. unfold mean. simpl. unfold Rdiv. lra. Qed.

Lemma spec_mu_scaled (c : R) (p : PriorRow) (ph : R) :
  c <> 0 -> mean_slip fault_df <> 0 ->
  spec_mu' (map (scale_slip c) fault_df) p ph = spec_mu' fault_df p ph.
Proof.
  intros Hc Hm. unfold spec_mu.
  rewrite mean_slip_scaled. rewrite !map_map.
  assert (Hn : map (fun f => spec_sig_n_eff' p ph (scale_slip c f)) fault_df
               = map (spec_sig_n_eff' p ph) fault_df)
    by (apply map_ext; intros f; reflexivity).
  assert (Hw : map (fun f => spec_tau_mag' p ph (scale_slip c f)
                             * f_slip_m (scale_slip c f)
                             / (mean (map f_slip_m fault_df) * c)) fault_df
               = map (fun f => spec_tau_mag' p ph f * f_slip_m f
                               / mean (map f_slip_m fault_df)) fault_df).
  { apply map_ext. intros f.
    change (spec_tau_mag' p ph (scale_slip c f)) with (spec_tau_mag' p ph f).
    change (f_slip_m (scale_slip c f)) with (f_slip_m f * c).
    unfold mean_slip in Hm. field. split; assumption. }
  rewrite Hn, Hw. reflexivity.
Qed.

Variable other_priors : list PriorRow.

(** X3.  Iterations do not influence one another: a prior row that occurs
    in two prior tables has the same fate in both runs, kept with the same
    posterior values or dropped in both. *)
Theorem X3_iterations_are_independent (p : PriorRow) (vals : list R) :
  in_range r_priors_df -> NoDup (r_index r_priors_df) ->
  in_range other_priors -> NoDup (r_index other_priors) ->
  fault_df <> [] ->
  In p r_priors_df -> In p other_priors ->
  exists out out',
    fail_posteriors' fault_df r_priors_df = Some out /\
    fail_posteriors' fault_df other_priors = Some out' /\
    (In (p_index p, vals) (rows out) <-> In (p_index p, vals) (rows out')).
Proof.
  intros Hr Hnd Hr' Hnd' Hne Hin Hin'.
  assert (Hpne : r_priors_df <> []) by (intros E; rewrite E in Hin; contradiction).
  assert (Hpne' : other_priors <> [])
    by (intros E; rewrite E in Hin'; contradiction).
  destruct (posterior_membership strike_shear dip_shear eff_normal_stress
              random_seed_70 fault_df r_priors_df Hr Hnd Hne Hpne)
    as [o1 [E1 [_ [_ M1]]]].
  destruct (posterior_membership strike_shear dip_shear eff_normal_stress
              random_seed_70 fault_df other_priors Hr' Hnd' Hne Hpne')
    as [o2 [E2 [_ [_ M2]]]].
  exists o1, o2. split; [exact E1 |]. split; [exact E2 |].
  rewrite M1, M2. split.
  - intros [q [Hq [Hm Heq]]]. injection Heq as Hk Hv.
    assert (p = q) by (apply (same_label_same_row r_priors_df); assumption).
    subst q. exists p. split; [exact Hin' |]. split; [exact Hm |].
    rewrite Hv. reflexivity.
  - intros [q [Hq [Hm Heq]]]. injection Heq as Hk Hv.
    assert (p = q) by (apply (same_label_same_row other_priors); assumption).
    subst q. exists p. split; [exact Hin |]. split; [exact Hm |].
    rewrite Hv. reflexivity.
Qed.

(** X4.  For a physically valid ensemble (non-negative slips with a positive
    mean, positive effective normal stress at every fault point) the filter
    keeps an iteration exactly when its mean slip-weighted shear stress does
    not exceed its mean effective normal stress. *)
Theorem X4_valid_ensemble_criterion (p : PriorRow) :
  in_range r_priors_df -> NoDup (r_index r_priors_df) ->
  (forall f, In f fault_df -> 0 <= f_slip_m f) ->
  0 < mean_slip fault_df ->
  (forall q f, In q r_priors_df -> In f fault_df ->
     0 < spec_sig_n_eff' q (phi_of_label' (p_index q)) f) ->
  In p r_priors_df ->
  exists out,
    fail_posteriors' fault_df r_priors_df = Some out /\
    ((exists vals, In (p_index p, vals) (rows out)) <->
     mean (map (fun f => spec_tau_mag' p (phi_of_label' (p_index p)) f
                         * f_slip_m f / mean_slip fault_df) fault_df)
     <= mean (map (spec_sig_n_eff' p (phi_of_label' (p_index p))) fault_df)).
Proof.
  intros Hr Hnd Hslip Hmean Hsig Hin.
  assert (Hne : fault_df <> []).
  { intros E. rewrite E in Hmean. unfold mean_slip in Hmean.
    rewrite mean_zero_of_nil in Hmean. lra. }
  assert (Hpne : r_priors_df <> []) by (intros E; rewrite E in Hin; contradiction).
  destruct (posterior_membership strike_shear dip_shear eff_normal_stress
              random_seed_70 fault_df r_priors_df Hr Hnd Hne Hpne)
    as [out [E [_ [_ M]]]].
  exists out. split; [exact E |].
  set (ph := phi_of_label' (p_index p)) in *.
  set (W := mean (map (fun f => spec_tau_mag' p ph f * f_slip_m f
                                / mean_slip fault_df) fault_df)).
  set (S := mean (map (spec_sig_n_eff' p ph) fault_df)).
  assert (Hmu : spec_mu' fault_df p ph = W / S) by reflexivity.
  assert (HS : 0 < S).
  { unfold S. destruct fault_df as [|f0 t] eqn:Ef; [contradiction |].
    apply mean_pos.
    - intros x Hx. apply in_map_iff in Hx. destruct Hx as [f [<- Hf]].
      apply Rlt_le. apply Hsig; assumption.
    - exists (spec_sig_n_eff' p ph f0). split; [left; reflexivity |].
      apply Hsig; [assumption | left; reflexivity]. }
  assert (HW : 0 <= W).
  { unfold W, mean. apply Rmult_le_pos.
    - apply Rsum_nonneg. intros x Hx. apply in_map_iff in Hx.
      destruct Hx as [f [<- Hf]].
      apply Rmult_le_pos; [| apply Rlt_le, Rinv_0_lt_compat; exact Hmean].
      apply Rmult_le_pos; [apply sqrt_pos | apply Hslip; exact Hf].
    - apply Rlt_le, Rinv_0_lt_compat. apply length_pos_INR.
      intros E'. apply map_eq_nil in E'. contradiction. }
  assert (Hratio : 0 <= W / S <= 1 <-> W <= S).
  { split.
    - intros [_ H1]. apply (Rmult_le_compat_r S) in H1; [| lra].
      unfold Rdiv in H1. rewrite Rmult_assoc, Rinv_l in H1; lra.
    - intros HWS. split.
      + apply Rmult_le_pos; [exact HW |]. apply Rlt_le, Rinv_0_lt_compat, HS.
      + apply (Rmult_le_reg_r S); [exact HS |].
        unfold Rdiv. rewrite Rmult_assoc, Rinv_l; lra. }
  rewrite <- Hratio, <- Hmu. split.
  - intros [vals Hv]. apply M in Hv. destruct Hv as [q [Hq [Hm Heq]]].
    injection Heq as Hk Hv.
    assert (p = q) by (apply (same_label_same_row r_priors_df); assumption).
    subst q. exact Hm.
  - intros Hm. exists (spec_row' fault_df p). apply M.
    exists p. split; [exact Hin |]. split; [exact Hm | reflexivity].
Qed.

(** X5.  The result does not depend on the unit of the slip column: with
    every slip multiplied by the same non-zero factor, the notebook (in the
    exact arithmetic of this model) returns the same posterior frame. *)
Theorem X5_slip_unit_invariance (c : R) :
  c <> 0 -> mean_slip fault_df <> 0 ->
  in_range r_priors_df -> NoDup (r_index r_priors_df) ->
  r_priors_df <> [] ->
  fail_posteriors' (map (scale_slip c) fault_df) r_priors_df
  = fail_posteriors' fault_df r_priors_df /\
  exists out, fail_posteriors' fault_df r_priors_df = Some out.
Proof.
  intros Hc Hm Hr Hnd Hpne.
  assert (Hne : fault_df <> []).
  { intros E. apply Hm. rewrite E. unfold mean_slip.
    apply mean_zero_of_nil. }
  assert (Hne' : map (scale_slip c) fault_df <> []).
  { intros E. apply map_eq_nil in E. contradiction. }
  split.
  - apply same_rows_same_frame; try assumption.
    intros row. unfold spec_row.
    split; intros [p [Hp [Hmu Heq]]]; exists p; (split; [exact Hp |]).
    + rewrite spec_mu_scaled in Hmu, Heq by assumption. split; assumption.
    + rewrite !spec_mu_scaled by assumption. split; assumption.
  - destruct (posterior_membership strike_shear dip_shear eff_normal_stress
                random_seed_70 fault_df r_priors_df Hr Hnd Hne Hpne)
      as [out [E _]].
    exists out. exact E.
Qed.

(** X6.  The result does not depend on the order of the rows of the prior
    table: any reordering of the prior rows gives the same posterior
    frame. *)
Theorem X6_prior_order_invariance :
  Permutation r_priors_df other_priors ->
  in_range r_priors_df -> NoDup (r_index r_priors_df) ->
  fault_df <> [] -> r_priors_df <> [] ->
  fail_posteriors' fault_df other_priors
  = fail_posteriors' fault_df r_priors_df /\
  exists out, fail_posteriors' fault_df r_priors_df = Some out.
Proof.
  intros Hperm Hr Hnd Hne Hpne.
  assert (Hpne' : other_priors <> []).
  { intros E. rewrite E in Hperm. apply Permutation_sym in Hperm.
    apply Permutation_nil in Hperm. contradiction. }
  assert (Hpi : Permutation (r_index r_priors_df) (r_index other_priors))
    by (apply Permutation_map; exact Hperm).
  assert (Hr' : in_range other_priors)
    by (apply (Permutation_Forall Hpi); exact Hr).
  assert (Hnd' : NoDup (r_index other_priors))
    by (apply (Permutation_NoDup Hpi); exact Hnd).
  split.
  - apply same_rows_same_frame; try assumption.
    intros row.
    split; intros [p [Hp H]]; exists p; (split; [| exact H]).
    + apply (Permutation_in p (Permutation_sym Hperm)). exact Hp.
    + apply (Permutation_in p Hperm). exact Hp.
  - destruct (posterior_membership strike_shear dip_shear eff_normal_stress
                random_seed_70 fault_df r_priors_df Hr Hnd Hne Hpne)
      as [out [E _]].
    exists out. exact E.
Qed.

End FailureInvariance.

(** * Further facts about the stress-field notebook *)

Section SliceFacts.

Lemma fill_from_None (conv : R -> array2) (zs : list (nat * R)) :
  fold_left (fun acc iz => a' <- acc ;; set_slice a' (fst iz) (conv (snd iz)))
            zs None = None.
Proof. induction zs as [|iz t IH]; simpl; [reflexivity | exact IH]. Qed.

Lemma set_slice_shape (a a' : array3) (k : nat) (v : array2) :
  set_slice a k v = Some a' -> shape3 a' = shape3 a.
Proof.
  unfold set_slice.
  destruct (Nat.ltb k (dim2 a) && fits (fst (shape2 v)) (dim0 a)
            && fits (snd (shape2 v)) (dim1 a)); [| discriminate].
  intros H. injection H as <-. reflexivity.
Qed.

(** A value that does not broadcast to the slice's shape. *)
Lemma set_slice_misfit (a : array3) (k : nat) (v : array2) :
  (fst (shape2 v) <> dim0 a /\ fst (shape2 v) <> 1%nat) \/
  (snd (shape2 v) <> dim1 a /\ snd (shape2 v) <> 1%nat) ->
  set_slice a k v = None.
Proof.
  intros H. unfold set_slice, fits.
  destruct (Nat.ltb k (dim2 a)); [| reflexivity]. simpl.
  destruct H as [[H1 H2] | [H1 H2]].
  - destruct (Nat.eqb_spec (fst (shape2 v)) (dim0 a)); [contradiction |].
    destruct (Nat.eqb_spec (fst (shape2 v)) 1); [contradiction |].
    reflexivity.
  - destruct (Nat.eqb_spec (snd (shape2 v)) (dim1 a)); [contradiction |].
    destruct (Nat.eqb_spec (snd (shape2 v)) 1); [contradiction |].
    simpl. rewrite andb_false_r. reflexivity.
Qed.

Lemma fill_slices_misfit (conv : R -> array2) (zs : list (nat * R)) :
  forall (a : array3) (k : nat) (zz : R),
  In (k, zz) zs ->
  (fst (shape2 (conv zz)) <> dim0 a /\ fst (shape2 (conv zz)) <> 1%nat) \/
  (snd (shape2 (conv zz)) <> dim1 a /\ snd (shape2 (conv zz)) <> 1%nat) ->
  fill_slices conv a zs = None.
Proof.
  induction zs as [|iz t IH]; intros a k zz Hin Hmis; [contradiction |].
  unfold fill_slices. simpl fold_left.
  destruct Hin as [-> | Hin].
  - simpl. rewrite (set_slice_misfit a k (conv zz) Hmis). apply fill_from_None.
  - simpl bind.
    destruct (set_slice a (fst iz) (conv (snd iz))) as [a'|] eqn:E;
      [| apply fill_from_None].
    apply set_slice_shape in E.
    apply (IH a' k zz Hin). unfold dim0, dim1 in *. rewrite E. exact Hmis.
Qed.

Lemma grad_axis_affine (h u v : R) (n : nat) (f : nat -> R) (i : nat) :
  h <> 0 -> (2 <= n)%nat -> (i < n)%nat ->
  (forall k, f k = u + v * INR k) ->
  grad_axis h n f i = v / h.
Proof.
  intros Hh Hn Hi Hf. unfold grad_axis.
  destruct (Nat.eqb_spec i 0) as [E0 | E0].
  - rewrite !Hf. simpl. field. exact Hh.
  - destruct (Nat.eqb_spec i (n - 1)) as [E1 | E1].
    + rewrite !Hf.
      replace (n - 1)%nat with (S (n - 2)) by lia. rewrite S_INR.
      field. exact Hh.
    + rewrite !Hf.
      replace (i + 1)%nat with (S (S (i - 1))) by lia. rewrite !S_INR.
      field. exact Hh.
Qed.

End SliceFacts.

Section StressExtras.

Import StressField.

Variable do_b_convo :
  component -> R -> R -> array2 -> string -> conv_mode -> R -> R -> array2.
Variable do_c_convo :
  component -> direction -> R -> array2 -> R -> R -> conv_mode -> array2.
Variable dem : array2.
Variable x_res_m : R.

Local Notation study_res' := (study_res x_res_m).
Local Notation z_vec' := (z_vec x_res_m).
Local Notation z_len' := (z_len x_res_m).
Local Notation kernel_len' := (kernel_len x_res_m).
Local Notation kernel_shape' := (kernel_shape x_res_m).
Local Notation topo' := (topo dem).
Local Notation b_out' := (b_out dem x_res_m).
Local Notation b_dataset' := (b_dataset do_b_convo dem x_res_m).
Local Notation b_top' := (b_top do_b_convo dem x_res_m).
Local Notation topo_c' := (topo_c do_b_convo dem x_res_m).
Local Notation topo_grad' := (topo_grad do_b_convo dem x_res_m).
Local Notation Fh_x' := (Fh_x do_b_convo dem x_res_m).
Local Notation Fh_y' := (Fh_y do_b_convo dem x_res_m).
Local Notation cerr' := (cerr do_b_convo do_c_convo dem x_res_m).
Local Notation total' := (total do_b_convo do_c_convo dem x_res_m).
Local Notation b_conv' := (b_conv do_b_convo dem x_res_m).
Local Notation crop0' := (crop0 dem x_res_m).
Local Notation crop1' := (crop1 dem x_res_m).
Local Notation b_conv_contract :=
  (forall comp zz,
     shape2 (b_conv' comp zz)
     = size_output kernel_shape' (shape2 topo') b_conv_mode).
Local Notation kernel_narrower :=
  ((1 <= kernel_len')%nat /\
   (kernel_len' < fst (shape2 dem))%nat /\
   (kernel_len' < snd (shape2 dem))%nat).

(** X8.  The stresses are computed at 27 depths one kilometre apart; the
    shallowest is not the surface but one grid resolution down, so the k-th
    depth is study_res + 1000 k. *)
Theorem X8_depth_levels :
  length (z_vec x_res_m) = 27%nat /\
  forall k, (k < 27)%nat ->
    nth_error (z_vec x_res_m) k = Some (IZR (study_res x_res_m) + 1000 * INR k).
Proof.
  split.
  - unfold z_vec, np_linspace. rewrite length_map, length_seq.
    apply z_len_is_27.
  - apply depth_level.
Qed.

(** X9.  For a resolution of at least one metre, the kernel is the smallest
    whole number of pixels that spans more than the kernel diameter: its
    width in metres exceeds 2 * kernel_rad by at most one pixel. *)
Theorem X9_kernel_spans_diameter :
  1 <= x_res_m ->
  2 * kernel_rad < INR kernel_len' * IZR study_res'
  /\ INR kernel_len' * IZR study_res' <= 2 * kernel_rad + IZR study_res'.
Proof.
  intros Hx. pose proof (study_res_positive x_res_m Hx) as Hs.
  apply IZR_le in Hs.
  unfold kernel_len, kernel_rad in *.
  set (s := IZR study_res') in *.
  set (y := 150000 * 2 / s + 1).
  assert (Hq : 0 < 150000 * 2 / s).
  { apply Rdiv_lt_0_compat; lra. }
  assert (Hy : 1 <= y) by (unfold y; lra).
  unfold np_int_. destruct (Rle_dec 0 y) as [_ | Hn]; [| lra].
  destruct (base_Int_part y) as [Hup Hlow].
  assert (Hk : (0 < Int_part y)%Z).
  { apply lt_IZR. lra. }
  rewrite INR_IZR_INZ, Z2Nat.id by lia.
  assert (Hys : y * s = 150000 * 2 + s).
  { unfold y. field. lra. }
  split.
  - assert ((y - 1) * s < IZR (Int_part y) * s)
      by (apply Rmult_lt_compat_r; lra).
    lra.
  - assert (IZR (Int_part y) * s <= y * s)
      by (apply Rmult_le_compat_r; lra).
    lra.
Qed.

(** The slopes of a planar DEM a + b i + c j. *)
Lemma planar_gradient (a b c : R) :
  b_conv_contract -> kernel_narrower -> 1 <= x_res_m ->
  (forall i j, get2 dem i j = a + b * INR i + c * INR j) ->
  exists dy dx,
    topo_grad' = Some (dy, dx) /\ shape2 dy = b_out' /\ shape2 dx = b_out' /\
    forall i j, (i < fst b_out')%nat -> (j < snd b_out')%nat ->
      get2 dy i j = - b / IZR study_res' /\
      get2 dx i j = - c / IZR study_res'.
Proof.
  intros Hb Hk Hx Hplane.
  pose proof (study_res_positive x_res_m Hx) as Hs. apply IZR_le in Hs.
  destruct (topo_grad_spec do_b_convo dem x_res_m Hb Hk Hx)
    as [t [dy [dx [Ht [Hg [Sy [Sx [Vy Vx]]]]]]]].
  destruct (topo_c_spec do_b_convo dem x_res_m Hb Hk Hx) as [t' [Ht' [_ Vt]]].
  rewrite Ht in Ht'. injection Ht' as <-.
  destruct (b_out_two dem x_res_m Hk) as [H0 H1].
  exists dy, dx. split; [exact Hg |]. split; [exact Sy |]. split; [exact Sx |].
  intros i j Hi Hj. split.
  - rewrite Vy.
    apply (grad_axis_affine _ (- (a + b * INR crop0' + c * INR (j + crop1'))));
      [lra | exact H0 | exact Hi |].
    intros k. rewrite Vt. unfold topo. simpl. rewrite Hplane.
    rewrite plus_INR. ring.
  - rewrite Vx.
    apply (grad_axis_affine _ (- (a + b * INR (i + crop0') + c * INR crop1')));
      [lra | exact H1 | exact Hj |].
    intros k. rewrite Vt. unfold topo. simpl. rewrite Hplane.
    rewrite (plus_INR k). ring.
Qed.

(** X11.  On a planar DEM a + b i + c j the slopes the notebook computes
    are exact at every point of the cropped grid, first and last rows and
    columns included: -b / study_res along the rows and -c / study_res
    along the columns (the sign is that of the negated topography). *)
Theorem X11_planar_slopes_exact (a b c : R) :
  b_conv_contract -> kernel_narrower -> 1 <= x_res_m ->
  (forall i j, get2 dem i j = a + b * INR i + c * INR j) ->
  exists dy dx,
    topo_grad do_b_convo dem x_res_m = Some (dy, dx) /\ shape2 dy = b_out' /\ shape2 dx = b_out' /\
    forall i j, (i < fst b_out')%nat -> (j < snd b_out')%nat ->
      get2 dy i j = - b / IZR study_res' /\
      get2 dx i j = - c / IZR study_res'.
Proof. apply planar_gradient. Qed.

(** X12.  A level DEM puts no horizontal load on the half-space: both
    loading functions are zero at every grid point, whatever the Boussinesq
    stresses are. *)
Theorem X12_level_ground_no_horizontal_load (c : R) :
  b_conv_contract -> kernel_narrower -> 1 <= x_res_m ->
  (forall i j, get2 dem i j = c) ->
  exists fx fy,
    Fh_x do_b_convo dem x_res_m = Some fx /\ Fh_y do_b_convo dem x_res_m = Some fy /\
    forall i j, (i < fst b_out')%nat -> (j < snd b_out')%nat ->
      get2 fx i j = 0 /\ get2 fy i j = 0.
Proof.
  intros Hb Hk Hx Hlevel.
  destruct (planar_gradient c 0 0 Hb Hk Hx) as [dy [dx [Hg [_ [_ V]]]]].
  { intros i j. rewrite Hlevel. ring. }
  destruct (Fh_x_spec do_b_convo dem x_res_m Hb Hk Hx)
    as [t [dy1 [dx1 [bxx [bxy [fx [_ [Hg1 [_ [_ [Hfx [_ Vx]]]]]]]]]]]].
  destruct (Fh_y_spec do_b_convo dem x_res_m Hb Hk Hx)
    as [t2 [dy2 [dx2 [byy [bxy2 [fy [_ [Hg2 [_ [_ [Hfy [_ Vy]]]]]]]]]]]].
  rewrite Hg in Hg1, Hg2.
  injection Hg1 as <- <-. injection Hg2 as <- <-.
  exists fx, fy. split; [exact Hfx |]. split; [exact Hfy |].
  intros i j Hi Hj. destruct (V i j Hi Hj) as [Ey Ex].
  rewrite (Vx i j Hi Hj), (Vy i j Hi Hj), Ey, Ex.
  unfold Rdiv. split; ring.
Qed.

(** X13.  For a resolution of at least one metre and a kernel of at least
    one pixel that is no wider than the DEM (so that the allocated slice
    has input - kernel + 1 rows and columns, at least one of each): if the
    Boussinesq convolution returns, at any of the depths, an array that does
    not broadcast to the allocated (b_out_x, b_out_y) slice, the slice
    assignment raises: neither the Boussinesq array nor the total of that
    component is produced. *)
Theorem X13_misfitting_convolution_aborts (comp : component) (k : nat) (zz : R) :
  1 <= x_res_m ->
  (1 <= kernel_len')%nat ->
  (kernel_len' <= fst (shape2 dem))%nat ->
  (kernel_len' <= snd (shape2 dem))%nat ->
  nth_error z_vec' k = Some zz ->
  (fst (shape2 (b_conv' comp zz)) <> fst b_out' /\
   fst (shape2 (b_conv' comp zz)) <> 1%nat) \/
  (snd (shape2 (b_conv' comp zz)) <> snd b_out' /\
   snd (shape2 (b_conv' comp zz)) <> 1%nat) ->
  b_dataset' comp = None /\ total' comp = None.
Proof.
  intros Hres _ _ _ Hk Hmis.
  assert (Hb : b_dataset' comp = None).
  { unfold b_dataset.
    rewrite (kernel_len_checked_Some x_res_m Hres). simpl bind.
    rewrite (fill_slices_misfit (b_conv' comp) (enumerate z_vec')
               (b_stress dem x_res_m) k zz).
    - reflexivity.
    - apply (nth_error_In _ k). apply nth_error_enumerate. exact Hk.
    - exact Hmis. }
  split; [exact Hb |]. unfold total. rewrite Hb. reflexivity.
Qed.

(** X14.  When the kernel is exactly as wide as the DEM along an axis, the
    Boussinesq stage still succeeds, with a single row or column, but the
    slopes cannot be taken on it: the gradient raises, and no loading
    function and no total is produced. *)
Theorem X14_kernel_as_wide_as_dem :
  b_conv_contract -> 1 <= x_res_m ->
  (1 <= kernel_len')%nat ->
  (kernel_len' <= fst (shape2 dem))%nat ->
  (kernel_len' <= snd (shape2 dem))%nat ->
  kernel_len' = fst (shape2 dem) \/ kernel_len' = snd (shape2 dem) ->
  (forall comp, exists b, b_dataset' comp = Some b) /\
  topo_grad do_b_convo dem x_res_m = None /\ Fh_x do_b_convo dem x_res_m = None /\ Fh_y do_b_convo dem x_res_m = None /\
  forall comp, total' comp = None.
Proof.
  intros Hb Hres H1 Hr Hc Hw.
  assert (Hds : forall comp, exists b, b_dataset' comp = Some b /\
                  shape3 b = (fst b_out', snd b_out', z_len')).
  { intros comp.
    destruct (b_dataset_spec do_b_convo dem x_res_m Hb Hres comp)
      as [b [E [S _]]].
    exists b. split; assumption. }
  assert (Ht : exists t, topo_c' = Some t /\ shape2 t = b_out').
  { destruct (Hds xx) as [b [E S]].
    unfold topo_c, b_top. rewrite E. simpl.
    unfold slice3, dim2. rewrite S. simpl snd. rewrite z_len_is_27. simpl.
    change (fst (topo_shape dem)) with (fst (shape2 dem)).
    change (snd (topo_shape dem)) with (snd (shape2 dem)).
    unfold _centered. cbn [shape2 topo np_scale2 fst snd].
    destruct (Nat.leb_spec (fst (shape2 dem) + 1 - kernel_len')
                (fst (shape2 dem))); [| lia].
    destruct (Nat.leb_spec (snd (shape2 dem) + 1 - kernel_len')
                (snd (shape2 dem))); [| lia].
    cbn [andb]. eexists. split; reflexivity. }
  destruct Ht as [t [Et St]].
  assert (Hg : topo_grad' = None).
  { unfold topo_grad. rewrite Et. simpl. unfold np_gradient. rewrite St.
    unfold b_out, kernel_shape, size_output, b_conv_mode, topo_shape.
    simpl fst. simpl snd.
    destruct Hw as [Hw | Hw].
    - destruct (Nat.leb_spec 2 (fst (shape2 dem) + 1 - kernel_len'));
        [lia | reflexivity].
    - destruct (Nat.leb_spec 2 (snd (shape2 dem) + 1 - kernel_len'));
        [lia | rewrite andb_false_r; reflexivity]. }
  assert (Hx : Fh_x' = None).
  { unfold Fh_x. rewrite Et, Hg. reflexivity. }
  assert (Hy : Fh_y' = None).
  { unfold Fh_y. rewrite Et, Hg. reflexivity. }
  split; [intros comp; destruct (Hds comp) as [b [E _]]; exists b; exact E |].
  split; [exact Hg |]. split; [exact Hx |]. split; [exact Hy |].
  intros comp. destruct (Hds comp) as [b [E _]].
  unfold total, cerr, c_x. rewrite E, Et. simpl. rewrite Hx. reflexivity.
Qed.

End StressExtras.

(** * The further statements on concrete inputs *)

Module MoreFailureRuns.

Import Failure.
Import FailureData.
Import MoreFailureData.

Lemma priors_head_in_range :
  Forall (fun i => (-10000 <= i < 10000)%Z) (r_index priors_head).
Proof. repeat constructor; simpl; lia. Defined.

Lemma priors_head_distinct : NoDup (r_index priors_head).
Proof. repeat constructor; simpl; intuition. Defined.

Lemma fault2_slips_nonneg : forall f, In f fault2 -> 0 <= f_slip_m f.
Proof. intros f [<- | [<- | []]]; simpl; lra. Defined.

Lemma fault2_mean_slip : mean_slip fault2 = 3.
Proof. unfold mean_slip, mean. simpl. lra. Defined.

Lemma fault2_mean_slip_pos : 0 < mean_slip fault2.
Proof. rewrite fault2_mean_slip. lra. Defined.

Lemma fault2_mean_slip_nonzero : mean_slip fault2 <> 0.
Proof. rewrite fault2_mean_slip. lra. Defined.

Lemma normal10_positive : forall (q : PriorRow) (f : FaultRow),
  In q priors2 -> In f fault2 ->
  0 < spec_sig_n_eff normal10 q (phi_of_label draws (p_index q)) f.
Proof. intros q f _ _. unfold spec_sig_n_eff, normal10. lra. Defined.

Lemma X1_witness :
  exists out,
    fail_posteriors shear3 shear4 normal10 draws fault2 priors2 = Some out /\
    ascending (map fst (rows out)).
Proof.
  exact (X1_posterior_rows_ascend shear3 shear4 normal10 draws fault2 priors2
           FailureRuns.priors2_in_range FailureRuns.priors2_distinct
           FailureRuns.fault2_nonempty FailureRuns.priors2_nonempty).
Defined.

Lemma X2_witness :
  exists phis sdf,
    phi_priors draws priors2 = Some phis /\
    search_df fault2 priors2 phis = Some sdf /\
    ascending
      (s_index (mu_iter (map (resolve shear3 shear4 normal10 fault2) sdf))) /\
    forall k,
      In k (s_index (mu_iter (map (resolve shear3 shear4 normal10 fault2) sdf)))
      <-> In k (r_index priors2).
Proof.
  exact (X2_one_estimate_per_label shear3 shear4 normal10 draws fault2 priors2
           FailureRuns.priors2_in_range FailureRuns.fault2_nonempty
           FailureRuns.priors2_nonempty).
Defined.

Lemma X3_witness :
  exists out out',
    fail_posteriors shear3 shear4 normal10 draws fault2 priors2 = Some out /\
    fail_posteriors shear3 shear4 normal10 draws fault2 priors_head = Some out' /\
    (In (3%Z, spec_row shear3 shear4 normal10 draws fault2
                (mkPriorRow 3 10 20 5 (1 / 2))) (rows out)
     <-> In (3%Z, spec_row shear3 shear4 normal10 draws fault2
                   (mkPriorRow 3 10 20 5 (1 / 2))) (rows out')).
Proof.
  exact (X3_iterations_are_independent shear3 shear4 normal10 draws fault2
           priors2 priors_head (mkPriorRow 3 10 20 5 (1 / 2))
           (spec_row shear3 shear4 normal10 draws fault2
              (mkPriorRow 3 10 20 5 (1 / 2)))
           FailureRuns.priors2_in_range FailureRuns.priors2_distinct
           priors_head_in_range priors_head_distinct
           FailureRuns.fault2_nonempty
           (or_introl eq_refl) (or_introl eq_refl)).
Defined.

Lemma X4_witness :
  exists out,
    fail_posteriors shear3 shear4 normal10 draws fault2 priors2 = Some out /\
    ((exists vals, In (3%Z, vals) (rows out)) <->
     mean (map (fun f => spec_tau_mag shear3 shear4
                           (mkPriorRow 3 10 20 5 (1 / 2))
                           (phi_of_label draws 3) f
                         * f_slip_m f / mean_slip fault2) fault2)
     <= mean (map (spec_sig_n_eff normal10 (mkPriorRow 3 10 20 5 (1 / 2))
                     (phi_of_label draws 3)) fault2)).
Proof.
  exact (X4_valid_ensemble_criterion shear3 shear4 normal10 draws fault2
           priors2 (mkPriorRow 3 10 20 5 (1 / 2))
           FailureRuns.priors2_in_range FailureRuns.priors2_distinct
           fault2_slips_nonneg fault2_mean_slip_pos normal10_positive
           (or_introl eq_refl)).
Defined.

Lemma X5_witness :
  fail_posteriors shear3 shear4 normal10 draws
    (map (scale_slip 1000) fault2) priors2
  = fail_posteriors shear3 shear4 normal10 draws fault2 priors2 /\
  exists out,
    fail_posteriors shear3 shear4 normal10 draws fault2 priors2 = Some out.
Proof.
  apply (X5_slip_unit_invariance shear3 shear4 normal10 draws fault2 priors2
           1000).
  - lra.
  - exact fault2_mean_slip_nonzero.
  - exact FailureRuns.priors2_in_range.
  - exact FailureRuns.priors2_distinct.
  - exact FailureRuns.priors2_nonempty.
Defined.

Lemma X6_witness :
  fail_posteriors shear3 shear4 normal10 draws fault2 priors2_swapped
  = fail_posteriors shear3 shear4 normal10 draws fault2 priors2 /\
  exists out,
    fail_posteriors shear3 shear4 normal10 draws fault2 priors2 = Some out.
Proof.
  apply (X6_prior_order_invariance shear3 shear4 normal10 draws fault2
           priors2 priors2_swapped).
  - apply perm_swap.
  - exact FailureRuns.priors2_in_range.
  - exact FailureRuns.priors2_distinct.
  - exact FailureRuns.fault2_nonempty.
  - exact FailureRuns.priors2_nonempty.
Defined.

End MoreFailureRuns.

Module MoreStressRuns.

Import StressField.
Import StressData.
Import MoreStressData.

Lemma flat_b_contract (d : array2) : forall comp zz,
  shape2 (b_conv flat_b d res3 comp zz)
  = size_output (kernel_shape res3) (shape2 (topo d)) b_conv_mode.
Proof.
  intros comp zz. unfold b_conv, kernel_shape.
  rewrite StressRuns.res3_kernel_len. reflexivity.
Defined.

Lemma kernel_narrower_3x3 (d : array2) :
  shape2 d = (3, 3)%nat ->
  (1 <= kernel_len res3)%nat /\
  (kernel_len res3 < fst (shape2 d))%nat /\
  (kernel_len res3 < snd (shape2 d))%nat.
Proof.
  intros ->. rewrite StressRuns.res3_kernel_len. simpl. lia.
Defined.

Lemma X9_witness :
  2 * kernel_rad < INR (kernel_len res3) * IZR (study_res res3)
  /\ INR (kernel_len res3) * IZR (study_res res3)
     <= 2 * kernel_rad + IZR (study_res res3).
Proof. exact (X9_kernel_spans_diameter res3 StressRuns.res3_at_least_one). Defined.

Lemma X11_witness :
  exists dy dx,
    topo_grad flat_b plane3 res3 = Some (dy, dx) /\
    shape2 dy = b_out plane3 res3 /\ shape2 dx = b_out plane3 res3 /\
    forall i j, (i < fst (b_out plane3 res3))%nat ->
                (j < snd (b_out plane3 res3))%nat ->
      get2 dy i j = - 2 / IZR (study_res res3) /\
      get2 dx i j = - 3 / IZR (study_res res3).
Proof.
  exact (X11_planar_slopes_exact flat_b plane3 res3 1 2 3
           (flat_b_contract plane3) (kernel_narrower_3x3 plane3 eq_refl)
           StressRuns.res3_at_least_one (fun i j => eq_refl)).
Defined.

Lemma X12_witness :
  exists fx fy,
    Fh_x flat_b level3 res3 = Some fx /\ Fh_y flat_b level3 res3 = Some fy /\
    forall i j, (i < fst (b_out level3 res3))%nat ->
                (j < snd (b_out level3 res3))%nat ->
      get2 fx i j = 0 /\ get2 fy i j = 0.
Proof.
  exact (X12_level_ground_no_horizontal_load flat_b level3 res3 5
           (flat_b_contract level3) (kernel_narrower_3x3 level3 eq_refl)
           StressRuns.res3_at_least_one (fun i j => eq_refl)).
Defined.

Lemma wide_b_misfits :
  (fst (shape2 (b_conv wide_b dem3 res3 zz
                  (IZR (study_res res3) + 1000 * INR 0)))
   <> fst (b_out dem3 res3) /\
   fst (shape2 (b_conv wide_b dem3 res3 zz
                  (IZR (study_res res3) + 1000 * INR 0))) <> 1%nat) \/
  (snd (shape2 (b_conv wide_b dem3 res3 zz
                  (IZR (study_res res3) + 1000 * INR 0)))
   <> snd (b_out dem3 res3) /\
   snd (shape2 (b_conv wide_b dem3 res3 zz
                  (IZR (study_res res3) + 1000 * INR 0))) <> 1%nat).
Proof.
  left. unfold b_out, kernel_shape. rewrite StressRuns.res3_kernel_len.
  simpl. lia.
Defined.

Lemma X13_witness :
  b_dataset wide_b dem3 res3 zz = None /\
  total wide_b same_c dem3 res3 zz = None.
Proof.
  apply (X13_misfitting_convolution_aborts wide_b same_c dem3 res3 zz 0%nat
           (IZR (study_res res3) + 1000 * INR 0)).
  - exact StressRuns.res3_at_least_one.
  - rewrite StressRuns.res3_kernel_len. lia.
  - rewrite StressRuns.res3_kernel_len. simpl. lia.
  - rewrite StressRuns.res3_kernel_len. simpl. lia.
  - apply depth_level. lia.
  - exact wide_b_misfits.
Defined.

Lemma X14_witness :
  (forall comp, exists b, b_dataset flat_b dem2 res3 comp = Some b) /\
  topo_grad flat_b dem2 res3 = None /\
  Fh_x flat_b dem2 res3 = None /\ Fh_y flat_b dem2 res3 = None /\
  forall comp, total flat_b same_c dem2 res3 comp = None.
Proof.
  apply (X14_kernel_as_wide_as_dem flat_b same_c dem2 res3).
  - exact (flat_b_contract dem2).
  - exact StressRuns.res3_at_least_one.
  - rewrite StressRuns.res3_kernel_len. lia.
  - rewrite StressRuns.res3_kernel_len. simpl. lia.
  - rewrite StressRuns.res3_kernel_len. simpl. lia.
  - left. rewrite StressRuns.res3_kernel_len. reflexivity.
Defined.

End MoreStressRuns.
